(** * Kivi, the KikiOS web browser ([bin/browser.py]): a shallow embedding

    The browser is one Python file.  Its pure helpers (URL parsing, HTTP
    response parsing, entity decoding, the tag-soup parser, the layout
    engine) become Rocq functions; the [Browser] class becomes a record and
    its methods become functions in a state-and-exception monad.

    Conventions of the embedding:
    - a Python [str] (and a [bytes] object) is a list of code points
      ([list Z]); [chr(b)] on a byte is the identity on that representation,
      and [lit "..."] turns a literal into such a list;
    - Python integers are [Z]; [//] is [Z.div] (both round to minus infinity);
    - a Python exception is a [Raise] result; [OutOfFuel] is the answer of a
      loop whose fuel was too small and never describes a Python behaviour;
    - a Python list used as a stack ([append] / [pop] / [x[-1]]) is a Rocq
      list whose head is the top of the stack;
    - the [vibe] module (sockets, DNS, files, fonts, window) is the record
      [World]; drawing calls have no effect on the controller's state and
      are modelled only where their arithmetic can fail;
    - resource exhaustion (memory, interpreter recursion depth) is outside
      the model. *)

From Stdlib Require Import String Ascii DecimalString.
From stdpp Require Import gmap list.
From Stdlib Require Import ZArith List Bool Lia.
Import ListNotations.

Abbreviation str := (list Z) (only parsing).

(** ** Results of fallible code *)

Inductive exn := ValueError | IndexError | TypeError | ZeroDivisionError.

Inductive result (A : Type) : Type :=
| Ok (a : A)
| Raise (e : exn)
| OutOfFuel.
Arguments Ok {A} a.
Arguments Raise {A} e.
Arguments OutOfFuel {A}.

Definition rbind {A B} (r : result A) (k : A -> result B) : result B :=
  match r with
  | Ok a => k a
  | Raise e => Raise e
  | OutOfFuel => OutOfFuel
  end.

Notation "'let*' x ':=' r 'in' k" := (rbind r (fun x => k))
  (at level 10, x pattern, r at level 100, k at level 200).

(** [try: r except: h] is Python's [try: r  except: h] with a bare
    [except], which catches every exception. *)
Definition try_except {A} (r : result A) (h : result A) : result A :=
  match r with
  | Raise _ => h
  | _ => r
  end.

(** ** Python's built-in string operations *)

Module Py.

Definition lit (s : string) : str :=
  map (fun c => Z.of_N (N_of_ascii c)) (list_ascii_of_string s).

Fixpoint str_eqb (a b : str) : bool :=
  match a, b with
  | [], [] => true
  | x :: a', y :: b' => (x =? y)%Z && str_eqb a' b'
  | _, _ => false
  end.

(** [bool(s)] for a string: non-empty. *)
Definition truthy (s : str) : bool :=
  match s with [] => false | _ => true end.

(** [s.startswith(p)] *)
Fixpoint startswith (s p : str) {struct p} : bool :=
  match p, s with
  | [], _ => true
  | x :: p', y :: s' => (x =? y)%Z && startswith s' p'
  | _ :: _, [] => false
  end.

(** [s.endswith(p)] *)
Definition endswith (s p : str) : bool := startswith (rev s) (rev p).

(** [s.find(p)]: the index of the first occurrence of [p], [None] for -1. *)
Fixpoint find (p s : str) : option nat :=
  if startswith s p then Some O
  else match s with
       | [] => None
       | _ :: s' => option_map S (find p s')
       end.

(** [s.find(c)] for a one-character [c]. *)
Definition find_char (c : Z) (s : str) : option nat := find [c] s.

(** [s[a:b]] for [0 <= a], [0 <= b]. *)
Definition slice (s : str) (a b : nat) : str := firstn (b - a) (skipn a s).

(** [s[:k]] for any integer [k] (a negative [k] counts from the end). *)
Definition slice_to (s : str) (k : Z) : str :=
  if (k <? 0)%Z then firstn (Z.to_nat (Z.of_nat (length s) + k)) s
  else firstn (Z.to_nat k) s.

(** White space for [str.strip], [str.split] and [int]: the six ASCII
    white-space characters.  The characters 0x1c to 0x1f, 0x85 and 0xa0,
    which some interpreters count as white space too, are ordinary
    characters here. *)
Definition is_space (c : Z) : bool :=
  ((c =? 32) || (c =? 9) || (c =? 10) || (c =? 13) || (c =? 11) || (c =? 12))%Z.

Fixpoint lstrip (s : str) : str :=
  match s with
  | c :: s' => if is_space c then lstrip s' else s
  | [] => []
  end.

Definition rstrip (s : str) : str := rev (lstrip (rev s)).

(** [s.strip()] *)
Definition strip (s : str) : str := rstrip (lstrip s).

Fixpoint lstrip_char (c : Z) (s : str) : str :=
  match s with
  | x :: s' => if (x =? c)%Z then lstrip_char c s' else s
  | [] => []
  end.

(** [s.rstrip(c)] for a one-character [c]. *)
Definition rstrip_char (c : Z) (s : str) : str := rev (lstrip_char c (rev s)).

(** [s.lower()]: ASCII letters are lowered, every other character is
    left as it is. *)
Definition lower_char (c : Z) : Z :=
  if ((65 <=? c) && (c <=? 90))%Z then (c + 32)%Z else c.
Definition lower (s : str) : str := map lower_char s.

(** [sep.join(l)] *)
Fixpoint join (sep : str) (l : list str) : str :=
  match l with
  | [] => []
  | [x] => x
  | x :: l' => x ++ sep ++ join sep l'
  end.

(** [s.split()]: the maximal runs of non-white-space characters. *)
Fixpoint split_ws_aux (cur : str) (s : str) : list str :=
  match s with
  | [] => match cur with [] => [] | _ => [rev cur] end
  | c :: s' =>
      if is_space c
      then match cur with
           | [] => split_ws_aux [] s'
           | _ => rev cur :: split_ws_aux [] s'
           end
      else split_ws_aux (c :: cur) s'
  end.
Definition split_ws (s : str) : list str := split_ws_aux [] s.

(** [s.split(sep)] for a non-empty [sep]: [skip] counts the characters of a
    separator still to be dropped, [cur] is the piece being read
    (reversed). *)
Fixpoint split_aux (sep : str) (skip : nat) (cur : str) (s : str) : list str :=
  match s with
  | [] => [rev cur]
  | c :: s' =>
      match skip with
      | S k => split_aux sep k cur s'
      | O =>
          if startswith s sep
          then rev cur :: split_aux sep (length sep - 1) [] s'
          else split_aux sep O (c :: cur) s'
      end
  end.
Definition split (sep : str) (s : str) : list str := split_aux sep O [] s.

(** [s.rsplit(c, 1)[0]]: what precedes the last [c], or all of [s]. *)
Fixpoint drop_through (c : Z) (s : str) : option str :=
  match s with
  | [] => None
  | x :: s' => if (x =? c)%Z then Some s' else drop_through c s'
  end.
Definition rsplit1_head (c : Z) (s : str) : str :=
  match drop_through c (rev s) with
  | Some r => rev r
  | None => s
  end.

(** [str(n)] for an integer. *)
Definition str_of_int (n : Z) : str := lit (NilZero.string_of_int (Z.to_int n)).

(** [int(s, base)] for [base] 10 or 16, after the grammar of integer
    literals: surrounding white space, an optional sign, for base 16 an
    optional [0x] prefix, then at least one digit, where single underscores
    may separate digits; anything else raises [ValueError]. *)
Definition digit_val (base c : Z) : option Z :=
  let v := if ((48 <=? c) && (c <=? 57))%Z then Some (c - 48)%Z
           else if ((97 <=? c) && (c <=? 122))%Z then Some (c - 87)%Z
           else if ((65 <=? c) && (c <=? 90))%Z then Some (c - 55)%Z
           else None in
  match v with
  | Some d => if (d <? base)%Z then Some d else None
  | None => None
  end.

Fixpoint int_digits (base acc : Z) (after_digit : bool) (s : str) : option Z :=
  match s with
  | [] => if after_digit then Some acc else None
  | c :: s' =>
      if (c =? 95)%Z
      then if after_digit then int_digits base acc false s' else None
      else match digit_val base c with
           | Some d => int_digits base (acc * base + d)%Z true s'
           | None => None
           end
  end.

Definition int_unsigned (base : Z) (s : str) : option Z :=
  if (base =? 16)%Z && startswith (lower (firstn 2 s)) (lit "0x")
  then match skipn 2 s with
       | 95%Z :: s' => int_digits base 0 false s'
       | s' => int_digits base 0 false s'
       end
  else int_digits base 0 false s.

Definition int (base : Z) (s : str) : result Z :=
  let s := strip s in
  let r := match s with
           | 45%Z :: s' => option_map Z.opp (int_unsigned base s')
           | 43%Z :: s' => int_unsigned base s'
           | _ => int_unsigned base s
           end in
  match r with
  | Some n => Ok n
  | None => Raise ValueError
  end.

(** [chr(n)] *)
Definition chr (n : Z) : result str :=
  if ((0 <=? n) && (n <=? 1114111))%Z then Ok [n] else Raise ValueError.

End Py.

Import Py.

(** ** Constants *)

Definition WIN_W : Z := 640.
Definition WIN_H : Z := 480.
Definition MARGIN : Z := 10.
Definition SCROLLBAR_W : Z := 12.
Definition ADDRESS_BAR_H : Z := 24.

Definition WHITE : Z := 16777215.
Definition BLACK : Z := 0.
Definition GRAY : Z := 8947848.
Definition LIGHT_GRAY : Z := 13421772.
Definition LINK_COLOR : Z := 255.

Definition FONT_SIZES : list (str * Z) :=
  [ (lit "h1", 28%Z); (lit "h2", 24%Z); (lit "h3", 20%Z); (lit "h4", 18%Z);
    (lit "h5", 16%Z); (lit "h6", 14%Z); (lit "default", 16%Z) ].

Definition dq : str := [34%Z].
Definition sq : str := [39%Z].

Definition HTML_ENTITIES_items : list (str * str) :=
  [ (lit "amp", lit "&"); (lit "lt", lit "<"); (lit "gt", lit ">");
    (lit "quot", dq); (lit "apos", sq);
    (lit "nbsp", lit " "); (lit "copy", lit "(c)"); (lit "reg", lit "(R)");
    (lit "trade", lit "(TM)");
    (lit "mdash", lit "-"); (lit "ndash", lit "-"); (lit "bull", lit "*");
    (lit "hellip", lit "...");
    (lit "laquo", lit "<<"); (lit "raquo", lit ">>"); (lit "ldquo", dq);
    (lit "rdquo", dq);
    (lit "lsquo", sq); (lit "rsquo", sq); (lit "pound", lit "GBP");
    (lit "euro", lit "EUR");
    (lit "yen", lit "JPY"); (lit "cent", lit "c"); (lit "times", lit "x");
    (lit "divide", lit "/");
    (lit "plusmn", lit "+/-"); (lit "deg", lit "deg"); (lit "larr", lit "<-");
    (lit "rarr", lit "->");
    (lit "uarr", lit "^"); (lit "darr", lit "v"); (lit "middot", lit ".");
    (lit "sect", lit "S");
    (lit "para", lit "P"); (lit "dagger", lit "+"); (lit "permil", lit "o/oo");
    (lit "prime", sq);
    (lit "infin", lit "inf"); (lit "ne", lit "!="); (lit "le", lit "<=");
    (lit "ge", lit ">=");
    (lit "asymp", lit "~="); (lit "equiv", lit "==="); (lit "alpha", lit "a");
    (lit "beta", lit "b");
    (lit "gamma", lit "g"); (lit "delta", lit "d"); (lit "pi", lit "pi");
    (lit "sigma", lit "s"); (lit "omega", lit "w") ].

Definition HTML_ENTITIES : gmap (list Z) (list Z) :=
  list_to_map HTML_ENTITIES_items.

(** ** HTML parser: entities *)

(** The replacement of one reference [text[i:end+1]] whose body is
    [entity]; [whole] is the reference itself, appended when the body is
    not recognised. *)
Definition decode_reference (entity whole : str) : result str :=
  if startswith entity (lit "#x")
  then try_except (let* n := int 16 (skipn 2 entity) in chr n) (Ok whole)
  else if startswith entity (lit "#")
  then try_except (let* n := int 10 (skipn 1 entity) in chr n) (Ok whole)
  else match HTML_ENTITIES !! entity with
       | Some v => Ok v
       | None => Ok whole
       end.

(** The [while i < len(text)] loop of [decode_entities]; [text] is the
    unread suffix [text[i:]], [acc] is [result]. *)
Fixpoint decode_loop (fuel : nat) (text : str) (acc : str) : result str :=
  match fuel with
  | O => OutOfFuel
  | S fuel' =>
      match text with
      | [] => Ok acc
      | c :: rest =>
          let literal := decode_loop fuel' rest (acc ++ [c]) in
          if (c =? 38)%Z
          then match find_char 59 text with
               | Some e =>
                   if e <? 12
                   then let* piece := decode_reference (slice text 1 e)
                                                        (firstn (e + 1) text) in
                        decode_loop fuel' (skipn (e + 1) text) (acc ++ piece)
                   else literal
               | None => literal
               end
          else literal
      end
  end.

Definition decode_entities (text : str) : result str :=
  decode_loop (S (length text)) text [].


(** ** The platform ([vibe]) *)

(** The services of the [vibe] module that the browser's state depends on.
    A socket is observed through what it delivers: [recv_script tls sock
    request] lists the results of the successive [recv] calls made after
    [request] was sent ([None] or an empty chunk: nothing available); once
    the list is used up every further call yields nothing. *)
Record World := {
  dns_resolve : list Z -> Z;
  tcp_connect : Z -> Z -> Z;
  tls_connect : Z -> Z -> list Z -> Z;
  recv_script : bool -> Z -> list Z -> list (option (list Z));
  file_open : list Z -> option Z;
  file_size : Z -> Z;
  file_read : Z -> Z -> Z -> option (list Z);
  ttf_get_advance : Z -> Z -> Z;
  ttf_get_kerning : Z -> Z -> Z -> Z;
  ttf_get_metrics : Z -> Z * Z * Z;
  TTF_BOLD : Z;
  TTF_ITALIC : Z;
  window_create : Z
}.

(** ** URL parser *)

Record ParsedUrl := {
  u_scheme : list Z;
  u_host : option (list Z);
  u_port : option Z;
  u_path : list Z
}.

Definition parse_url (url : str) : result ParsedUrl :=
  if startswith url (lit "file://")
  then Ok {| u_scheme := lit "file"; u_host := None; u_port := None;
             u_path := skipn 7 url |}
  else
    let '(scheme, url, default_port) :=
      if startswith url (lit "https://") then (lit "https", skipn 8 url, 443%Z)
      else if startswith url (lit "http://") then (lit "http", skipn 7 url, 80%Z)
      else (lit "http", url, 80%Z) in
    let '(host_port, path) :=
      match find_char 47 url with
      | None => (url, lit "/")
      | Some slash_pos => (firstn slash_pos url, skipn slash_pos url)
      end in
    match find_char 58 host_port with
    | None =>
        Ok {| u_scheme := scheme; u_host := Some host_port;
              u_port := Some default_port; u_path := path |}
    | Some colon_pos =>
        let* port := int 10 (skipn (colon_pos + 1) host_port) in
        Ok {| u_scheme := scheme; u_host := Some (firstn colon_pos host_port);
              u_port := Some port; u_path := path |}
    end.

(** [rel_url] carries a scheme of its own. *)
Definition is_absolute (rel_url : str) : bool :=
  startswith rel_url (lit "http://") || startswith rel_url (lit "https://")
  || startswith rel_url (lit "file://") || startswith rel_url (lit "about:").

Definition resolve_url (base_url rel_url : str) : result str :=
  if is_absolute rel_url then Ok rel_url
  else
    let* u := parse_url base_url in
    let new_path :=
      if startswith rel_url (lit "/") then rel_url
      else (rsplit1_head 47 (u_path u) ++ lit "/") ++ rel_url in
    if str_eqb (u_scheme u) (lit "file") then Ok (lit "file://" ++ new_path)
    else
      match u_host u, u_port u with
      | Some host, Some port =>
          let result := (u_scheme u ++ lit "://") ++ host in
          let result :=
            if (str_eqb (u_scheme u) (lit "http") && negb (port =? 80)%Z)
               || (str_eqb (u_scheme u) (lit "https") && negb (port =? 443)%Z)
            then (result ++ lit ":") ++ str_of_int port
            else result in
          Ok (result ++ new_path)
      | _, _ => Raise TypeError
      end.

(** ** HTTP fetcher *)

Definition nl : str := [10%Z].
Definition crlf : str := [13%Z; 10%Z].

Definition WELCOME_PAGE : str :=
  lit "<!DOCTYPE html>" ++ nl ++
  lit "<html>" ++ nl ++
  lit "<head><title>Welcome to Kivi</title></head>" ++ nl ++
  lit "<body>" ++ nl ++
  lit "<h1>Welcome to Kivi Browser</h1>" ++ nl ++
  lit "<p>A modern web browser for KikiOS with HTTPS support.</p>" ++ nl ++
  lit "<hr>" ++ nl ++
  lit "<h2>Try these links:</h2>" ++ nl ++
  lit "<ul>" ++ nl ++
  lit "<li><a href=" ++ dq ++ lit "https://example.com" ++ dq ++
  lit ">example.com</a> - A simple test page (HTTPS)</li>" ++ nl ++
  lit "<li><a href=" ++ dq ++ lit "http://info.cern.ch" ++ dq ++
  lit ">info.cern.ch</a> - The first website ever</li>" ++ nl ++
  lit "<li><a href=" ++ dq ++ lit "http://motherfuckingwebsite.com" ++ dq ++
  lit ">motherfuckingwebsite.com</a> - Clean HTML sites work best</li>" ++ nl ++
  lit "<li><a href=" ++ dq ++ lit "https://www.google.com" ++ dq ++
  lit ">google.com</a> - Try HTTPS sites!</li>" ++ nl ++
  lit "</ul>" ++ nl ++
  lit "<hr>" ++ nl ++
  lit "<h2>Features:</h2>" ++ nl ++
  lit "<ul>" ++ nl ++
  lit "<li>HTTP and HTTPS support with TLS 1.2</li>" ++ nl ++
  lit "<li>HTML rendering with TTF fonts</li>" ++ nl ++
  lit "<li>Link navigation and history</li>" ++ nl ++
  lit "<li>Local file browsing (file://)</li>" ++ nl ++
  lit "</ul>" ++ nl ++
  lit "<hr>" ++ nl ++
  lit "<p>Tip: Click the address bar to type a URL, press Enter to navigate.</p>"
  ++ nl ++
  lit "<p>Use the back button or Page Up/Down to navigate.</p>" ++ nl ++
  lit "</body>" ++ nl ++
  lit "</html>".

(** [for b in data: s += chr(b)]: a byte and the character it decodes to
    are the same code point. *)
Definition bytes_to_str (data : list Z) : str := data.

Definition is_redirect (status : Z) : bool :=
  ((status =? 301) || (status =? 302) || (status =? 307) || (status =? 308))%Z.

(** The [for line in lines[1:]] scan for a [Location] header. *)
Fixpoint find_location (lines : list str) : option str :=
  match lines with
  | [] => None
  | line :: lines' =>
      if startswith (lower line) (lit "location:")
      then Some (strip (skipn 9 line))
      else find_location lines'
  end.

(** The status of a response whose status line is [line0]:
    [int(parts[1]) if len(parts) >= 2 else 0]. *)
Definition parse_status (line0 : str) : result Z :=
  let parts := split (lit " ") line0 in
  if 2 <=? length parts
  then match parts with
       | _ :: p1 :: _ => int 10 p1
       | _ => Raise IndexError
       end
  else Ok 0%Z.

Definition parse_http_response (data : list Z) : result (Z * str) :=
  match find (crlf ++ crlf) data with
  | None => Ok (0%Z, lit "Invalid HTTP response")
  | Some sep =>
      let header_bytes := firstn sep data in
      let body_bytes := skipn (sep + 4) data in
      let header_str := bytes_to_str header_bytes in
      let lines := split crlf header_str in
      let* line0 := match lines with
                    | l :: _ => Ok l
                    | [] => Raise IndexError
                    end in
      let* status := parse_status line0 in
      match (if is_redirect status then find_location (tl lines) else None) with
      | Some location => Ok (status, location)
      | None => Ok (status, bytes_to_str body_bytes)
      end
  end.

Definition fetch_file (w : World) (path : str) : result (Z * str) :=
  match file_open w path with
  | None => Ok (404%Z, lit "File not found: " ++ path)
  | Some f =>
      let size := file_size w f in
      match file_read w f size 0 with
      | None => Ok (500%Z, lit "Failed to read file")
      | Some data => Ok (200%Z, bytes_to_str data)
      end
  end.

(** The receive loop of [fetch_url]: [timeout] counts consecutive idle
    polls, [response] is what was received so far.  With the script used
    up, every poll is idle: the loop either breaks at once (something was
    received) or counts [timeout] up to 100; it returns [response] both
    ways. *)
Fixpoint read_loop (script : list (option (list Z))) (timeout : Z)
    (response : list Z) : list Z :=
  if (timeout <? 100)%Z
  then match script with
       | [] => response
       | chunk :: script' =>
           match chunk with
           | Some ((_ :: _) as data) => read_loop script' 0 (response ++ data)
           | _ =>
               if 0 <? length response then response
               else read_loop script' (timeout + 1) response
           end
       end
  else response.

Definition fetch_url (w : World) (url : str) : result (Z * str) :=
  if str_eqb url (lit "about:home") || str_eqb url (lit "about:blank")
  then Ok (200%Z, WELCOME_PAGE)
  else
    let* u := parse_url url in
    if str_eqb (u_scheme u) (lit "file") then fetch_file w (u_path u)
    else
      match u_host u, u_port u with
      | Some host, Some port =>
          let ip := dns_resolve w host in
          if (ip =? 0)%Z then Ok (0%Z, lit "DNS lookup failed for " ++ host)
          else
            let tls := str_eqb (u_scheme u) (lit "https") in
            let sock := if tls then tls_connect w ip port host
                        else tcp_connect w ip port in
            if (sock <? 0)%Z then Ok (0%Z, lit "Connection failed to " ++ host)
            else
              let request :=
                ((lit "GET " ++ u_path u) ++ lit " HTTP/1.0" ++ crlf)
                ++ ((lit "Host: " ++ host) ++ crlf)
                ++ (lit "User-Agent: Kivi/1.0 (KikiOS)" ++ crlf)
                ++ (lit "Connection: close" ++ crlf)
                ++ crlf in
              let response := read_loop (recv_script w tls sock request) 0 [] in
              parse_http_response response
      | _, _ => Raise TypeError
      end.

(** ** HTML parser: attributes *)

Fixpoint take_while (p : Z -> bool) (s : str) : str :=
  match s with
  | c :: s' => if p c then c :: take_while p s' else []
  | [] => []
  end.

Fixpoint drop_while (p : Z -> bool) (s : str) : str :=
  match s with
  | c :: s' => if p c then drop_while p s' else s
  | [] => []
  end.

(** [c in ' \t\n'] *)
Definition attr_space (c : Z) : bool := ((c =? 32) || (c =? 9) || (c =? 10))%Z.
(** [c in '= \t\n'] and [c in ' \t\n='] *)
Definition attr_name_end (c : Z) : bool := (c =? 61)%Z || attr_space c.
(** [c in ' \t\n>'] *)
Definition attr_value_end (c : Z) : bool := attr_space c || (c =? 62)%Z.
(** [c] is one of the two quote characters. *)
Definition is_quote (c : Z) : bool := ((c =? 34) || (c =? 39))%Z.

(** One turn of the outer loop of [parse_attrs] from the first character
    of a name: the name, the value and the unread rest [attr_str[i:]]. *)
Definition parse_attr (s1 : str) : str * str * str :=
  let name := lower (take_while (fun c => negb (attr_name_end c)) s1) in
  let s2 := drop_while (fun c => negb (attr_name_end c)) s1 in
  let s3 := drop_while attr_name_end s2 in
  match s3 with
  | quote :: s3' =>
      if is_quote quote
      then (name, take_while (fun c => negb (c =? quote)%Z) s3',
            skipn 1 (drop_while (fun c => negb (c =? quote)%Z) s3'))
      else (name, take_while (fun c => negb (attr_value_end c)) s3,
            drop_while (fun c => negb (attr_value_end c)) s3)
  | [] => (name, [], [])
  end.

(** The outer [while i < len(attr_str)] loop of [parse_attrs]; [s] is the
    unread suffix [attr_str[i:]]. *)
Fixpoint parse_attrs_loop (fuel : nat) (s : str) (attrs : gmap (list Z) (list Z))
    : result (gmap (list Z) (list Z)) :=
  match fuel with
  | O => OutOfFuel
  | S fuel' =>
      match drop_while attr_space s with
      | [] => Ok attrs
      | s1 =>
          let '(name, value, s4) := parse_attr s1 in
          let attrs' := if truthy name then <[name := value]> attrs else attrs in
          parse_attrs_loop fuel' s4 attrs'
      end
  end.

Definition parse_attrs (attr_str : str) : result (gmap (list Z) (list Z)) :=
  parse_attrs_loop (S (length attr_str)) attr_str ∅.

(** ** HTML parser: the tree *)

(** An [Element] object on the heap; [n_children] holds references. *)
Record Node := {
  n_tag : list Z;
  n_attrs : gmap (list Z) (list Z);
  n_children : list nat;
  n_text : list Z
}.

(** [Element.__init__] *)
Definition new_Element (tag : str) (attrs : gmap (list Z) (list Z)) : Node :=
  {| n_tag := if truthy tag then lower tag else [];
     n_attrs := attrs;
     n_children := [];
     n_text := [] |}.

(** The parser's state: the [Element] objects allocated so far (a reference
    is an index) and the stack of open elements, top first. *)
Record PState := {
  heap : list Node;
  stack : list nat
}.

Definition root_id : nat := 0.

Definition parse_init : PState :=
  {| heap := [new_Element (lit "root") ∅]; stack := [root_id] |}.

Definition tag_of (h : list Node) (id : nat) : str :=
  match h !! id with
  | Some n => n_tag n
  | None => []
  end.

(** [stack[-1]] *)
Definition top (st : PState) : result nat :=
  match stack st with
  | t :: _ => Ok t
  | [] => Raise IndexError
  end.

(** [while len(stack) > 1 and stack[-1].tag != tag_name: stack.pop()] *)
Fixpoint pop_to_match (h : list Node) (tag_name : str) (stk : list nat)
    : list nat :=
  match stk with
  | t :: (_ :: _) as stk' =>
      if negb (str_eqb (tag_of h t) tag_name)
      then pop_to_match h tag_name stk'
      else stk
  | _ => stk
  end.

(** [if len(stack) > 1: stack.pop()] *)
Definition pop_if_open (stk : list nat) : list nat :=
  match stk with
  | _ :: (_ :: _) as stk' => stk'
  | _ => stk
  end.

(** What [parse_html] does with a closing tag named [tag_name]. *)
Definition close_tag (tag_name : str) (st : PState) : PState :=
  {| heap := heap st;
     stack := pop_if_open (pop_to_match (heap st) tag_name (stack st)) |}.

Definition add_child (id : nat) (n : Node) : Node :=
  {| n_tag := n_tag n; n_attrs := n_attrs n;
     n_children := n_children n ++ [id]; n_text := n_text n |}.

Definition add_text (text : str) (n : Node) : Node :=
  {| n_tag := n_tag n; n_attrs := n_attrs n; n_children := n_children n;
     n_text := (if truthy (n_text n) then n_text n ++ lit " " else n_text n)
               ++ text |}.

Definition void_tags : list str :=
  [lit "br"; lit "hr"; lit "img"; lit "input"; lit "meta"; lit "link"].

Definition str_in (s : str) (l : list str) : bool := existsb (str_eqb s) l.

(** What [parse_html] does with an opening tag whose stripped content is
    [tag_content]. *)
Definition open_tag (tag_content : str) (st : PState) : result PState :=
  let* named :=
    match find_char 32 tag_content with
    | None => Ok (lower (rstrip_char 47 tag_content), (∅ : gmap (list Z) (list Z)))
    | Some space =>
        let* attrs := parse_attrs (skipn space tag_content) in
        Ok (lower (firstn space tag_content), attrs)
    end in
  let '(tag_name, attrs) := named in
  let elem := new_Element tag_name attrs in
  let* t := top st in
  let id := length (heap st) in
  let h := alter (add_child id) t (heap st) ++ [elem] in
  if negb (str_in tag_name void_tags) && negb (endswith tag_content (lit "/"))
  then Ok {| heap := h; stack := id :: stack st |}
  else Ok {| heap := h; stack := stack st |}.

(** What [parse_html] does with the text run [text]. *)
Definition text_run (text : str) (st : PState) : result PState :=
  if truthy (strip text)
  then let* text := decode_entities text in
       let text := join (lit " ") (split_ws text) in
       let* t := top st in
       Ok {| heap := alter (add_text text) t (heap st); stack := stack st |}
  else Ok st.

(** The [while i < len(html)] loop of [parse_html]; [html] is the unread
    suffix [html[i:]]. *)
Fixpoint parse_loop (fuel : nat) (html : str) (st : PState) : result PState :=
  match fuel with
  | O => OutOfFuel
  | S fuel' =>
      match html with
      | [] => Ok st
      | c :: _ =>
          if (c =? 60)%Z
          then match find_char 62 html with
               | None => Ok st
               | Some e =>
                   let tag_content := strip (slice html 1 e) in
                   let rest := skipn (e + 1) html in
                   if startswith tag_content (lit "!")
                   then parse_loop fuel' rest st
                   else if startswith tag_content (lit "/")
                   then let tag_name := lower (strip (skipn 1 tag_content)) in
                        parse_loop fuel' rest (close_tag tag_name st)
                   else let* st' := open_tag tag_content st in
                        parse_loop fuel' rest st'
               end
          else
            let next_tag := match find_char 60 html with
                            | None => length html
                            | Some k => k
                            end in
            let* st' := text_run (firstn next_tag html) st in
            parse_loop fuel' (skipn next_tag html) st'
      end
  end.

(** The document tree, as the layout engine walks it. *)
#[warnings="-register-all"]
Inductive Element := mkElement {
  tag : list Z;
  attrs : gmap (list Z) (list Z);
  children : list Element;
  text : list Z
}.

Definition empty_Element : Element := mkElement [] ∅ [] [].

(** The tree that hangs below the object [id] of the heap [h]. *)
Fixpoint reify (fuel : nat) (h : list Node) (id : nat) : Element :=
  match fuel with
  | O => empty_Element
  | S fuel' =>
      match h !! id with
      | Some n =>
          mkElement (n_tag n) (n_attrs n)
                    (map (reify fuel' h) (n_children n)) (n_text n)
      | None => empty_Element
      end
  end.

Definition parse_html (html : str) : result Element :=
  let* st := parse_loop (S (length html)) html parse_init in
  Ok (reify (length (heap st)) (heap st) root_id).

(** ** Layout engine *)

Record TextBlock := {
  b_x : Z;
  b_y : Z;
  b_text : list Z;
  b_font_size : Z;
  b_style : Z;
  b_fg : Z;
  b_href : option (list Z);
  b_w : Z;
  b_h : Z
}.

(** A link region [(x, y, w, h, href)]. *)
Record Link := {
  l_x : Z;
  l_y : Z;
  l_w : Z;
  l_h : Z;
  l_href : list Z
}.

(** The two lists the layout functions append to. *)
Record Layout := {
  out_blocks : list TextBlock;
  out_links : list Link
}.

Definition set_size (b : TextBlock) (w h : Z) : TextBlock :=
  {| b_x := b_x b; b_y := b_y b; b_text := b_text b;
     b_font_size := b_font_size b; b_style := b_style b; b_fg := b_fg b;
     b_href := b_href b; b_w := w; b_h := h |}.

Definition set_h (h : Z) (b : TextBlock) : TextBlock := set_size b (b_w b) h.

(** [TextBlock(x, y, text, font_size, style, fg, href)] *)
Definition new_TextBlock (x y : Z) (text : str) (font_size style fg : Z)
    (href : option str) : TextBlock :=
  {| b_x := x; b_y := y; b_text := text; b_font_size := font_size;
     b_style := style; b_fg := fg; b_href := href; b_w := 0; b_h := 0 |}.

(** [bool(href)] for [href] a string or [None]. *)
Definition href_truthy (href : option str) : bool :=
  match href with
  | Some h => truthy h
  | None => false
  end.

Definition href_str (href : option str) : str :=
  match href with
  | Some h => h
  | None => []
  end.

Definition add_block (b : TextBlock) (lay : Layout) : Layout :=
  {| out_blocks := out_blocks lay ++ [b]; out_links := out_links lay |}.

Definition add_link (l : Link) (lay : Layout) : Layout :=
  {| out_blocks := out_blocks lay; out_links := out_links lay ++ [l] |}.

Fixpoint assoc (k : str) (l : list (str * Z)) : option Z :=
  match l with
  | [] => None
  | (k', v) :: l' => if str_eqb k k' then Some v else assoc k l'
  end.

Section Layout.

Variable w : World.

(** The module-level [CONTENT_W], which [layout_document] sets before any
    layout function runs. *)
Variable CONTENT_W : Z.

Fixpoint measure_loop (font_size : Z) (text : str) (width prev_cp : Z) : Z :=
  match text with
  | [] => width
  | cp :: rest =>
      let width := (width + ttf_get_advance w cp font_size)%Z in
      let width := if negb (prev_cp =? 0)%Z
                   then (width + ttf_get_kerning w prev_cp cp font_size)%Z
                   else width in
      measure_loop font_size rest width cp
  end.

Definition measure_text (text : str) (font_size : Z) : Z :=
  measure_loop font_size text 0 0.

Definition line_height_of (font_size : Z) : Z :=
  let '(ascent, descent, line_gap) := ttf_get_metrics w font_size in
  (ascent - descent + line_gap)%Z.

Fixpoint find_element (root : Element) (tag_ : str) : option Element :=
  if str_eqb (tag root) tag_ then Some root
  else (fix scan (cs : list Element) : option Element :=
          match cs with
          | [] => None
          | child :: cs' =>
              match find_element child tag_ with
              | Some found => Some found
              | None => scan cs'
              end
          end) (children root).

Fixpoint get_all_text (elem : Element) : str :=
  text elem ++ List.concat (map get_all_text (children elem)).

(** *** Word-wrapped text *)

(** The [TextBlock] (and link region) of one finished line. *)
Definition emit_line (line_words : list str) (x y font_size style fg : Z)
    (href : option str) (lay : Layout) : Layout :=
  let line_text := join (lit " ") line_words in
  let block := set_size (new_TextBlock x y line_text font_size style fg href)
                        (measure_text line_text font_size)
                        (line_height_of font_size) in
  let lay := add_block block lay in
  if href_truthy href
  then add_link {| l_x := x; l_y := y; l_w := b_w block;
                   l_h := line_height_of font_size; l_href := href_str href |}
                lay
  else lay.

Record TextState := {
  t_lay : Layout;
  t_y : Z;
  t_x : Z;
  t_line_words : list (list Z)
}.

(** The [for word in words] loop of [layout_text]. *)
Fixpoint layout_text_loop (words : list str) (indent font_size style fg : Z)
    (href : option str) (st : TextState) : TextState :=
  match words with
  | [] => st
  | word :: words' =>
      let max_x := (MARGIN + CONTENT_W)%Z in
      let word_w := measure_text word font_size in
      let test_w :=
        match t_line_words st with
        | [] => word_w
        | _ => measure_text (join (lit " ") (t_line_words st ++ [word]))
                            font_size
        end in
      let st' :=
        if (t_x st + test_w >? max_x)%Z
           && match t_line_words st with [] => false | _ => true end
        then {| t_lay := emit_line (t_line_words st) (t_x st) (t_y st)
                                   font_size style fg href (t_lay st);
                t_y := (t_y st + line_height_of font_size)%Z;
                t_x := (MARGIN + indent)%Z;
                t_line_words := [word] |}
        else {| t_lay := t_lay st; t_y := t_y st; t_x := t_x st;
                t_line_words := t_line_words st ++ [word] |} in
      layout_text_loop words' indent font_size style fg href st'
  end.

Definition layout_text (text_ : str) (lay : Layout)
    (y indent font_size style fg : Z) (href : option str) : Layout * Z :=
  if negb (truthy text_) then (lay, y)
  else
    let words := split_ws text_ in
    let st := layout_text_loop words indent font_size style fg href
                {| t_lay := lay; t_y := y; t_x := (MARGIN + indent)%Z;
                   t_line_words := [] |} in
    match t_line_words st with
    | [] => (t_lay st, t_y st)
    | _ => (emit_line (t_line_words st) (t_x st) (t_y st)
                      font_size style fg href (t_lay st),
            (t_y st + line_height_of font_size)%Z)
    end.

(** *** Inline flow *)

Record InlineState := {
  i_lay : Layout;
  i_x : Z;
  i_y : Z
}.

(** The closure [emit_word] of [layout_inline]; [i_x] and [i_y] are its
    [nonlocal] variables. *)
Definition emit_word (indent font_size : Z) (word : str) (cur_style : Z)
    (cur_href : option str) (cur_fg : Z) (st : InlineState) : InlineState :=
  if negb (truthy word) then st
  else
    let max_x := (MARGIN + CONTENT_W)%Z in
    let line_height := line_height_of font_size in
    let word_w := measure_text word font_size in
    let wrap := (i_x st + word_w >? max_x)%Z && (i_x st >? MARGIN + indent)%Z in
    let x := if wrap then (MARGIN + indent)%Z else i_x st in
    let y := if wrap then (i_y st + line_height)%Z else i_y st in
    let block := set_size (new_TextBlock x y word font_size cur_style cur_fg
                                         cur_href)
                          word_w line_height in
    let lay := add_block block (i_lay st) in
    let lay := if href_truthy cur_href
               then add_link {| l_x := x; l_y := y; l_w := word_w;
                                l_h := line_height;
                                l_href := href_str cur_href |} lay
               else lay in
    {| i_lay := lay;
       i_x := (x + (word_w + measure_text (lit " ") font_size))%Z;
       i_y := y |}.

Fixpoint emit_words (indent font_size : Z) (words : list str) (cur_style : Z)
    (cur_href : option str) (cur_fg : Z) (st : InlineState) : InlineState :=
  match words with
  | [] => st
  | word :: words' =>
      emit_words indent font_size words' cur_style cur_href cur_fg
                 (emit_word indent font_size word cur_style cur_href cur_fg st)
  end.

Definition is_bold_tag (t : str) : bool :=
  str_eqb t (lit "b") || str_eqb t (lit "strong").
Definition is_italic_tag (t : str) : bool :=
  str_eqb t (lit "i") || str_eqb t (lit "em").

Definition tag_style (t : str) (style : Z) : Z :=
  if is_bold_tag t then Z.lor style (TTF_BOLD w)
  else if is_italic_tag t then Z.lor style (TTF_ITALIC w)
  else style.

(** [el.attrs.get('href', '')] *)
Definition get_href (el : Element) : str :=
  match attrs el !! lit "href" with
  | Some v => v
  | None => []
  end.

(** The closure [process] of [layout_inline]. *)
Fixpoint process (indent font_size : Z) (el : Element) (cur_style : Z)
    (cur_href : option str) (st : InlineState) : InlineState :=
  let s := tag_style (tag el) cur_style in
  let is_a := str_eqb (tag el) (lit "a") in
  let h := if is_a then Some (get_href el) else cur_href in
  let fg := if is_a then LINK_COLOR
            else if href_truthy cur_href then LINK_COLOR else BLACK in
  let st := if truthy (text el)
            then emit_words indent font_size (split_ws (text el)) s h fg st
            else st in
  (fix each (cs : list Element) (st : InlineState) : InlineState :=
     match cs with
     | [] => st
     | child :: cs' => each cs' (process indent font_size child s h st)
     end) (children el) st.

Definition layout_inline (elem : Element) (lay : Layout)
    (y indent font_size style : Z) (href : option str) : Layout * Z :=
  let st := process indent font_size elem style href
              {| i_lay := lay; i_x := (MARGIN + indent)%Z; i_y := y |} in
  (i_lay st, (i_y st + line_height_of font_size)%Z).

(** *** Tables *)

(** [cells] of one row: [(cell.tag, get_all_text(cell))] for its [td] and
    [th] children. *)
Definition row_cells (row : Element) : list (str * str) :=
  map (fun cell => (tag cell, get_all_text cell))
      (filter (fun cell => str_eqb (tag cell) (lit "td")
                           || str_eqb (tag cell) (lit "th"))
              (children row)).

Definition is_tr (e : Element) : bool := str_eqb (tag e) (lit "tr").

Definition nonempty {A} (l : list A) : bool :=
  match l with [] => false | _ => true end.

(** The rows of a table, in document order; rows without cells are
    dropped. *)
Definition table_rows (table_elem : Element) : list (list (str * str)) :=
  flat_map
    (fun child =>
       if str_eqb (tag child) (lit "thead") || str_eqb (tag child) (lit "tbody")
       then filter nonempty (map row_cells (filter is_tr (children child)))
       else if is_tr child
       then filter nonempty [row_cells child]
       else [])
    (children table_elem).

Fixpoint layout_cells (row : list (str * str)) (lay : Layout)
    (cell_x y col_width row_height font_size style : Z) : Layout :=
  match row with
  | [] => lay
  | (cell_type, text_) :: row' =>
      let cell_style := if str_eqb cell_type (lit "th")
                        then Z.lor style (TTF_BOLD w) else style in
      let lay := add_block (set_size (new_TextBlock cell_x y (lit "__CELL__")
                                                    0 0 BLACK None)
                                     col_width row_height) lay in
      let max_chars := (col_width / 8)%Z in
      let display_text := if (Z.of_nat (length text_) >? max_chars)%Z
                          then slice_to text_ max_chars else text_ in
      let lay := add_block (set_size (new_TextBlock (cell_x + 4) (y + 4)
                                        display_text font_size cell_style
                                        BLACK None)
                                     (col_width - 8) (row_height - 8)) lay in
      layout_cells row' lay (cell_x + col_width) y col_width row_height
                   font_size style
  end.

Fixpoint layout_rows (rows : list (list (str * str))) (lay : Layout)
    (y indent col_width row_height font_size style : Z) : Layout * Z :=
  match rows with
  | [] => (lay, y)
  | row :: rows' =>
      let lay := layout_cells row lay (MARGIN + indent) y col_width row_height
                              font_size style in
      layout_rows rows' lay (y + row_height) indent col_width row_height
                  font_size style
  end.

Definition layout_table (table_elem : Element) (lay : Layout)
    (y indent font_size style : Z) : Layout * Z :=
  let rows := table_rows table_elem in
  match rows with
  | [] => (lay, y)
  | _ =>
      let num_cols := fold_right Z.max 0%Z
                        (map (fun row => Z.of_nat (length row)) rows) in
      let col_width := ((CONTENT_W - indent - MARGIN) / num_cols)%Z in
      let row_height := (line_height_of font_size + 8)%Z in
      let '(lay, y) := layout_rows rows lay (y + 4) indent col_width row_height
                                   font_size style in
      (lay, (y + 4)%Z)
  end.

(** *** Elements *)

Definition is_heading (t : str) : bool :=
  str_in t [lit "h1"; lit "h2"; lit "h3"; lit "h4"; lit "h5"; lit "h6"].

(** The [for line in text.split('\n')] loop of the [pre] / [code] case. *)
Fixpoint layout_pre_lines (lines : list str) (lay : Layout) (y indent : Z)
    : Layout * Z :=
  match lines with
  | [] => (lay, y)
  | line :: lines' =>
      let '(lay, y) := if truthy line
                       then layout_text line lay y indent 14 0 BLACK None
                       else (lay, y) in
      layout_pre_lines lines' lay y indent
  end.

Fixpoint layout_element (elem : Element) (lay : Layout)
    (y indent font_size style : Z) (href : option str) {struct elem}
    : Layout * Z :=
  let t := tag elem in
  let font_size := match assoc t FONT_SIZES with
                   | Some v => v
                   | None => font_size
                   end in
  let style := tag_style t style in
  let href := if str_eqb t (lit "a") then Some (get_href elem) else href in
  let line_height := line_height_of font_size in
  if is_heading t then
    let y := (y + line_height / 2)%Z in
    let '(lay, y) := layout_text (get_all_text elem) lay y indent font_size
                                 (Z.lor style (TTF_BOLD w)) BLACK href in
    (lay, (y + line_height / 4)%Z)
  else if str_eqb t (lit "p") then
    let y := (y + line_height / 4)%Z in
    let '(lay, y) := layout_inline elem lay y indent font_size style href in
    (lay, (y + line_height / 4)%Z)
  else if str_eqb t (lit "br") then (lay, (y + line_height)%Z)
  else if str_eqb t (lit "hr") then
    let y := (y + 4)%Z in
    let lay := add_block (set_size (new_TextBlock (MARGIN + indent) y
                                      (lit "__HR__") 0 0 GRAY None)
                                   (CONTENT_W - indent) 1) lay in
    (lay, (y + 8)%Z)
  else if str_eqb t (lit "ul") || str_eqb t (lit "ol") then
    let '(lay, y) :=
      (fix items (cs : list Element) (lay : Layout) (y list_num : Z)
           : Layout * Z :=
         match cs with
         | [] => (lay, y)
         | child :: cs' =>
             if str_eqb (tag child) (lit "li") then
               let bullet := if str_eqb t (lit "ul") then lit "* "
                             else str_of_int list_num ++ lit "." in
               let line_height := line_height_of font_size in
               let block := set_size (new_TextBlock (MARGIN + indent + 20) y
                                        bullet font_size style BLACK None)
                                     (measure_text bullet font_size)
                                     line_height in
               let lay := add_block block lay in
               let '(lay, y) :=
                 (fix li_children (gs : list Element) (lay : Layout) (y : Z)
                      : Layout * Z :=
                    match gs with
                    | [] => (lay, y)
                    | li_child :: gs' =>
                        let '(lay, y) :=
                          layout_element li_child lay y (indent + 40)
                                         font_size style None in
                        li_children gs' lay y
                    end) (children child) lay y in
               let '(lay, y) :=
                 if truthy (text child)
                 then layout_text (text child) lay y (indent + 40) font_size
                                  style BLACK None
                 else (lay, y) in
               let y := if (y =? b_y block)%Z then (y + line_height)%Z else y in
               items cs' lay y (list_num + 1)%Z
             else items cs' lay y list_num
         end) (children elem) lay (y + 4)%Z 1%Z in
    (lay, (y + 4)%Z)
  else if str_eqb t (lit "blockquote") then
    let y := (y + 8)%Z in
    let lay := add_block (set_size (new_TextBlock (MARGIN + indent) y
                                      (lit "__BQ_START__") 0 0 GRAY None)
                                   (CONTENT_W - indent) 0) lay in
    let start_idx := (length (out_blocks lay) - 1)%nat in
    let '(lay, y) := layout_text (get_all_text elem) lay y (indent + 20)
                                 font_size (Z.lor style (TTF_ITALIC w))
                                 BLACK href in
    let start_y := match out_blocks lay !! start_idx with
                   | Some b => b_y b
                   | None => 0%Z
                   end in
    let lay := {| out_blocks := alter (set_h (y - start_y + 8)) start_idx
                                  (out_blocks lay);
                  out_links := out_links lay |} in
    (lay, (y + 8)%Z)
  else if str_eqb t (lit "pre") || str_eqb t (lit "code") then
    let '(lay, y) := layout_pre_lines (split nl (get_all_text elem)) lay
                                      (y + 4) indent in
    (lay, (y + 4)%Z)
  else if str_eqb t (lit "table") then
    layout_table elem lay y indent font_size style
  else
    let '(lay, y) :=
      if truthy (text elem)
      then layout_text (text elem) lay y indent font_size style
                       (if href_truthy href then LINK_COLOR else BLACK) href
      else (lay, y) in
    (fix each (cs : list Element) (lay : Layout) (y : Z) : Layout * Z :=
       match cs with
       | [] => (lay, y)
       | child :: cs' =>
           let '(lay, y) := layout_element child lay y indent font_size style
                                           href in
           each cs' lay y
       end) (children elem) lay y.

End Layout.

(** The [for block in blocks] loop of [layout_document]. *)
Fixpoint max_bottom_of (bs : list TextBlock) (max_bottom : Z) : Z :=
  match bs with
  | [] => max_bottom
  | block :: bs' =>
      let block_bottom := (b_y block + b_h block)%Z in
      max_bottom_of bs' (if (block_bottom >? max_bottom)%Z then block_bottom
                         else max_bottom)
  end.

(** [Browser.layout_document], for [self.content_w = content_w]. *)
Definition layout_document (w : World) (content_w : Z) (root : Element)
    : list TextBlock * list Link * Z :=
  let CONTENT_W := content_w in
  let y := MARGIN in
  let body := match find_element root (lit "body") with
              | Some b => b
              | None => root
              end in
  let '(lay, y) := layout_element w CONTENT_W body
                     {| out_blocks := []; out_links := [] |} y 0 16 0 None in
  let max_bottom := max_bottom_of (out_blocks lay) y in
  let content_height := (max_bottom + MARGIN)%Z in
  (out_blocks lay, out_links lay, (content_height * 2)%Z).

(** ** The [Browser] class *)

(** The attributes of a [Browser] object.  [history] and
    [forward_history] are stacks: their heads are the entries that [pop()]
    returns. *)
Record Browser := {
  wid : Z;
  url : list Z;
  history : list (list Z);
  forward_history : list (list Z);
  blocks : list TextBlock;
  links : list Link;
  scroll_y : Z;
  max_scroll : Z;
  content_height : Z;
  address_text : list Z;
  editing_url : bool;
  cursor_pos : Z;
  kiosk_mode : bool;
  win_w : Z;
  win_h : Z;
  content_y : Z;
  content_h : Z;
  content_w : Z;
  scrollbar_dragging : bool;
  scrollbar_drag_start_y : Z;
  scrollbar_drag_start_scroll : Z;
  current_html : list Z
}.

(** Assignments to single attributes. *)
Definition set_wid (v : Z) (b : Browser) : Browser :=
  {| wid := v; url := url b; history := history b;
     forward_history := forward_history b; blocks := blocks b;
     links := links b; scroll_y := scroll_y b; max_scroll := max_scroll b;
     content_height := content_height b; address_text := address_text b;
     editing_url := editing_url b; cursor_pos := cursor_pos b;
     kiosk_mode := kiosk_mode b; win_w := win_w b; win_h := win_h b;
     content_y := content_y b; content_h := content_h b;
     content_w := content_w b; scrollbar_dragging := scrollbar_dragging b;
     scrollbar_drag_start_y := scrollbar_drag_start_y b;
     scrollbar_drag_start_scroll := scrollbar_drag_start_scroll b;
     current_html := current_html b |}.
Definition set_url (v : list Z) (b : Browser) : Browser :=
  {| wid := wid b; url := v; history := history b;
     forward_history := forward_history b; blocks := blocks b;
     links := links b; scroll_y := scroll_y b; max_scroll := max_scroll b;
     content_height := content_height b; address_text := address_text b;
     editing_url := editing_url b; cursor_pos := cursor_pos b;
     kiosk_mode := kiosk_mode b; win_w := win_w b; win_h := win_h b;
     content_y := content_y b; content_h := content_h b;
     content_w := content_w b; scrollbar_dragging := scrollbar_dragging b;
     scrollbar_drag_start_y := scrollbar_drag_start_y b;
     scrollbar_drag_start_scroll := scrollbar_drag_start_scroll b;
     current_html := current_html b |}.
Definition set_history (v : list (list Z)) (b : Browser) : Browser :=
  {| wid := wid b; url := url b; history := v;
     forward_history := forward_history b; blocks := blocks b;
     links := links b; scroll_y := scroll_y b; max_scroll := max_scroll b;
     content_height := content_height b; address_text := address_text b;
     editing_url := editing_url b; cursor_pos := cursor_pos b;
     kiosk_mode := kiosk_mode b; win_w := win_w b; win_h := win_h b;
     content_y := content_y b; content_h := content_h b;
     content_w := content_w b; scrollbar_dragging := scrollbar_dragging b;
     scrollbar_drag_start_y := scrollbar_drag_start_y b;
     scrollbar_drag_start_scroll := scrollbar_drag_start_scroll b;
     current_html := current_html b |}.
Definition set_forward_history (v : list (list Z)) (b : Browser) : Browser :=
  {| wid := wid b; url := url b; history := history b; forward_history := v;
     blocks := blocks b; links := links b; scroll_y := scroll_y b;
     max_scroll := max_scroll b; content_height := content_height b;
     address_text := address_text b; editing_url := editing_url b;
     cursor_pos := cursor_pos b; kiosk_mode := kiosk_mode b;
     win_w := win_w b; win_h := win_h b; content_y := content_y b;
     content_h := content_h b; content_w := content_w b;
     scrollbar_dragging := scrollbar_dragging b;
     scrollbar_drag_start_y := scrollbar_drag_start_y b;
     scrollbar_drag_start_scroll := scrollbar_drag_start_scroll b;
     current_html := current_html b |}.
Definition set_scroll_y (v : Z) (b : Browser) : Browser :=
  {| wid := wid b; url := url b; history := history b;
     forward_history := forward_history b; blocks := blocks b;
     links := links b; scroll_y := v; max_scroll := max_scroll b;
     content_height := content_height b; address_text := address_text b;
     editing_url := editing_url b; cursor_pos := cursor_pos b;
     kiosk_mode := kiosk_mode b; win_w := win_w b; win_h := win_h b;
     content_y := content_y b; content_h := content_h b;
     content_w := content_w b; scrollbar_dragging := scrollbar_dragging b;
     scrollbar_drag_start_y := scrollbar_drag_start_y b;
     scrollbar_drag_start_scroll := scrollbar_drag_start_scroll b;
     current_html := current_html b |}.
Definition set_max_scroll (v : Z) (b : Browser) : Browser :=
  {| wid := wid b; url := url b; history := history b;
     forward_history := forward_history b; blocks := blocks b;
     links := links b; scroll_y := scroll_y b; max_scroll := v;
     content_height := content_height b; address_text := address_text b;
     editing_url := editing_url b; cursor_pos := cursor_pos b;
     kiosk_mode := kiosk_mode b; win_w := win_w b; win_h := win_h b;
     content_y := content_y b; content_h := content_h b;
     content_w := content_w b; scrollbar_dragging := scrollbar_dragging b;
     scrollbar_drag_start_y := scrollbar_drag_start_y b;
     scrollbar_drag_start_scroll := scrollbar_drag_start_scroll b;
     current_html := current_html b |}.
Definition set_address_text (v : list Z) (b : Browser) : Browser :=
  {| wid := wid b; url := url b; history := history b;
     forward_history := forward_history b; blocks := blocks b;
     links := links b; scroll_y := scroll_y b; max_scroll := max_scroll b;
     content_height := content_height b; address_text := v;
     editing_url := editing_url b; cursor_pos := cursor_pos b;
     kiosk_mode := kiosk_mode b; win_w := win_w b; win_h := win_h b;
     content_y := content_y b; content_h := content_h b;
     content_w := content_w b; scrollbar_dragging := scrollbar_dragging b;
     scrollbar_drag_start_y := scrollbar_drag_start_y b;
     scrollbar_drag_start_scroll := scrollbar_drag_start_scroll b;
     current_html := current_html b |}.
Definition set_editing_url (v : bool) (b : Browser) : Browser :=
  {| wid := wid b; url := url b; history := history b;
     forward_history := forward_history b; blocks := blocks b;
     links := links b; scroll_y := scroll_y b; max_scroll := max_scroll b;
     content_height := content_height b; address_text := address_text b;
     editing_url := v; cursor_pos := cursor_pos b;
     kiosk_mode := kiosk_mode b; win_w := win_w b; win_h := win_h b;
     content_y := content_y b; content_h := content_h b;
     content_w := content_w b; scrollbar_dragging := scrollbar_dragging b;
     scrollbar_drag_start_y := scrollbar_drag_start_y b;
     scrollbar_drag_start_scroll := scrollbar_drag_start_scroll b;
     current_html := current_html b |}.
Definition set_cursor_pos (v : Z) (b : Browser) : Browser :=
  {| wid := wid b; url := url b; history := history b;
     forward_history := forward_history b; blocks := blocks b;
     links := links b; scroll_y := scroll_y b; max_scroll := max_scroll b;
     content_height := content_height b; address_text := address_text b;
     editing_url := editing_url b; cursor_pos := v;
     kiosk_mode := kiosk_mode b; win_w := win_w b; win_h := win_h b;
     content_y := content_y b; content_h := content_h b;
     content_w := content_w b; scrollbar_dragging := scrollbar_dragging b;
     scrollbar_drag_start_y := scrollbar_drag_start_y b;
     scrollbar_drag_start_scroll := scrollbar_drag_start_scroll b;
     current_html := current_html b |}.
Definition set_win_w (v : Z) (b : Browser) : Browser :=
  {| wid := wid b; url := url b; history := history b;
     forward_history := forward_history b; blocks := blocks b;
     links := links b; scroll_y := scroll_y b; max_scroll := max_scroll b;
     content_height := content_height b; address_text := address_text b;
     editing_url := editing_url b; cursor_pos := cursor_pos b;
     kiosk_mode := kiosk_mode b; win_w := v; win_h := win_h b;
     content_y := content_y b; content_h := content_h b;
     content_w := content_w b; scrollbar_dragging := scrollbar_dragging b;
     scrollbar_drag_start_y := scrollbar_drag_start_y b;
     scrollbar_drag_start_scroll := scrollbar_drag_start_scroll b;
     current_html := current_html b |}.
Definition set_win_h (v : Z) (b : Browser) : Browser :=
  {| wid := wid b; url := url b; history := history b;
     forward_history := forward_history b; blocks := blocks b;
     links := links b; scroll_y := scroll_y b; max_scroll := max_scroll b;
     content_height := content_height b; address_text := address_text b;
     editing_url := editing_url b; cursor_pos := cursor_pos b;
     kiosk_mode := kiosk_mode b; win_w := win_w b; win_h := v;
     content_y := content_y b; content_h := content_h b;
     content_w := content_w b; scrollbar_dragging := scrollbar_dragging b;
     scrollbar_drag_start_y := scrollbar_drag_start_y b;
     scrollbar_drag_start_scroll := scrollbar_drag_start_scroll b;
     current_html := current_html b |}.
Definition set_content_h (v : Z) (b : Browser) : Browser :=
  {| wid := wid b; url := url b; history := history b;
     forward_history := forward_history b; blocks := blocks b;
     links := links b; scroll_y := scroll_y b; max_scroll := max_scroll b;
     content_height := content_height b; address_text := address_text b;
     editing_url := editing_url b; cursor_pos := cursor_pos b;
     kiosk_mode := kiosk_mode b; win_w := win_w b; win_h := win_h b;
     content_y := content_y b; content_h := v; content_w := content_w b;
     scrollbar_dragging := scrollbar_dragging b;
     scrollbar_drag_start_y := scrollbar_drag_start_y b;
     scrollbar_drag_start_scroll := scrollbar_drag_start_scroll b;
     current_html := current_html b |}.
Definition set_content_w (v : Z) (b : Browser) : Browser :=
  {| wid := wid b; url := url b; history := history b;
     forward_history := forward_history b; blocks := blocks b;
     links := links b; scroll_y := scroll_y b; max_scroll := max_scroll b;
     content_height := content_height b; address_text := address_text b;
     editing_url := editing_url b; cursor_pos := cursor_pos b;
     kiosk_mode := kiosk_mode b; win_w := win_w b; win_h := win_h b;
     content_y := content_y b; content_h := content_h b; content_w := v;
     scrollbar_dragging := scrollbar_dragging b;
     scrollbar_drag_start_y := scrollbar_drag_start_y b;
     scrollbar_drag_start_scroll := scrollbar_drag_start_scroll b;
     current_html := current_html b |}.
Definition set_scrollbar_dragging (v : bool) (b : Browser) : Browser :=
  {| wid := wid b; url := url b; history := history b;
     forward_history := forward_history b; blocks := blocks b;
     links := links b; scroll_y := scroll_y b; max_scroll := max_scroll b;
     content_height := content_height b; address_text := address_text b;
     editing_url := editing_url b; cursor_pos := cursor_pos b;
     kiosk_mode := kiosk_mode b; win_w := win_w b; win_h := win_h b;
     content_y := content_y b; content_h := content_h b;
     content_w := content_w b; scrollbar_dragging := v;
     scrollbar_drag_start_y := scrollbar_drag_start_y b;
     scrollbar_drag_start_scroll := scrollbar_drag_start_scroll b;
     current_html := current_html b |}.
Definition set_scrollbar_drag_start_y (v : Z) (b : Browser) : Browser :=
  {| wid := wid b; url := url b; history := history b;
     forward_history := forward_history b; blocks := blocks b;
     links := links b; scroll_y := scroll_y b; max_scroll := max_scroll b;
     content_height := content_height b; address_text := address_text b;
     editing_url := editing_url b; cursor_pos := cursor_pos b;
     kiosk_mode := kiosk_mode b; win_w := win_w b; win_h := win_h b;
     content_y := content_y b; content_h := content_h b;
     content_w := content_w b; scrollbar_dragging := scrollbar_dragging b;
     scrollbar_drag_start_y := v;
     scrollbar_drag_start_scroll := scrollbar_drag_start_scroll b;
     current_html := current_html b |}.
Definition set_scrollbar_drag_start_scroll (v : Z) (b : Browser) : Browser :=
  {| wid := wid b; url := url b; history := history b;
     forward_history := forward_history b; blocks := blocks b;
     links := links b; scroll_y := scroll_y b; max_scroll := max_scroll b;
     content_height := content_height b; address_text := address_text b;
     editing_url := editing_url b; cursor_pos := cursor_pos b;
     kiosk_mode := kiosk_mode b; win_w := win_w b; win_h := win_h b;
     content_y := content_y b; content_h := content_h b;
     content_w := content_w b; scrollbar_dragging := scrollbar_dragging b;
     scrollbar_drag_start_y := scrollbar_drag_start_y b;
     scrollbar_drag_start_scroll := v; current_html := current_html b |}.
Definition set_current_html (v : list Z) (b : Browser) : Browser :=
  {| wid := wid b; url := url b; history := history b;
     forward_history := forward_history b; blocks := blocks b;
     links := links b; scroll_y := scroll_y b; max_scroll := max_scroll b;
     content_height := content_height b; address_text := address_text b;
     editing_url := editing_url b; cursor_pos := cursor_pos b;
     kiosk_mode := kiosk_mode b; win_w := win_w b; win_h := win_h b;
     content_y := content_y b; content_h := content_h b;
     content_w := content_w b; scrollbar_dragging := scrollbar_dragging b;
     scrollbar_drag_start_y := scrollbar_drag_start_y b;
     scrollbar_drag_start_scroll := scrollbar_drag_start_scroll b;
     current_html := v |}.
Definition set_blocks (v : list TextBlock) (b : Browser) : Browser :=
  {| wid := wid b; url := url b; history := history b;
     forward_history := forward_history b; blocks := v; links := links b;
     scroll_y := scroll_y b; max_scroll := max_scroll b;
     content_height := content_height b; address_text := address_text b;
     editing_url := editing_url b; cursor_pos := cursor_pos b;
     kiosk_mode := kiosk_mode b; win_w := win_w b; win_h := win_h b;
     content_y := content_y b; content_h := content_h b;
     content_w := content_w b; scrollbar_dragging := scrollbar_dragging b;
     scrollbar_drag_start_y := scrollbar_drag_start_y b;
     scrollbar_drag_start_scroll := scrollbar_drag_start_scroll b;
     current_html := current_html b |}.
Definition set_links (v : list Link) (b : Browser) : Browser :=
  {| wid := wid b; url := url b; history := history b;
     forward_history := forward_history b; blocks := blocks b; links := v;
     scroll_y := scroll_y b; max_scroll := max_scroll b;
     content_height := content_height b; address_text := address_text b;
     editing_url := editing_url b; cursor_pos := cursor_pos b;
     kiosk_mode := kiosk_mode b; win_w := win_w b; win_h := win_h b;
     content_y := content_y b; content_h := content_h b;
     content_w := content_w b; scrollbar_dragging := scrollbar_dragging b;
     scrollbar_drag_start_y := scrollbar_drag_start_y b;
     scrollbar_drag_start_scroll := scrollbar_drag_start_scroll b;
     current_html := current_html b |}.
Definition set_content_height (v : Z) (b : Browser) : Browser :=
  {| wid := wid b; url := url b; history := history b;
     forward_history := forward_history b; blocks := blocks b;
     links := links b; scroll_y := scroll_y b; max_scroll := max_scroll b;
     content_height := v; address_text := address_text b;
     editing_url := editing_url b; cursor_pos := cursor_pos b;
     kiosk_mode := kiosk_mode b; win_w := win_w b; win_h := win_h b;
     content_y := content_y b; content_h := content_h b;
     content_w := content_w b; scrollbar_dragging := scrollbar_dragging b;
     scrollbar_drag_start_y := scrollbar_drag_start_y b;
     scrollbar_drag_start_scroll := scrollbar_drag_start_scroll b;
     current_html := current_html b |}.

(** [Browser.__init__] *)
Definition new_Browser (kiosk : bool) : Browser :=
  let content_y_ := if kiosk then 20%Z else (ADDRESS_BAR_H + 2)%Z in
  {| wid := (-1)%Z; url := []; history := []; forward_history := [];
     blocks := []; links := []; scroll_y := 0; max_scroll := 0;
     content_height := 0; address_text := []; editing_url := false;
     cursor_pos := 0; kiosk_mode := kiosk;
     win_w := WIN_W; win_h := WIN_H;
     content_y := content_y_;
     content_h := if kiosk then (WIN_H - 20)%Z else (WIN_H - content_y_)%Z;
     content_w := (WIN_W - MARGIN * 2 - SCROLLBAR_W)%Z;
     scrollbar_dragging := false; scrollbar_drag_start_y := 0;
     scrollbar_drag_start_scroll := 0; current_html := [] |}.

(** The result of a method call: it returned [a], or an exception left
    it; both ways the object is in the state [b].  [NoFuel]: the fuel
    given to [navigate] was not enough, and never a Python behaviour. *)
Inductive outcome (A : Type) : Type :=
| Ret (a : A) (b : Browser)
| Exc (e : exn) (b : Browser)
| NoFuel.
Arguments Ret {A} a b.
Arguments Exc {A} e b.
Arguments NoFuel {A}.

Definition obind {A B} (o : outcome A) (k : A -> Browser -> outcome B)
    : outcome B :=
  match o with
  | Ret a b => k a b
  | Exc e b => Exc e b
  | NoFuel => NoFuel
  end.

(** The value of a pure computation inside a method of the object [b]. *)
Definition lift {A} (r : result A) (b : Browser) : outcome A :=
  match r with
  | Ok a => Ret a b
  | Raise e => Exc e b
  | OutOfFuel => NoFuel
  end.

(** [s[k:]] for any integer [k]. *)
Definition slice_from (s : str) (k : Z) : str :=
  if (k <? 0)%Z then skipn (Z.to_nat (Z.of_nat (length s) + k)) s
  else skipn (Z.to_nat k) s.

Inductive Event :=
| WIN_EVENT_CLOSE
| WIN_EVENT_MOUSE_DOWN (x y : Z)
| WIN_EVENT_MOUSE_UP (x y : Z)
| WIN_EVENT_MOUSE_MOVE (x y : Z)
| WIN_EVENT_KEY (key : Z)
| WIN_EVENT_RESIZE (new_w new_h : Z)
| WIN_EVENT_OTHER.

Section Controller.

Variable w : World.

Local Open Scope Z_scope.

(** [draw_scrollbar]: the only arithmetic of the drawing code that can
    fail is the division by [content_height]. *)
Definition draw_scrollbar (b : Browser) : outcome unit :=
  if max_scroll b <=? 0 then Ret tt b
  else if content_height b =? 0 then Exc ZeroDivisionError b
  else Ret tt b.

(** [draw]: address bar and blocks are painted, then the scrollbar. *)
Definition draw (b : Browser) : outcome unit := draw_scrollbar b.

(** The history bookkeeping at the head of [navigate]. *)
Definition record_history (from_back from_forward : bool) (b : Browser)
    : Browser :=
  if truthy (url b)
  then if from_forward
       then set_forward_history (url b :: forward_history b) b
       else if negb from_back
       then set_forward_history [] (set_history (url b :: history b) b)
       else b
  else b.

Definition error_page (status : Z) (body : str) : str :=
  (((lit "<html><body><h1>Error " ++ str_of_int status) ++ lit "</h1><p>")
   ++ body) ++ lit "</p></body></html>".

(** What [navigate] does with the document [body] once the fetch
    answered with a status that is not a redirect. *)
Definition show_document (status : Z) (body : str) (b : Browser)
    : outcome unit :=
  let body := if negb (status =? 200) then error_page status body else body in
  let b := set_current_html body b in
  obind (lift (parse_html body) b) (fun root b =>
    let '(blocks_, links_, content_height_) :=
      layout_document w (content_w b) root in
    let b := set_content_height content_height_
               (set_links links_ (set_blocks blocks_ b)) in
    let b := set_max_scroll (Z.max 0 (content_height b - content_h b)) b in
    draw b).

(** [navigate]; [fuel] bounds the redirects that are followed. *)
Fixpoint navigate (fuel : nat) (url_ : str) (from_back from_forward : bool)
    (b : Browser) : outcome unit :=
  match fuel with
  | O => NoFuel
  | S fuel' =>
      obind (lift (resolve_url (url b) url_) b) (fun url_ b =>
        let b := record_history from_back from_forward b in
        let b := set_editing_url false
                   (set_scroll_y 0 (set_address_text url_ (set_url url_ b))) in
        obind (lift (fetch_url w url_) b) (fun fetched b =>
          let '(status, body) := fetched in
          if is_redirect status
          then navigate fuel' body false false b
          else show_document status body b))
  end.

Definition back (fuel : nat) (b : Browser) : outcome unit :=
  match history b with
  | [] => Ret tt b
  | url_ :: rest =>
      let b := set_forward_history (url b :: forward_history b) b in
      let b := set_history rest b in
      let b := set_url [] b in
      navigate fuel url_ true false b
  end.

Definition forward (fuel : nat) (b : Browser) : outcome unit :=
  match forward_history b with
  | [] => Ret tt b
  | url_ :: rest =>
      let b := set_history (url b :: history b) b in
      let b := set_forward_history rest b in
      let b := set_url [] b in
      navigate fuel url_ false true b
  end.

Definition refresh (fuel : nat) (b : Browser) : outcome unit :=
  if truthy (url b)
  then let url_ := url b in
       navigate fuel url_ false false (set_url [] b)
  else Ret tt b.

Definition handle_resize (new_w new_h : Z) (b : Browser) : outcome unit :=
  let b := set_win_h new_h (set_win_w new_w b) in
  let b := set_content_h (if kiosk_mode b then win_h b - 20
                          else win_h b - content_y b) b in
  let b := set_content_w (win_w b - MARGIN * 2 - SCROLLBAR_W) b in
  if truthy (current_html b)
  then obind (lift (parse_html (current_html b)) b) (fun root b =>
         let '(blocks_, links_, content_height_) :=
           layout_document w (content_w b) root in
         let b := set_content_height content_height_
                    (set_links links_ (set_blocks blocks_ b)) in
         let b := set_max_scroll (Z.max 0 (content_height b - content_h b)) b in
         let b := if scroll_y b >? max_scroll b
                  then set_scroll_y (max_scroll b) b else b in
         draw b)
  else Ret tt b.

(** The [for ... in self.links] hit test of [handle_click]. *)
Fixpoint hit_link (ls : list Link) (x content_y_ : Z) : option str :=
  match ls with
  | [] => None
  | l :: ls' =>
      if (l_x l <=? x) && (x <? l_x l + l_w l)
         && (l_y l <=? content_y_) && (content_y_ <? l_y l + l_h l)
      then Some (l_href l)
      else hit_link ls' x content_y_
  end.

Definition in_button (x y x0 y0 : Z) : bool :=
  (x0 <=? x) && (x <? x0 + 16) && (y0 <=? y) && (y <? y0 + 16).

Definition handle_click (fuel : nat) (x y : Z) (b : Browser) : outcome unit :=
  if kiosk_mode b && (y <? 20)
  then if in_button x y 4 2 then back fuel b
       else if in_button x y 24 2 then forward fuel b
       else Ret tt b
  else
    let toolbar := negb (kiosk_mode b) && (y <? ADDRESS_BAR_H) in
    if toolbar && in_button x y 4 4 then back fuel b
    else if toolbar && in_button x y 24 4 then forward fuel b
    else if toolbar && in_button x y 44 4 then refresh fuel b
    else if toolbar && (x >=? 64)
    then Ret tt (set_cursor_pos (Z.of_nat (length (address_text b)))
                                (set_editing_url true b))
    else if (x >=? win_w b - SCROLLBAR_W) && (y >=? content_y b)
    then Ret tt (set_scrollbar_drag_start_scroll (scroll_y b)
                   (set_scrollbar_drag_start_y y
                      (set_scrollbar_dragging true b)))
    else
      match hit_link (links b) x (y - content_y b + scroll_y b) with
      | Some href => navigate fuel href false false b
      | None => Ret tt b
      end.

Definition handle_mouse_up (x y : Z) (b : Browser) : outcome unit :=
  Ret tt (set_scrollbar_dragging false b).

Definition handle_mouse_move (x y : Z) (b : Browser) : outcome unit :=
  if scrollbar_dragging b && (max_scroll b >? 0)
  then
    let dy := y - scrollbar_drag_start_y b in
    let bar_h := content_h b in
    if content_height b =? 0 then Exc ZeroDivisionError b
    else
      let thumb_h := Z.max 20 (bar_h * content_h b / content_height b) in
      let track_range := bar_h - thumb_h in
      if track_range >? 0
      then
        let scroll_delta := (dy * max_scroll b) / track_range in
        let new_scroll := scrollbar_drag_start_scroll b + scroll_delta in
        let new_scroll := Z.max 0 (Z.min (max_scroll b) new_scroll) in
        if negb (new_scroll =? scroll_y b)
        then draw (set_scroll_y new_scroll b)
        else Ret tt b
      else Ret tt b
  else Ret tt b.

(** [handle_key]; the value returned tells the event loop to go on. *)
Definition handle_key (fuel : nat) (key : Z) (b : Browser) : outcome bool :=
  if editing_url b
  then
    if (key =? 13) || (key =? 10)
    then let b := set_editing_url false b in
         obind (navigate fuel (address_text b) false false b)
               (fun _ b => Ret true b)
    else if key =? 27
    then Ret true (set_address_text (url b) (set_editing_url false b))
    else if (key =? 8) || (key =? 127)
    then if cursor_pos b >? 0
         then Ret true
                (set_cursor_pos (cursor_pos b - 1)
                   (set_address_text
                      (slice_to (address_text b) (cursor_pos b - 1)
                       ++ slice_from (address_text b) (cursor_pos b)) b))
         else Ret true b
    else if (key >=? 32) && (key <? 127)
    then Ret true
           (set_cursor_pos (cursor_pos b + 1)
              (set_address_text
                 ((slice_to (address_text b) (cursor_pos b) ++ [key])
                  ++ slice_from (address_text b) (cursor_pos b)) b))
    else Ret true b
  else
    if key =? 27 then Ret false b
    else if key =? 256
    then obind (draw (set_scroll_y (Z.max 0 (scroll_y b - 20)) b))
               (fun _ b => Ret true b)
    else if key =? 257
    then obind (draw (set_scroll_y (Z.min (max_scroll b) (scroll_y b + 20)) b))
               (fun _ b => Ret true b)
    else if key =? 265
    then obind (draw (set_scroll_y (Z.max 0 (scroll_y b - content_h b)) b))
               (fun _ b => Ret true b)
    else if key =? 266
    then obind (draw (set_scroll_y
                        (Z.min (max_scroll b) (scroll_y b + content_h b)) b))
               (fun _ b => Ret true b)
    else Ret true b.

(** One turn of the event loop of [run] on the polled [event]; the value
    is [running]. *)
Definition dispatch (fuel : nat) (event : option Event) (b : Browser)
    : outcome bool :=
  match event with
  | None => Ret true b
  | Some WIN_EVENT_CLOSE => Ret false b
  | Some (WIN_EVENT_MOUSE_DOWN d1 d2) =>
      obind (handle_click fuel d1 d2 b) (fun _ b => Ret true b)
  | Some (WIN_EVENT_MOUSE_UP d1 d2) =>
      obind (handle_mouse_up d1 d2 b) (fun _ b => Ret true b)
  | Some (WIN_EVENT_MOUSE_MOVE d1 d2) =>
      obind (handle_mouse_move d1 d2 b) (fun _ b => Ret true b)
  | Some (WIN_EVENT_KEY d1) => handle_key fuel d1 b
  | Some (WIN_EVENT_RESIZE d1 d2) =>
      obind (handle_resize d1 d2 b) (fun _ b => Ret true b)
  | Some WIN_EVENT_OTHER => Ret true b
  end.

(** The [while running] loop of [run] over the results of the successive
    [window_poll] calls; [Some 0] is the value [run] returns once the loop
    ends, [None] says that the loop is still polling after [polls]. *)
Fixpoint event_loop (fuel : nat) (polls : list (option Event)) (b : Browser)
    : outcome (option Z) :=
  match polls with
  | [] => Ret None b
  | event :: polls' =>
      obind (dispatch fuel event b) (fun running b =>
        if running then event_loop fuel polls' b else Ret (Some 0) b)
  end.

Definition run (fuel : nat) (initial_url : str) (polls : list (option Event))
    (b : Browser) : outcome (option Z) :=
  let b := set_wid (window_create w) b in
  if wid b <? 0 then Ret (Some 1) b
  else obind (navigate fuel initial_url false false b)
             (fun _ b => event_loop fuel polls b).

End Controller.

(** ** Notions used to state the properties *)

(** [c] does not occur in [s]. *)
Definition free_of (c : Z) (s : str) : Prop := Forall (fun x => x <> c) s.

(** A text that is one reference [&body;]. *)
Definition reference (body : str) : str := 38%Z :: body ++ [59%Z].

(** What the entity table, or a decimal or hexadecimal code point, gives
    for the body of a reference; [None] for a body that is not
    recognised. *)
Definition entity_value (entity : str) : option str :=
  let numeric (base : Z) (digits : str) :=
    match int base digits with
    | Ok n => match chr n with Ok c => Some c | _ => None end
    | _ => None
    end in
  if startswith entity (lit "#x") then numeric 16%Z (skipn 2 entity)
  else if startswith entity (lit "#") then numeric 10%Z (skipn 1 entity)
  else HTML_ENTITIES !! entity.

(** The parser's state after it has read [<p><b>]: [b], [p] and the root
    are open. *)
Definition open_p_b : PState :=
  match parse_loop 7 (lit "<p><b>") parse_init with
  | Ok st => st
  | _ => parse_init
  end.

(** A property of the state in which a method call ends, whether it
    returns or is left by an exception. *)
Definition after {A} (o : outcome A) (P : Browser -> Prop) : Prop :=
  match o with
  | Ret _ b => P b
  | Exc _ b => P b
  | NoFuel => True
  end.

(** The state in which [navigate] starts the fetch of [url_]. *)
Definition begin_navigation (url_ : str) (from_back from_forward : bool)
    (b : Browser) : Browser :=
  set_editing_url false
    (set_scroll_y 0
       (set_address_text url_
          (set_url url_ (record_history from_back from_forward b)))).

(** The largest scroll offset that the document and the viewport allow. *)
Definition scroll_bound (b : Browser) : Z :=
  Z.max 0 (content_height b - content_h b).

(** The stored [max_scroll] is the bound of the current document and
    viewport. *)
Definition max_scroll_current (b : Browser) : Prop :=
  max_scroll b = scroll_bound b.

(** The scroll offset lies within the stored bound. *)
Definition scroll_ok (b : Browser) : Prop :=
  (0 <= scroll_y b <= max_scroll b)%Z.

(** The scroll offset lies within the bound of the current document and
    viewport. *)
Definition scroll_in_bound (b : Browser) : Prop :=
  (0 <= scroll_y b <= scroll_bound b)%Z.

(** The controller states that sequences of [navigate], [back] and
    [forward] calls reach from a fresh controller. *)
Inductive reachable (w : World) : Browser -> Prop :=
| reach_new (kiosk : bool) : reachable w (new_Browser kiosk)
| reach_navigate (fuel : nat) (url_ : str) (b b' : Browser) :
    reachable w b -> navigate w fuel url_ false false b = Ret tt b' ->
    reachable w b'
| reach_back (fuel : nat) (b b' : Browser) :
    reachable w b -> back w fuel b = Ret tt b' -> reachable w b'
| reach_forward (fuel : nat) (b b' : Browser) :
    reachable w b -> forward w fuel b = Ret tt b' -> reachable w b'.

(** What the history bookkeeping relies on: the remembered URLs carry a
    scheme, and so does the current URL unless it is empty. *)
Definition urls_absolute (b : Browser) : Prop :=
  Forall (fun u => is_absolute u = true) (history b)
  /\ Forall (fun u => is_absolute u = true) (forward_history b)
  /\ (url b = [] \/ is_absolute (url b) = true)
  /\ (0 <= content_h b)%Z.

(** A platform for concrete runs: every host resolves and every connection
    opens; [/old] answers with a redirect to [/new], [/hop] with a redirect
    status and no [Location] header, [/empty] with an empty body, any
    other path with a one-paragraph page.  A glyph is half as wide as the
    font size and there is no kerning. *)
Definition sample_response (request : str) : list Z :=
  if startswith request (lit "GET /old ")
  then lit "HTTP/1.0 302 Found" ++ crlf ++ lit "Location: /new" ++ crlf ++ crlf
  else if startswith request (lit "GET /hop ")
  then lit "HTTP/1.0 301 Moved" ++ crlf ++ lit "Server: x" ++ crlf ++ crlf
       ++ lit "/new"
  else if startswith request (lit "GET /empty ")
  then lit "HTTP/1.0 200 OK" ++ crlf ++ crlf
  else lit "HTTP/1.0 200 OK" ++ crlf ++ crlf ++ lit "<p>hello world</p>".

Definition sample_world : World :=
  {| dns_resolve := fun _ => 1%Z;
     tcp_connect := fun _ _ => 3%Z;
     tls_connect := fun _ _ _ => 3%Z;
     recv_script := fun _ _ request => [None; Some (sample_response request)];
     file_open := fun _ => None;
     file_size := fun _ => 0%Z;
     file_read := fun _ _ _ => None;
     ttf_get_advance := fun _ size => (size / 2)%Z;
     ttf_get_kerning := fun _ _ _ => 0%Z;
     ttf_get_metrics := fun size => (size, (- (size / 4))%Z, 2%Z);
     TTF_BOLD := 1%Z;
     TTF_ITALIC := 2%Z;
     window_create := 7%Z |}.

(** The key events that type [s]. *)
Definition type_keys (s : str) : list (option Event) :=
  map (fun c => Some (WIN_EVENT_KEY c)) s.

(** The state in which a method call ended. *)
Definition state_of {A} (o : outcome A) : Browser :=
  match o with
  | Ret _ b => b
  | Exc _ b => b
  | NoFuel => new_Browser false
  end.

(** A concrete run of the sample platform: visit [/old] (which redirects
    to [/new]), then [/x], then go back. *)
Definition visited_old : Browser :=
  state_of (navigate sample_world 2 (lit "http://a.com/old") false false
                     (new_Browser false)).
Definition visited_x : Browser :=
  state_of (navigate sample_world 2 (lit "http://a.com/x") false false
                     visited_old).
Definition went_back : Browser := state_of (back sample_world 2 visited_x).

(** The scroll offset is within the bound of the current document and
    viewport, and [max_scroll] is that bound. *)
Definition scroll_inv (b : Browser) : Prop :=
  scroll_in_bound b /\ max_scroll_current b.

(** A concrete run of the sample platform: the window is made 36 pixels
    high, the empty document [/empty] is loaded, and the Down key scrolls
    it by 20 pixels. *)
Definition scrolled_empty_page : Browser :=
  state_of
    (obind (handle_resize sample_world 640 36 (new_Browser false))
       (fun _ b =>
          obind (navigate sample_world 1 (lit "http://a.com/empty") false
                          false b)
            (fun _ b => handle_key sample_world 1 257 b))).

(** The same run with the two last steps exchanged: the window is made 36
    pixels high, [/empty] is loaded, and the window is resized to 640 by
    480 before any key is pressed. *)
Definition enlarged_empty_page : Browser :=
  state_of
    (obind (handle_resize sample_world 640 36 (new_Browser false))
       (fun _ b =>
          obind (navigate sample_world 1 (lit "http://a.com/empty") false
                          false b)
            (fun _ b => handle_resize sample_world 640 480 b))).

(** The sample platform showing the welcome page. *)
Definition welcome : Browser :=
  state_of (navigate sample_world 1 (lit "about:home") false false
                     (new_Browser false)).

(** *** Greedy line filling *)

Section WrapSpec.

Variable w : World.
Variable CONTENT_W : Z.

(** The line that holds the words [cur], at the indentation [indent],
    still has room for [word]. *)
Definition fits (indent font_size : Z) (cur : list str) (word : str) : bool :=
  negb (MARGIN + indent
        + measure_text w (join (lit " ") (cur ++ [word])) font_size
        >? MARGIN + CONTENT_W)%Z.

(** [word] alone is wider than the room between the indentation and the
    right edge of the viewport. *)
Definition wider_than_viewport (indent font_size : Z) (word : str) : Prop :=
  (CONTENT_W - indent < measure_text w word font_size)%Z.

(** Words placed greedily from left to right; [cur] are the words of the
    line being filled.  A word starts a new line when it does not fit,
    except that the first word of a line is always placed. *)
Fixpoint greedy_lines (room : list str -> str -> bool) (cur : list str)
    (words : list str) : list (list str) :=
  match words with
  | [] => match cur with [] => [] | _ => [cur] end
  | word :: words' =>
      match cur with
      | [] => greedy_lines room [word] words'
      | _ => if room cur word
             then greedy_lines room (cur ++ [word]) words'
             else cur :: greedy_lines room [word] words'
      end
  end.

(** One block per line, each one line height below the one before. *)
Fixpoint emit_lines (lines : list (list str)) (x y font_size style fg : Z)
    (href : option str) (lay : Layout) : Layout * Z :=
  match lines with
  | [] => (lay, y)
  | line :: lines' =>
      emit_lines lines' x (y + line_height_of w font_size)%Z font_size style fg
                 href (emit_line w line x y font_size style fg href lay)
  end.

(** What [layout_text] does once the last word is read: the line being
    filled is emitted. *)
Definition flush_line (font_size style fg : Z) (href : option str)
    (st : TextState) : Layout * Z :=
  match t_line_words st with
  | [] => (t_lay st, t_y st)
  | _ => (emit_line w (t_line_words st) (t_x st) (t_y st) font_size style fg
                    href (t_lay st),
          (t_y st + line_height_of w font_size)%Z)
  end.

(** A text never gets narrower when text is added before or after it. *)
Definition width_monotone (font_size : Z) : Prop :=
  forall s t : str,
    (measure_text w s font_size <= measure_text w (s ++ t) font_size)%Z
    /\ (measure_text w t font_size <= measure_text w (s ++ t) font_size)%Z.

End WrapSpec.

(** The texts of the blocks laid out so far by an inline flow. *)
Definition block_texts (st : InlineState) : list str :=
  map b_text (out_blocks (i_lay st)).

(** A line being filled by [layout_text] and a cursor of [layout_inline],
    both at the left margin of an empty layout. *)
Definition empty_layout : Layout := {| out_blocks := []; out_links := [] |}.
Definition line_with (line_words : list str) : TextState :=
  {| t_lay := empty_layout; t_y := 10%Z; t_x := 10%Z;
     t_line_words := line_words |}.
Definition cursor_at (x : Z) : InlineState :=
  {| i_lay := empty_layout; i_x := x; i_y := 10%Z |}.

(** The words of an inline flow, in the order in which [process] meets
    them. *)
Fixpoint inline_words (el : Element) : list str :=
  split_ws (text el) ++ List.concat (map inline_words (children el)).

(** The references of a heap point forward: the children of an object
    were allocated after it. *)
Definition heap_ok (h : list Node) : Prop :=
  forall (id : nat) (n : Node),
    h !! id = Some n -> Forall (fun c => id < c < length h) (n_children n).

(** The open elements are objects of the heap. *)
Definition pstate_ok (st : PState) : Prop :=
  heap_ok (heap st) /\ Forall (fun id => id < length (heap st)) (stack st).

(** *** Further notions *)

(** What [parse_url] does with a URL once its scheme prefix is removed:
    [rest] is the authority followed by the path. *)
Definition parse_authority (scheme rest : str) (default_port : Z)
    : result ParsedUrl :=
  let '(host_port, path) :=
    match find_char 47 rest with
    | None => (rest, lit "/")
    | Some slash_pos => (firstn slash_pos rest, skipn slash_pos rest)
    end in
  match find_char 58 host_port with
  | None =>
      Ok {| u_scheme := scheme; u_host := Some host_port;
            u_port := Some default_port; u_path := path |}
  | Some colon_pos =>
      let* port := int 10 (skipn (colon_pos + 1) host_port) in
      Ok {| u_scheme := scheme; u_host := Some (firstn colon_pos host_port);
            u_port := Some port; u_path := path |}
  end.

(** A poll of the socket that delivers nothing. *)
Definition idle (chunk : option (list Z)) : Prop :=
  chunk = None \/ chunk = Some [].

(** The elements of a tree, the root first. *)
Fixpoint all_elements (e : Element) : list Element :=
  e :: List.concat (map all_elements (children e)).

(** A void element: one of [br], [hr], [img], [input], [meta], [link]. *)
Definition is_void (t : str) : bool := str_in t void_tags.

(** What the parser keeps true of its heap and stack: the object 0 is the
    root, no void element is open, and a void element owns neither children
    nor text. *)
Definition void_inv (st : PState) : Prop :=
  tag_of (heap st) root_id = lit "root"
  /\ Forall (fun id => id < length (heap st)
                       /\ is_void (tag_of (heap st) id) = false) (stack st)
  /\ (forall (id : nat) (n : Node),
        heap st !! id = Some n -> is_void (n_tag n) = true ->
        n_children n = [] /\ n_text n = []).

(** The link region of a block: its box, when the block carries a link
    target. *)
Definition region_of (b : TextBlock) : list Link :=
  if href_truthy (b_href b)
  then [{| l_x := b_x b; l_y := b_y b; l_w := b_w b; l_h := b_h b;
           l_href := href_str (b_href b) |}]
  else [].

Definition regions (bs : list TextBlock) : list Link := flat_map region_of bs.

(** [lay'] is [lay] with blocks appended, and with the link regions of
    exactly those blocks appended. *)
Definition extends (lay lay' : Layout) : Prop :=
  exists bs, out_blocks lay' = out_blocks lay ++ bs
             /\ out_links lay' = out_links lay ++ regions bs.

(** A small document: a heading and a paragraph that holds a link. *)
Definition sample_tree : Element :=
  mkElement (lit "body") ∅
    [ mkElement (lit "h1") ∅ [] (lit "Kivi");
      mkElement (lit "p") ∅
        [ mkElement (lit "a") {[ lit "href" := lit "/next" ]} [] (lit "next") ]
        [] ]
    [].

(** The block of the link of [sample_tree], as the sample platform lays
    it out in a viewport 608 pixels wide. *)
Definition sample_block : TextBlock :=
  {| b_x := 10; b_y := 79; b_text := lit "next"; b_font_size := 16;
     b_style := 0; b_fg := LINK_COLOR; b_href := Some (lit "/next");
     b_w := 32; b_h := 22 |}.

(** Laying out [e] only appends blocks, and the link regions of those
    blocks. *)
Definition appends_regions (w : World) (CONTENT_W : Z) (e : Element) : Prop :=
  forall (lay : Layout) (y indent fs style : Z) (href : option str),
    extends lay (fst (layout_element w CONTENT_W e lay y indent fs style
                                     href)).

(** What the window shows is the layout of the current document at the
    current content width; before any document is loaded it shows
    nothing. *)
Definition displayed (w : World) (b : Browser) : Prop :=
  if truthy (current_html b)
  then exists root,
         parse_html (current_html b) = Ok root
         /\ layout_document w (content_w b) root
            = (blocks b, links b, content_height b)
  else blocks b = [] /\ links b = [].

(** While the address is edited the cursor lies inside the address text. *)
Definition cursor_ok (b : Browser) : Prop :=
  editing_url b = true ->
  (0 <= cursor_pos b <= Z.of_nat (length (address_text b)))%Z.

Definition coherent (w : World) (b : Browser) : Prop :=
  displayed w b /\ cursor_ok b.

(** The link region [l] contains the point [(x, y)] of the document. *)
Definition covers (x y : Z) (l : Link) : bool :=
  ((l_x l <=? x) && (x <? l_x l + l_w l)
   && (l_y l <=? y) && (y <? l_y l + l_h l))%Z.

(** The browser with the address bar in editing mode, holding [s], the
    cursor after the [pos]-th character. *)
Definition editing (s : str) (pos : Z) : Browser :=
  set_cursor_pos pos
    (set_address_text s (set_editing_url true (new_Browser false))).

(** A fresh browser that shows a one-link page. *)
Definition sample_page : Browser :=
  state_of (show_document sample_world 200
              (lit "<p><a href=/next>next</a></p>") (new_Browser false)).

(** A method call returned, or was left by [ValueError] or by
    [ZeroDivisionError]. *)
Definition ends_well {A} (o : outcome A) : Prop :=
  match o with
  | Exc e _ => e = ValueError \/ e = ZeroDivisionError
  | _ => True
  end.

(** A font whose line height is not negative at any size that is not
    negative. *)
Definition sane_metrics (w : World) : Prop :=
  forall fs : Z, (0 <= fs)%Z -> (0 <= line_height_of w fs)%Z.

(** Laying out [e] never moves the pen up. *)
Definition flows_down (w : World) (CONTENT_W : Z) (e : Element) : Prop :=
  forall (lay : Layout) (y indent fs style : Z) (href : option str),
    (0 <= fs)%Z ->
    (y <= snd (layout_element w CONTENT_W e lay y indent fs style href))%Z.

(** The scrollbar thumb can be computed: a page that can be scrolled has a
    content height that is not 0. *)
Definition thumb_defined (b : Browser) : Prop :=
  content_height b = 0%Z -> (max_scroll b <= 0)%Z.

(** A method call returned or was left by [ValueError], in a state whose
    scrollbar thumb can be computed. *)
Definition quiet {A} (o : outcome A) : Prop :=
  match o with
  | Ret _ b => thumb_defined b
  | Exc e b => e = ValueError /\ thumb_defined b
  | NoFuel => True
  end.

(** ** The entry point *)

(** The [for arg in sys.argv[1:]] loop of [main]: the URL to start at and
    the kiosk flag. *)
Definition main_args (args : list str) : str * bool :=
  fold_left
    (fun (acc : str * bool) (arg : str) =>
       if str_eqb arg (lit "--kiosk") then (fst acc, true)
       else if startswith arg (lit "http://") || startswith arg (lit "https://")
               || startswith arg (lit "file://") || startswith arg (lit "about:")
       then (arg, snd acc)
       else acc)
    args (lit "about:home", false).

(** [main], for the arguments [args] that follow the program name. *)
Definition main (w : World) (fuel : nat) (args : list str)
    (polls : list (option Event)) : outcome (option Z) :=
  let '(url_, kiosk_mode_) := main_args args in
  run w fuel url_ polls (new_Browser kiosk_mode_).

(** * Properties *)

(** ** The string operations *)

Lemma str_eqb_eq (a b : str) : str_eqb a b = true <-> a = b.
Proof.
  revert b; induction a as [|x a IH]; intros [|y b]; simpl; split;
    try congruence; try discriminate.
  - intros H. apply andb_prop in H as [H1 H2].
    apply Z.eqb_eq in H1. apply IH in H2. congruence.
  - intros H. injection H as -> ->. rewrite Z.eqb_refl. simpl. now apply IH.
Qed.

Lemma str_eqb_refl (a : str) : str_eqb a a = true.
Proof. now apply str_eqb_eq. Qed.

Lemma str_eqb_neq (a b : str) : str_eqb a b = false <-> a <> b.
Proof.
  split.
  - intros H E. apply str_eqb_eq in E. congruence.
  - intros H. destruct (str_eqb a b) eqn:E; [|reflexivity].
    apply str_eqb_eq in E. contradiction.
Qed.

Lemma startswith_app (p s : str) : startswith (p ++ s) p = true.
Proof. induction p as [|x p IH]; simpl; [reflexivity|]. now rewrite Z.eqb_refl. Qed.

Lemma startswith_prefix (s p : str) :
  startswith s p = true -> exists r, s = p ++ r.
Proof.
  revert s; induction p as [|x p IH]; intros s H; simpl in *.
  - now exists s.
  - destruct s as [|y s]; [discriminate|].
    apply andb_prop in H as [H1 H2]. apply Z.eqb_eq in H1. subst y.
    destruct (IH _ H2) as [r ->]. now exists r.
Qed.

(** The first occurrence of a character that a prefix avoids. *)
Lemma find_char_app (c : Z) (pre post : str) :
  free_of c pre -> find_char c (pre ++ c :: post) = Some (length pre).
Proof.
  unfold find_char. induction 1 as [|x pre Hx _ IH]; simpl.
  - now rewrite Z.eqb_refl.
  - destruct (c =? x)%Z eqn:E; [apply Z.eqb_eq in E; congruence|].
    simpl. simpl in IH. now rewrite IH.
Qed.

Lemma find_char_free (c : Z) (s : str) :
  free_of c s -> find_char c s = None.
Proof.
  unfold find_char. induction 1 as [|x s Hx _ IH]; simpl; [reflexivity|].
  destruct (c =? x)%Z eqn:E; [apply Z.eqb_eq in E; congruence|].
  simpl. simpl in IH. now rewrite IH.
Qed.

Lemma find_char_cons_pos (c x : Z) (s : str) (k : nat) :
  x <> c -> find_char c (x :: s) = Some k -> 1 <= k.
Proof.
  unfold find_char. simpl. intros Hx.
  destruct (c =? x)%Z eqn:E; [apply Z.eqb_eq in E; congruence|].
  simpl. destruct (find [c] s); simpl; intros H; inversion H; lia.
Qed.

Lemma length_drop_while (p : Z -> bool) (s : str) :
  length (drop_while p s) <= length s.
Proof.
  induction s as [|c s IH]; simpl; [lia|].
  destruct (p c); simpl; lia.
Qed.

Lemma int_no_fuel (base : Z) (s : str) : int base s <> OutOfFuel.
Proof. unfold int. now destruct (match strip s with [] => _ | _ => _ end). Qed.

Lemma chr_no_fuel (n : Z) : chr n <> OutOfFuel.
Proof. unfold chr. now destruct (_ && _). Qed.

Lemma find_char_cons (c x : Z) (s : str) :
  find_char c (x :: s)
  = if (c =? x)%Z then Some O else option_map S (find_char c s).
Proof. unfold find_char. simpl. now destruct (c =? x)%Z. Qed.

Lemma find_char_app_free (c : Z) (pre post : str) :
  free_of c pre ->
  find_char c (pre ++ post)
  = option_map (fun k => length pre + k) (find_char c post).
Proof.
  induction 1 as [|x pre Hx _ IH]; cbn [app length].
  - now destruct (find_char c post).
  - rewrite find_char_cons.
    destruct (c =? x)%Z eqn:E; [apply Z.eqb_eq in E; congruence|].
    rewrite IH. now destruct (find_char c post).
Qed.

Lemma lstrip_keeps (c : Z) (s : str) :
  In c s -> is_space c = false -> In c (lstrip s).
Proof.
  intros Hin Hc. induction s as [|x s IH]; [contradiction|].
  simpl. destruct (is_space x) eqn:Ex; [|exact Hin].
  destruct Hin as [->|Hin]; [congruence|now apply IH].
Qed.

Lemma strip_keeps (c : Z) (s : str) :
  In c s -> is_space c = false -> In c (strip s).
Proof.
  intros Hin Hc. unfold strip, rstrip. apply in_rev.
  rewrite rev_involutive. apply lstrip_keeps; [|assumption].
  apply -> in_rev. now apply lstrip_keeps.
Qed.

Lemma int_digits_rejects (base c : Z) (s : str) :
  In c s -> c <> 95%Z -> digit_val base c = None ->
  forall (acc : Z) (after_digit : bool),
    int_digits base acc after_digit s = None.
Proof.
  intros Hin Hu Hd. induction s as [|x s IH]; [contradiction|].
  intros acc after_digit. cbn [int_digits].
  destruct Hin as [->|Hin].
  - apply Z.eqb_neq in Hu. now rewrite Hu, Hd.
  - destruct (x =? 95)%Z; [destruct after_digit; auto|].
    destruct (digit_val base x); auto.
Qed.

(** [int] rejects a string that holds a character which is neither a
    decimal digit, nor a sign, nor an underscore, nor white space. *)
Lemma int_rejects (c : Z) (s : str) :
  In c s -> is_space c = false -> c <> 43%Z -> c <> 45%Z -> c <> 95%Z ->
  digit_val 10 c = None -> int 10 s = Raise ValueError.
Proof.
  intros Hin Hsp Hplus Hminus Hu Hd. unfold int.
  pose proof (strip_keeps c s Hin Hsp) as Hs.
  assert (Hun : forall t, In c t -> int_unsigned 10 t = None).
  { intros t Ht. unfold int_unsigned. cbn [Z.eqb andb].
    now apply int_digits_rejects with (c := c). }
  destruct (strip s) as [|x t]; [contradiction|].
  destruct Hs as [->|Hs].
  - rewrite (Hun (c :: t)) by now left.
    destruct c as [|p|p]; try reflexivity.
    do 6 (destruct p as [p|p|]; try reflexivity); congruence.
  - rewrite (Hun t Hs), (Hun (x :: t)) by now right.
    destruct x as [|p|p]; try reflexivity.
    do 6 (destruct p as [p|p|]; try reflexivity).
Qed.

(** ** Entity decoding *)

Lemma decode_reference_ok (entity whole : str) :
  exists piece, decode_reference entity whole = Ok piece.
Proof.
  unfold decode_reference.
  assert (Hnum : forall base s,
             exists piece,
               try_except (let* n := int base s in chr n) (Ok whole) = Ok piece).
  { intros base s. pose proof (int_no_fuel base s) as Hi.
    destruct (int base s) as [n| |]; simpl; [|eauto|congruence].
    pose proof (chr_no_fuel n) as Hc.
    destruct (chr n); simpl; [eauto|eauto|congruence]. }
  destruct (startswith entity (lit "#x")); [apply Hnum|].
  destruct (startswith entity (lit "#")); [apply Hnum|].
  destruct (HTML_ENTITIES !! entity); eauto.
Qed.

(** Enough fuel: one unit per character that is still unread. *)
Lemma decode_loop_total (fuel : nat) :
  forall (text acc : str),
    length text < fuel -> exists r, decode_loop fuel text acc = Ok r.
Proof.
  induction fuel as [|fuel IH]; intros text acc Hlen; [lia|].
  destruct text as [|c rest]; simpl; [eauto|].
  simpl in Hlen.
  assert (Hlit : exists r, decode_loop fuel rest (acc ++ [c]) = Ok r)
    by (apply IH; lia).
  destruct (c =? 38)%Z; [|exact Hlit].
  destruct (find_char 59 (c :: rest)) as [e|]; [|exact Hlit].
  destruct (e <? 12); [|exact Hlit].
  destruct (decode_reference (slice (c :: rest) 1 e) (firstn (e + 1) (c :: rest)))
    as [piece| |] eqn:E.
  - simpl. apply IH. rewrite length_skipn. simpl. lia.
  - destruct (decode_reference_ok (slice (c :: rest) 1 e)
                (firstn (e + 1) (c :: rest))) as [p Hp]. congruence.
  - destruct (decode_reference_ok (slice (c :: rest) 1 e)
                (firstn (e + 1) (c :: rest))) as [p Hp]. congruence.
Qed.

Lemma decode_entities_total (text : str) :
  exists r, decode_entities text = Ok r.
Proof. apply decode_loop_total. lia. Qed.

(** Text without [&] is copied. *)
Lemma decode_loop_plain (text : str) :
  forall (fuel : nat) (acc : str),
    free_of 38 text -> length text < fuel ->
    decode_loop fuel text acc = Ok (acc ++ text).
Proof.
  induction text as [|c rest IH]; intros fuel acc Hfree Hlen;
    (destruct fuel as [|fuel]; [simpl in Hlen; lia|]); simpl.
  - now rewrite app_nil_r.
  - inversion Hfree as [|? ? Hc Hrest]; subst.
    destruct (c =? 38)%Z eqn:E; [apply Z.eqb_eq in E; congruence|].
    rewrite IH; [|assumption|simpl in Hlen; lia].
    now rewrite <- app_assoc.
Qed.

(** Text without [;] is copied, whatever [&] it holds. *)
Lemma decode_loop_unterminated (text : str) :
  forall (fuel : nat) (acc : str),
    free_of 59 text -> length text < fuel ->
    decode_loop fuel text acc = Ok (acc ++ text).
Proof.
  induction text as [|c rest IH]; intros fuel acc Hfree Hlen;
    (destruct fuel as [|fuel]; [simpl in Hlen; lia|]); simpl.
  - now rewrite app_nil_r.
  - rewrite (find_char_free 59 (c :: rest) Hfree).
    inversion Hfree as [|? ? Hc Hrest]; subst.
    rewrite IH; [|assumption|simpl in Hlen; lia].
    rewrite <- app_assoc. simpl. now destruct (c =? 38)%Z.
Qed.

(** One turn of the loop at an ampersand. *)
Lemma decode_loop_amp (fuel : nat) (rest acc : str) :
  decode_loop (S fuel) (38%Z :: rest) acc =
  match find_char 59 (38%Z :: rest) with
  | Some e =>
      if e <? 12
      then let* piece := decode_reference (slice (38%Z :: rest) 1 e)
                                          (firstn (e + 1) (38%Z :: rest)) in
           decode_loop fuel (skipn (e + 1) (38%Z :: rest)) (acc ++ piece)
      else decode_loop fuel rest (acc ++ [38%Z])
  | None => decode_loop fuel rest (acc ++ [38%Z])
  end.
Proof. reflexivity. Qed.

Lemma decode_short_reference (body : str) :
  free_of 59 body -> length body <= 10 ->
  decode_entities (reference body) = decode_reference body (reference body).
Proof.
  intros Hfree Hlen. unfold decode_entities, reference.
  rewrite decode_loop_amp.
  assert (Hfind : find_char 59 (38%Z :: body ++ [59%Z]) = Some (S (length body))).
  { apply (find_char_app 59 (38%Z :: body) []). constructor; [lia|assumption]. }
  rewrite Hfind.
  replace (S (length body) <? 12) with true
    by (symmetry; apply Nat.ltb_lt; lia).
  assert (Hslice : slice (38%Z :: body ++ [59%Z]) 1 (S (length body)) = body).
  { unfold slice. simpl. rewrite Nat.sub_0_r.
    rewrite skipn_O, firstn_app, Nat.sub_diag, firstn_all. simpl. apply app_nil_r. }
  assert (Hwhole : firstn (S (length body) + 1) (38%Z :: body ++ [59%Z])
                   = 38%Z :: body ++ [59%Z]).
  { apply firstn_all2. simpl. rewrite length_app. simpl. lia. }
  assert (Hrest : skipn (S (length body) + 1) (38%Z :: body ++ [59%Z]) = []).
  { apply skipn_all2. simpl. rewrite length_app. simpl. lia. }
  rewrite Hslice, Hwhole, Hrest.
  destruct (length (38%Z :: body ++ [59%Z])) eqn:El; [discriminate|].
  now destruct (decode_reference body (38%Z :: body ++ [59%Z])).
Qed.

Lemma decode_long_reference (body : str) :
  free_of 59 body -> free_of 38 body -> 10 < length body ->
  decode_entities (reference body) = Ok (reference body).
Proof.
  intros Hsemi Hamp Hlen. unfold decode_entities, reference.
  rewrite decode_loop_amp.
  assert (Hfind : find_char 59 (38%Z :: body ++ [59%Z]) = Some (S (length body))).
  { apply (find_char_app 59 (38%Z :: body) []). constructor; [lia|assumption]. }
  rewrite Hfind.
  replace (S (length body) <? 12) with false
    by (symmetry; apply Nat.ltb_ge; lia).
  rewrite decode_loop_plain; [reflexivity| |simpl; lia].
  apply Forall_app. split; [assumption|]. constructor; [lia|constructor].
Qed.

Lemma decode_reference_value (entity whole : str) :
  decode_reference entity whole =
  Ok (match entity_value entity with Some v => v | None => whole end).
Proof.
  unfold decode_reference, entity_value.
  assert (Hnum : forall base s,
             try_except (let* n := int base s in chr n) (Ok whole) =
             Ok (match match int base s with
                       | Ok n => match chr n with Ok c => Some c | _ => None end
                       | _ => None
                       end with Some v => v | None => whole end)).
  { intros base s. pose proof (int_no_fuel base s) as Hi.
    destruct (int base s) as [n| |]; simpl; [|reflexivity|congruence].
    pose proof (chr_no_fuel n) as Hc.
    destruct (chr n); simpl; [reflexivity|reflexivity|congruence]. }
  destruct (startswith entity (lit "#x")); [apply Hnum|].
  destruct (startswith entity (lit "#")); [apply Hnum|].
  now destruct (HTML_ENTITIES !! entity).
Qed.

Lemma table_values_differ :
  forallb (fun kv => negb (str_eqb (snd kv) (reference (fst kv))))
          HTML_ENTITIES_items = true.
Proof. vm_compute. reflexivity. Qed.

(** A replacement is never the reference itself. *)
Lemma entity_value_differs (body v : str) :
  entity_value body = Some v -> v <> reference body.
Proof.
  unfold entity_value.
  assert (Hnum : forall base s,
             match int base s with
             | Ok n => match chr n with Ok c => Some c | _ => None end
             | _ => None
             end = Some v -> v <> reference body).
  { intros base s H. destruct (int base s) as [n| |]; try discriminate.
    unfold chr in H. destruct (_ && _); try discriminate.
    injection H as <-. unfold reference. destruct body; discriminate. }
  destruct (startswith body (lit "#x")); [apply Hnum|].
  destruct (startswith body (lit "#")); [apply Hnum|].
  intros H. unfold HTML_ENTITIES in H. apply elem_of_list_to_map_2 in H.
  apply list_elem_of_In in H.
  pose proof table_values_differ as Ht. rewrite forallb_forall in Ht.
  specialize (Ht _ H). simpl in Ht. apply negb_true_iff in Ht.
  now apply str_eqb_neq in Ht.
Qed.

(** C7 (as amended): entity decoding maps [&amp;&lt;b&gt;] to [&<b>] and
    both [&#65;] and [&#x41;] to [A]; text with no terminating [;] (such
    as [&foo]) passes through literally, and so does a reference whose body
    is not recognised; a recognised body of up to 10 characters is replaced
    by its value, which differs from the reference; a reference whose body
    (free of [&]) is longer than 10 characters passes through literally. *)
Theorem decode_entities_references :
  decode_entities (lit "&amp;&lt;b&gt;") = Ok (lit "&<b>")
  /\ decode_entities (lit "&#65;") = Ok (lit "A")
  /\ decode_entities (lit "&#x41;") = Ok (lit "A")
  /\ decode_entities (lit "&foo") = Ok (lit "&foo")
  /\ (forall text : str, free_of 59 text -> decode_entities text = Ok text)
  /\ (forall body : str,
        free_of 59 body -> length body <= 10 -> entity_value body = None ->
        decode_entities (reference body) = Ok (reference body))
  /\ (forall body v : str,
        free_of 59 body -> length body <= 10 -> entity_value body = Some v ->
        decode_entities (reference body) = Ok v /\ v <> reference body)
  /\ (forall body : str,
        free_of 59 body -> free_of 38 body -> 10 < length body ->
        decode_entities (reference body) = Ok (reference body)).
Proof.
  split; [vm_compute; reflexivity|].
  split; [vm_compute; reflexivity|].
  split; [vm_compute; reflexivity|].
  split; [vm_compute; reflexivity|].
  split.
  { intros text_ H. unfold decode_entities.
    now rewrite decode_loop_unterminated by (assumption || lia). }
  split.
  { intros body Hf Hl Hv.
    now rewrite decode_short_reference, decode_reference_value, Hv. }
  split.
  { intros body v Hf Hl Hv. split.
    - now rewrite decode_short_reference, decode_reference_value, Hv.
    - now apply entity_value_differs. }
  intros body. apply decode_long_reference.
Qed.

Ltac free_of_tac := unfold free_of; repeat (constructor; [lia|]); constructor.

Lemma decode_entities_references_witness :
  decode_entities (lit "a & b") = Ok (lit "a & b")
  /\ decode_entities (reference (lit "bogus")) = Ok (reference (lit "bogus"))
  /\ decode_entities (reference (lit "hellip")) = Ok (lit "...")
  /\ decode_entities (reference (lit "#0000000065"))
     = Ok (reference (lit "#0000000065")).
Proof.
  destruct decode_entities_references
    as (_ & _ & _ & _ & Hplain & Hunknown & Hknown & Hlong).
  split; [apply Hplain; vm_compute; free_of_tac|].
  split; [apply Hunknown; [vm_compute; free_of_tac|vm_compute; lia|reflexivity]|].
  split; [apply (Hknown (lit "hellip"));
          [vm_compute; free_of_tac|vm_compute; lia|reflexivity]|].
  apply Hlong; [vm_compute; free_of_tac|vm_compute; free_of_tac|vm_compute; lia].
Defined.

(** The claim as it was written fails: a recognised body of 11 characters
    is not decoded. *)
Lemma decode_entities_eleven_char_body :
  length (lit "#x000000041") = 11
  /\ entity_value (lit "#x000000041") = Some (lit "A")
  /\ decode_entities (reference (lit "#x000000041"))
     = Ok (reference (lit "#x000000041")).
Proof. repeat split; vm_compute; reflexivity. Qed.

(** ** The tag-soup parser *)

Lemma parse_attr_progress (c : Z) (s1 : str) :
  length (snd (parse_attr (c :: s1))) <= length s1.
Proof.
  unfold parse_attr.
  set (s2 := drop_while (fun c => negb (attr_name_end c)) (c :: s1)).
  set (s3 := drop_while attr_name_end s2).
  assert (Hs3 : length s3 <= length s1).
  { subst s3 s2. simpl. destruct (attr_name_end c) eqn:Ec; simpl.
    - rewrite Ec. apply length_drop_while.
    - etransitivity; [apply length_drop_while|apply length_drop_while]. }
  destruct s3 as [|q s3'] eqn:E3; simpl; [lia|].
  simpl in Hs3. destruct (is_quote q); simpl.
  - rewrite length_skipn.
    pose proof (length_drop_while (fun c => negb (c =? q)%Z) s3'). lia.
  - pose proof (length_drop_while (fun c => negb (attr_value_end c)) (q :: s3')).
    simpl in *. lia.
Qed.

Lemma parse_attrs_loop_total (fuel : nat) :
  forall (s : str) (attrs : gmap (list Z) (list Z)),
    length s < fuel -> exists r, parse_attrs_loop fuel s attrs = Ok r.
Proof.
  induction fuel as [|fuel IH]; intros s attrs Hlen; [lia|].
  cbn [parse_attrs_loop]. pose proof (length_drop_while attr_space s) as Hs1.
  destruct (drop_while attr_space s) as [|c s1] eqn:E1; [eauto|].
  simpl in Hs1. pose proof (parse_attr_progress c s1) as Hp.
  destruct (parse_attr (c :: s1)) as [[name value] s4]. simpl in Hp.
  apply IH. lia.
Qed.

Lemma parse_attrs_total (attr_str : str) :
  exists r, parse_attrs attr_str = Ok r.
Proof. apply parse_attrs_loop_total. lia. Qed.

Lemma pop_to_match_nonempty (h : list Node) (tag_name : str) (stk : list nat) :
  stk <> [] -> pop_to_match h tag_name stk <> [].
Proof.
  induction stk as [|t stk IH]; [congruence|]. intros _. simpl.
  destruct stk as [|t' stk']; [congruence|].
  destruct (negb _); [apply IH|]; congruence.
Qed.

Lemma pop_if_open_nonempty (stk : list nat) :
  stk <> [] -> pop_if_open stk <> [].
Proof. destruct stk as [|t [|t' stk']]; simpl; congruence. Qed.

Lemma close_tag_nonempty (tag_name : str) (st : PState) :
  stack st <> [] -> stack (close_tag tag_name st) <> [].
Proof.
  intros H. simpl. now apply pop_if_open_nonempty, pop_to_match_nonempty.
Qed.

Lemma open_tag_total (tag_content : str) (st : PState) :
  stack st <> [] ->
  exists st', open_tag tag_content st = Ok st' /\ stack st' <> [].
Proof.
  intros Hstk. unfold open_tag, top.
  destruct (stack st) as [|t stk] eqn:Es; [congruence|].
  destruct (find_char 32 tag_content) as [space|]; simpl.
  - destruct (parse_attrs_total (skipn space tag_content)) as [a ->]. simpl.
    destruct (_ && _); eexists; (split; [reflexivity|simpl; congruence]).
  - destruct (_ && _); eexists; (split; [reflexivity|simpl; congruence]).
Qed.

Lemma text_run_total (text_ : str) (st : PState) :
  stack st <> [] ->
  exists st', text_run text_ st = Ok st' /\ stack st' <> [].
Proof.
  intros Hstk. unfold text_run, top.
  destruct (truthy (strip text_)); [|eauto].
  destruct (decode_entities_total text_) as [r ->]. simpl.
  destruct (stack st) as [|t stk] eqn:Es; [congruence|].
  eexists; split; [reflexivity|simpl; congruence].
Qed.

(** Enough fuel: one unit per character that is still unread.  The stack
    of open elements is never empty, so [stack[-1]] never fails. *)
Lemma parse_loop_total (fuel : nat) :
  forall (html : str) (st : PState),
    length html < fuel -> stack st <> [] ->
    exists st', parse_loop fuel html st = Ok st' /\ stack st' <> [].
Proof.
  induction fuel as [|fuel IH]; intros html st Hlen Hstk; [lia|].
  destruct html as [|c html']; cbn [parse_loop]; [eauto|]. simpl in Hlen.
  destruct (c =? 60)%Z eqn:Ec.
  - destruct (find_char 62 (c :: html')) as [e|]; [|eauto].
    assert (Hrest : length (skipn (e + 1) (c :: html')) < fuel).
    { rewrite length_skipn. simpl. lia. }
    destruct (startswith _ (lit "!")); [now apply IH|].
    destruct (startswith _ (lit "/")).
    + apply IH; [assumption|]. now apply close_tag_nonempty.
    + destruct (open_tag_total (strip (slice (c :: html') 1 e)) st Hstk)
        as (st' & -> & Hstk'). simpl. now apply IH.
  - set (next_tag := match find_char 60 (c :: html') with
                     | Some k => k
                     | None => length (c :: html')
                     end).
    assert (Hpos : 1 <= next_tag).
    { subst next_tag. destruct (find_char 60 (c :: html')) as [k|] eqn:Ef.
      - apply (find_char_cons_pos 60 c html'); [|assumption].
        intros ->. discriminate.
      - simpl. lia. }
    destruct (text_run_total (firstn next_tag (c :: html')) st Hstk)
      as (st' & -> & Hstk'). simpl.
    apply IH; [|assumption]. rewrite length_skipn. simpl. lia.
Qed.

Lemma parse_html_total (html : str) : exists root, parse_html html = Ok root.
Proof.
  unfold parse_html.
  destruct (parse_loop_total (S (length html)) html parse_init)
    as (st & -> & _); [lia|discriminate|]. simpl. eauto.
Qed.

Lemma pop_to_match_step (h : list Node) (tag_name : str) (t : nat)
    (stk : list nat) :
  stk <> [] ->
  pop_to_match h tag_name (t :: stk) =
  if negb (str_eqb (tag_of h t) tag_name)
  then pop_to_match h tag_name stk else t :: stk.
Proof. destruct stk; [congruence|reflexivity]. Qed.

Lemma pop_to_match_unmatched (h : list Node) (tag_name : str) :
  forall (open_ : list nat) (root : nat),
    Forall (fun id => tag_of h id <> tag_name) open_ ->
    pop_to_match h tag_name (open_ ++ [root]) = [root].
Proof.
  induction open_ as [|t open_ IH]; intros root Hno; [reflexivity|].
  inversion Hno as [|? ? Ht Hrest]; subst.
  cbn [app]. rewrite pop_to_match_step by (destruct open_; discriminate).
  apply str_eqb_neq in Ht. rewrite Ht. simpl. now apply IH.
Qed.

Lemma pop_to_match_matched (h : list Node) (tag_name : str) :
  forall (above : list nat) (m : nat) (below : list nat),
    below <> [] ->
    Forall (fun id => tag_of h id <> tag_name) above ->
    tag_of h m = tag_name ->
    pop_to_match h tag_name (above ++ m :: below) = m :: below.
Proof.
  induction above as [|t above IH]; intros m below Hbelow Hno Hm.
  - cbn [app]. rewrite pop_to_match_step by assumption.
    now rewrite Hm, str_eqb_refl.
  - inversion Hno as [|? ? Ht Hrest]; subst.
    cbn [app]. rewrite pop_to_match_step by (destruct above; discriminate).
    apply str_eqb_neq in Ht. rewrite Ht. simpl. now apply IH.
Qed.

(** One turn of the parser's loop on a closing tag. *)
Lemma parse_loop_closing_tag (fuel : nat) (inner rest : str) (st : PState) :
  free_of 62 inner ->
  startswith (strip inner) (lit "/") = true ->
  parse_loop (S fuel) (60%Z :: inner ++ 62%Z :: rest) st =
  parse_loop fuel rest (close_tag (lower (strip (skipn 1 (strip inner)))) st).
Proof.
  intros Hfree Hslash. cbn [parse_loop]. rewrite Z.eqb_refl.
  assert (Hfind : find_char 62 (60%Z :: inner ++ 62%Z :: rest)
                  = Some (S (length inner))).
  { apply (find_char_app 62 (60%Z :: inner) rest). constructor; [lia|assumption]. }
  rewrite Hfind.
  assert (Hslice : slice (60%Z :: inner ++ 62%Z :: rest) 1 (S (length inner))
                   = inner).
  { unfold slice. simpl. rewrite Nat.sub_0_r.
    rewrite skipn_O, firstn_app, Nat.sub_diag, firstn_all. simpl.
    apply app_nil_r. }
  assert (Hrest : skipn (S (length inner) + 1) (60%Z :: inner ++ 62%Z :: rest)
                  = rest).
  { replace (S (length inner) + 1) with (S (length inner + 1)) by lia.
    cbn [skipn]. rewrite skipn_app, skipn_all2 by lia.
    replace (length inner + 1 - length inner) with 1 by lia. reflexivity. }
  rewrite Hslice, Hrest, Hslash.
  destruct (startswith_prefix _ _ Hslash) as [r Hr]. rewrite Hr. reflexivity.
Qed.

(** C9: the markup parser is total.  For every input [parse_html] ends and
    returns a tree, and neither it nor [parse_attrs] nor [decode_entities]
    raises. *)
Theorem parser_never_raises :
  (forall html : str, exists root, parse_html html = Ok root)
  /\ (forall attr_str : str, exists a, parse_attrs attr_str = Ok a)
  /\ (forall text_ : str, exists r, decode_entities text_ = Ok r).
Proof.
  split; [exact parse_html_total|].
  split; [exact parse_attrs_total|exact decode_entities_total].
Qed.

(** C2 (as amended): a closing tag leaves the tree as it is.  When its
    lower-cased name is the tag of an open element other than the root,
    the stack is popped up to and including the first such element; the
    elements popped on the way stay in the tree.  When it is the tag of no
    open element other than the root, every open element is popped and only
    the root remains on the stack. *)
Theorem close_tag_pops :
  (forall (fuel : nat) (inner rest : str) (st : PState),
      free_of 62 inner -> startswith (strip inner) (lit "/") = true ->
      parse_loop (S fuel) (60%Z :: inner ++ 62%Z :: rest) st =
      parse_loop fuel rest
                 (close_tag (lower (strip (skipn 1 (strip inner)))) st))
  /\ (forall (tag_name : str) (st : PState),
        heap (close_tag tag_name st) = heap st)
  /\ (forall (tag_name : str) (st : PState) (above : list nat) (m : nat)
             (below : list nat),
        stack st = above ++ m :: below -> below <> [] ->
        Forall (fun id => tag_of (heap st) id <> tag_name) above ->
        tag_of (heap st) m = tag_name ->
        stack (close_tag tag_name st) = below)
  /\ (forall (tag_name : str) (st : PState) (open_ : list nat) (root : nat),
        stack st = open_ ++ [root] ->
        Forall (fun id => tag_of (heap st) id <> tag_name) open_ ->
        stack (close_tag tag_name st) = [root]).
Proof.
  split; [exact parse_loop_closing_tag|].
  split; [reflexivity|].
  split.
  - intros tag_name st above m below Hs Hb Hno Hm. simpl. rewrite Hs.
    rewrite pop_to_match_matched by assumption.
    destruct below; [congruence|reflexivity].
  - intros tag_name st open_ root Hs Hno. simpl. rewrite Hs.
    now rewrite pop_to_match_unmatched.
Qed.

Lemma close_tag_pops_witness :
  parse_loop 5 (lit "</p>x") open_p_b
  = parse_loop 4 (lit "x") (close_tag (lit "p") open_p_b)
  /\ heap (close_tag (lit "p") open_p_b) = heap open_p_b
  /\ stack (close_tag (lit "p") open_p_b) = [0]
  /\ stack (close_tag (lit "table") open_p_b) = [0].
Proof.
  destruct close_tag_pops as (Hloop & Hheap & Hmatch & Hnone).
  split.
  { apply (Hloop 4 (lit "/p") (lit "x") open_p_b);
      [vm_compute; free_of_tac|reflexivity]. }
  split; [apply Hheap|].
  split.
  { apply (Hmatch (lit "p") open_p_b [2] 1 [0]);
      [reflexivity|discriminate| |reflexivity].
    constructor; [vm_compute; discriminate|constructor]. }
  apply (Hnone (lit "table") open_p_b [2; 1] 0); [reflexivity|].
  repeat (constructor; [vm_compute; discriminate|]). constructor.
Defined.

(** The claim as it was written fails: [</i>] names no open element, and
    yet the stack is not left as it was. *)
Lemma unmatched_closing_tag_pops_all :
  parse_loop 7 (lit "<p><b>") parse_init = Ok open_p_b
  /\ stack open_p_b = [2; 1; 0]
  /\ Forall (fun id => tag_of (heap open_p_b) id <> lit "i") (stack open_p_b)
  /\ parse_loop 11 (lit "<p><b></i>") parse_init
     = Ok (close_tag (lit "i") open_p_b)
  /\ stack (close_tag (lit "i") open_p_b) = [0]
  /\ stack (close_tag (lit "i") open_p_b) <> stack open_p_b.
Proof.
  split; [vm_compute; reflexivity|].
  split; [vm_compute; reflexivity|].
  split; [repeat (constructor; [vm_compute; discriminate|]); constructor|].
  split; [vm_compute; reflexivity|].
  split; [vm_compute; reflexivity|vm_compute; discriminate].
Qed.

(** *** The heap of elements is a tree *)

Lemma pop_to_match_sub (P : nat -> Prop) (h : list Node) (tag_name : str)
    (stk : list nat) :
  Forall P stk -> Forall P (pop_to_match h tag_name stk).
Proof.
  induction 1 as [|t stk Ht Hstk IH]; [constructor|].
  cbn [pop_to_match]. destruct stk as [|t' stk']; [now repeat constructor|].
  destruct (negb _); [exact IH|now constructor].
Qed.

Lemma pop_if_open_sub (P : nat -> Prop) (stk : list nat) :
  Forall P stk -> Forall P (pop_if_open stk).
Proof.
  intros H. destruct stk as [|t [|t' stk']]; cbn; try assumption.
  now inversion H.
Qed.

Lemma close_tag_ok (tag_name : str) (st : PState) :
  pstate_ok st -> pstate_ok (close_tag tag_name st).
Proof.
  intros [Hh Hs]. split; [exact Hh|]. cbn.
  now apply pop_if_open_sub, pop_to_match_sub.
Qed.

Lemma heap_ok_alter_text (f : Node -> Node) (t : nat) (h : list Node) :
  (forall n, n_children (f n) = n_children n) ->
  heap_ok h -> heap_ok (alter f t h).
Proof.
  intros Hf Hok id n Hn. rewrite length_alter.
  rewrite list_lookup_alter in Hn. destruct (decide (t = id)) as [->|Hne].
  - destruct (h !! id) as [n0|] eqn:E; [|discriminate].
    cbn in Hn. injection Hn as <-. rewrite Hf. now apply Hok.
  - now apply Hok.
Qed.

Lemma heap_ok_new_child (t : nat) (elem : Node) (h : list Node) :
  t < length h -> n_children elem = [] -> heap_ok h ->
  heap_ok (alter (add_child (length h)) t h ++ [elem]).
Proof.
  intros Ht Helem Hok id n Hn.
  rewrite length_app, length_alter. cbn [length].
  destruct (Nat.lt_ge_cases id (length h)) as [Hlt|Hge].
  - rewrite lookup_app_l in Hn by now rewrite length_alter.
    rewrite list_lookup_alter in Hn. destruct (decide (t = id)) as [->|Hne].
    + destruct (h !! id) as [n0|] eqn:E; [|discriminate].
      cbn in Hn. injection Hn as <-. cbn [add_child n_children].
      apply Forall_app. split.
      * eapply List.Forall_impl; [|apply (Hok id n0 E)]. cbn. intros c Hc. lia.
      * constructor; [lia|constructor].
    + eapply List.Forall_impl; [|apply (Hok id n Hn)]. cbn. intros c Hc. lia.
  - rewrite lookup_app_r in Hn by now rewrite length_alter.
    rewrite length_alter in Hn.
    destruct (id - length h) as [|k] eqn:Ek; [|destruct k; discriminate].
    cbn in Hn. injection Hn as <-. rewrite Helem. constructor.
Qed.

Lemma open_tag_ok (tag_content : str) (st st' : PState) :
  pstate_ok st -> open_tag tag_content st = Ok st' -> pstate_ok st'.
Proof.
  intros [Hh Hs]. unfold open_tag, top.
  destruct (match find_char 32 tag_content with
            | Some _ => _ | None => _ end) as [[tag_name a]| |];
    cbn [rbind]; try discriminate.
  destruct (stack st) as [|t stk] eqn:Es; cbn [rbind]; [discriminate|].
  inversion Hs as [|? ? Ht Hstk]; subst.
  assert (Hok' : heap_ok (alter (add_child (length (heap st))) t (heap st)
                          ++ [new_Element tag_name a]))
    by (apply heap_ok_new_child; [assumption|reflexivity|assumption]).
  assert (Hlen : length (alter (add_child (length (heap st))) t (heap st)
                         ++ [new_Element tag_name a])
                 = S (length (heap st)))
    by (rewrite length_app, length_alter; cbn; lia).
  assert (Hstk' : Forall (fun id => id < S (length (heap st))) (t :: stk)).
  { constructor; [lia|]. eapply List.Forall_impl; [|exact Hstk]. cbn. lia. }
  destruct (_ && _); intros H; injection H as <-; (split; [exact Hok'|]);
    cbn [stack heap]; rewrite Hlen; [constructor; [lia|]|]; exact Hstk'.
Qed.

Lemma text_run_ok (text_ : str) (st st' : PState) :
  pstate_ok st -> text_run text_ st = Ok st' -> pstate_ok st'.
Proof.
  intros [Hh Hs]. unfold text_run, top.
  destruct (truthy (strip text_)); [|intros H; injection H as <-; now split].
  destruct (decode_entities text_) as [r| |]; cbn [rbind]; try discriminate.
  destruct (stack st) as [|t stk] eqn:Es; cbn [rbind]; [discriminate|].
  intros H. injection H as <-. split; cbn [heap stack].
  - now apply heap_ok_alter_text.
  - rewrite length_alter. rewrite ?Es in Hs. exact Hs.
Qed.

Lemma parse_loop_ok (fuel : nat) :
  forall (html : str) (st st' : PState),
    pstate_ok st -> parse_loop fuel html st = Ok st' -> pstate_ok st'.
Proof.
  induction fuel as [|fuel IH]; intros html st st' Hok; [discriminate|].
  destruct html as [|c html']; cbn [parse_loop].
  { intros H. now injection H as <-. }
  destruct (c =? 60)%Z.
  - destruct (find_char 62 (c :: html')) as [e|];
      [|intros H; now injection H as <-].
    destruct (startswith _ (lit "!")); [now apply IH|].
    destruct (startswith _ (lit "/")).
    + apply IH. now apply close_tag_ok.
    + destruct (open_tag _ st) as [st1| |] eqn:E; cbn [rbind];
        try discriminate.
      apply IH. eapply open_tag_ok; eassumption.
  - destruct (text_run _ st) as [st1| |] eqn:E; cbn [rbind]; try discriminate.
    apply IH. eapply text_run_ok; eassumption.
Qed.

(** With references that point forward, the fuel of [reify] from the
    object [id] need only cover the objects allocated from [id] on. *)
Lemma reify_fuel (h : list Node) :
  heap_ok h ->
  forall (fuel1 fuel2 id : nat),
    length h - id <= fuel1 -> length h - id <= fuel2 ->
    reify fuel1 h id = reify fuel2 h id.
Proof.
  intros Hok. induction fuel1 as [|fuel1 IH]; intros fuel2 id H1 H2.
  - assert (Hid : length h <= id) by lia.
    destruct fuel2 as [|fuel2]; [reflexivity|]. cbn [reify].
    now rewrite (lookup_ge_None_2 h id Hid).
  - cbn [reify]. destruct (h !! id) as [n|] eqn:E.
    + pose proof (lookup_lt_Some _ _ _ E) as Hlt.
      destruct fuel2 as [|fuel2]; [lia|]. cbn [reify]. rewrite E.
      f_equal. apply map_ext_in. intros c Hc.
      pose proof (Hok id n E) as Hch. rewrite List.Forall_forall in Hch.
      specialize (Hch c Hc). apply IH; lia.
    + destruct fuel2 as [|fuel2]; [reflexivity|]. cbn [reify]. now rewrite E.
Qed.

(** The tree that [parse_html] returns is the whole tree below the root:
    more fuel for [reify] gives the same tree. *)
Lemma parse_html_tree_complete (html : str) (st : PState) (extra : nat) :
  parse_loop (S (length html)) html parse_init = Ok st ->
  parse_html html = Ok (reify (length (heap st) + extra) (heap st) root_id).
Proof.
  intros Hloop. unfold parse_html. rewrite Hloop. cbn [rbind]. f_equal.
  assert (Hok : pstate_ok st).
  { eapply parse_loop_ok; [|exact Hloop]. split.
    - intros id n Hn. destruct id as [|id]; [|discriminate].
      injection Hn as <-. constructor.
    - repeat constructor. }
  apply reify_fuel; [apply Hok|lia|lia].
Qed.

(** ** HTTP responses *)

Lemma parse_http_response_no_separator (data : list Z) :
  find (crlf ++ crlf) data = None ->
  parse_http_response data = Ok (0%Z, lit "Invalid HTTP response").
Proof. unfold parse_http_response. now intros ->. Qed.

Lemma find_location_absent (lines : list str) :
  Forall (fun line => startswith (lower line) (lit "location:") = false) lines ->
  find_location lines = None.
Proof.
  induction 1 as [|line lines Hl _ IH]; [reflexivity|].
  cbn [find_location]. now rewrite Hl.
Qed.

(** A redirect status without a [Location] header: the body is returned. *)
Lemma parse_http_response_redirect_body (data : list Z) (sep : nat)
    (line0 : str) (headers : list str) (status : Z) :
  find (crlf ++ crlf) data = Some sep ->
  split crlf (bytes_to_str (firstn sep data)) = line0 :: headers ->
  parse_status line0 = Ok status ->
  is_redirect status = true ->
  Forall (fun line => startswith (lower line) (lit "location:") = false)
         headers ->
  parse_http_response data = Ok (status, bytes_to_str (skipn (sep + 4) data)).
Proof.
  intros Hsep Hlines Hstatus Hred Hno. unfold parse_http_response.
  rewrite Hsep, Hlines. cbn [rbind]. rewrite Hstatus. cbn [rbind tl].
  now rewrite Hred, find_location_absent.
Qed.

(** C3 (the code at the failing input): a response whose status token is
    not a number is not surfaced as a status and a message:
    [parse_http_response] raises [ValueError]. *)
Theorem parse_http_response_non_numeric_status :
  parse_http_response (lit "HTTP/1.0 abc Bad" ++ crlf ++ crlf)
  = Raise ValueError.
Proof. vm_compute. reflexivity. Qed.

(** The malformed status lines that the code does guard: without a second
    token the status is 0. *)
Lemma parse_status_missing_token (line0 : str) :
  free_of 32 line0 -> parse_status line0 = Ok 0%Z.
Proof.
  intros Hfree. unfold parse_status.
  assert (Hsplit : forall cur, split_aux (lit " ") 0 cur line0
                               = [rev cur ++ line0]).
  { induction Hfree as [|c s Hc _ IH]; intros cur; cbn [split_aux].
    - now rewrite app_nil_r.
    - change (startswith (c :: s) (lit " ")) with ((32 =? c)%Z && true).
      destruct (32 =? c)%Z eqn:E; [apply Z.eqb_eq in E; congruence|].
      cbn [andb]. rewrite IH. cbn [rev]. now rewrite <- app_assoc. }
  unfold split. now rewrite Hsplit.
Qed.

(** ** URLs *)

Lemma is_absolute_nonempty (u : str) : is_absolute u = true -> u <> [].
Proof. intros H ->. discriminate. Qed.

Lemma resolve_url_absolute (base_url rel_url : str) :
  is_absolute rel_url = true -> resolve_url base_url rel_url = Ok rel_url.
Proof. unfold resolve_url. now intros ->. Qed.

Lemma parse_url_scheme (url_ : str) (u : ParsedUrl) :
  parse_url url_ = Ok u ->
  u_scheme u = lit "file" \/ u_scheme u = lit "https" \/ u_scheme u = lit "http".
Proof.
  unfold parse_url.
  destruct (startswith url_ (lit "file://")).
  { intros H. injection H as <-. now left. }
  destruct (startswith url_ (lit "https://")).
  { destruct (find_char 47 (skipn 8 url_)) as [p|];
      (destruct (find_char 58 _) as [c|];
       [destruct (int 10 _); simpl; intros H; inversion H; subst; simpl; auto
       |intros H; inversion H; subst; simpl; auto]). }
  destruct (startswith url_ (lit "http://")).
  { destruct (find_char 47 (skipn 7 url_)) as [p|];
      (destruct (find_char 58 _) as [c|];
       [destruct (int 10 _); simpl; intros H; inversion H; subst; simpl; auto
       |intros H; inversion H; subst; simpl; auto]). }
  destruct (find_char 47 url_) as [p|];
    (destruct (find_char 58 _) as [c|];
     [destruct (int 10 _); simpl; intros H; inversion H; subst; simpl; auto
     |intros H; inversion H; subst; simpl; auto]).
Qed.

(** [resolve_url] answers with a URL that carries a scheme. *)
Lemma resolve_url_is_absolute (base_url rel_url u : str) :
  resolve_url base_url rel_url = Ok u -> is_absolute u = true.
Proof.
  unfold resolve_url. destruct (is_absolute rel_url) eqn:Ea.
  { intros H. now injection H as <-. }
  destruct (parse_url base_url) as [pu| |] eqn:Ep; simpl; try discriminate.
  destruct (str_eqb (u_scheme pu) (lit "file")) eqn:Ef.
  { intros H. injection H as <-. reflexivity. }
  destruct (u_host pu) as [host|]; [|discriminate].
  destruct (u_port pu) as [port|]; [|discriminate].
  apply parse_url_scheme in Ep. apply str_eqb_neq in Ef.
  destruct Ep as [E|[E|E]]; [contradiction| |]; rewrite E;
    intros H; injection H as <-;
    match goal with |- context [if ?c then _ else _] => destruct c end;
    reflexivity.
Qed.

(** ** Navigation *)

Lemma navigate_unfold (w : World) (fuel : nat) (url_ : str)
    (from_back from_forward : bool) (b : Browser) :
  navigate w (S fuel) url_ from_back from_forward b =
  match resolve_url (url b) url_ with
  | Ok target =>
      let b1 := begin_navigation target from_back from_forward b in
      match fetch_url w target with
      | Ok (status, body) =>
          if is_redirect status then navigate w fuel body false false b1
          else show_document w status body b1
      | Raise e => Exc e b1
      | OutOfFuel => NoFuel
      end
  | Raise e => Exc e b
  | OutOfFuel => NoFuel
  end.
Proof.
  cbn [navigate]. destruct (resolve_url (url b) url_) as [target| |];
    try reflexivity.
  cbn [lift obind]. fold (begin_navigation target from_back from_forward b).
  destruct (fetch_url w target) as [[status body]| |]; reflexivity.
Qed.

(** The state in which [show_document] ends. *)
Lemma show_document_after (w : World) (status : Z) (body : str) (b : Browser) :
  after (show_document w status body b)
        (fun b' => url b' = url b /\ history b' = history b
                   /\ forward_history b' = forward_history b
                   /\ scroll_y b' = scroll_y b /\ content_h b' = content_h b
                   /\ kiosk_mode b' = kiosk_mode b
                   /\ content_y b' = content_y b).
Proof.
  unfold show_document.
  destruct (parse_html _) as [root| |]; cbn [lift obind after]; auto 10.
  destruct (layout_document _ _ _) as [[blocks_ links_] ch].
  unfold draw, draw_scrollbar.
  repeat match goal with |- context [if ?c then _ else _] => destruct c end;
    cbn; auto 10.
Qed.

(** With a viewport of non-negative height [show_document] returns, and
    [max_scroll] is the bound of the new document. *)
Lemma show_document_returns (w : World) (status : Z) (body : str) (b : Browser) :
  (0 <= content_h b)%Z ->
  exists b', show_document w status body b = Ret tt b'
             /\ max_scroll_current b'.
Proof.
  intros Hh. unfold show_document.
  destruct (parse_html_total
              (if negb (status =? 200)%Z then error_page status body else body))
    as [root ->].
  cbn [lift obind].
  destruct (layout_document _ _ _) as [[blocks_ links_] ch].
  unfold draw, draw_scrollbar. cbn.
  destruct (Z.max 0 (ch - content_h b) <=? 0)%Z eqn:E1.
  { eexists; split; [reflexivity|]. reflexivity. }
  destruct (ch =? 0)%Z eqn:E2.
  { apply Z.leb_gt in E1. apply Z.eqb_eq in E2. lia. }
  eexists; split; [reflexivity|]. reflexivity.
Qed.

(** ** A port that is not a number *)

(** The authority [host:port] of a URL is split at its first colon, and
    the port goes through [int]. *)
Lemma parse_url_bad_port (prefix host port path : str) :
  prefix = lit "http://" \/ prefix = lit "https://" ->
  free_of 47 host -> free_of 58 host -> free_of 47 port ->
  path = [] \/ startswith path (lit "/") = true ->
  int 10 port = Raise ValueError ->
  parse_url (prefix ++ host ++ 58%Z :: port ++ path) = Raise ValueError.
Proof.
  intros Hprefix Hh47 Hh58 Hp47 Hpath Hint.
  assert (Hauth : forall rest,
             rest = host ++ 58%Z :: port ++ path ->
             (let '(host_port, path_) :=
                match find_char 47 rest with
                | None => (rest, lit "/")
                | Some slash_pos => (firstn slash_pos rest, skipn slash_pos rest)
                end in host_port) = host ++ 58%Z :: port).
  { intros rest ->.
    rewrite (find_char_app_free 47 host) by assumption.
    rewrite find_char_cons. change (47 =? 58)%Z with false. cbv iota.
    destruct Hpath as [->|Hpath].
    - rewrite app_nil_r, (find_char_free 47 port) by assumption.
      reflexivity.
    - destruct (startswith_prefix _ _ Hpath) as [p ->].
      change (lit "/" ++ p) with (47%Z :: p).
      rewrite (find_char_app 47 port p) by assumption. cbn [option_map].
      replace (host ++ 58%Z :: port ++ 47%Z :: p)
        with ((host ++ 58%Z :: port) ++ 47%Z :: p)
        by (now rewrite <- app_assoc).
      rewrite firstn_app.
      replace (length host + S (length port)) with (length (host ++ 58%Z :: port))
        by (rewrite length_app; reflexivity).
      now rewrite firstn_all, Nat.sub_diag, app_nil_r. }
  assert (Hport : forall scheme default_port path_,
             match find_char 58 (host ++ 58%Z :: port) with
             | None =>
                 Ok {| u_scheme := scheme; u_host := Some (host ++ 58%Z :: port);
                       u_port := Some default_port; u_path := path_ |}
             | Some colon_pos =>
                 let* port_ := int 10 (skipn (colon_pos + 1)
                                             (host ++ 58%Z :: port)) in
                 Ok {| u_scheme := scheme;
                       u_host := Some (firstn colon_pos (host ++ 58%Z :: port));
                       u_port := Some port_; u_path := path_ |}
             end = Raise ValueError).
  { intros scheme default_port path_.
    rewrite (find_char_app 58 host port) by assumption.
    replace (length host + 1) with (length host + 1 + 0) by lia.
    rewrite skipn_app, skipn_all2 by lia.
    replace (length host + 1 + 0 - length host) with 1 by lia.
    change ([] ++ skipn 1 (58%Z :: port)) with port. now rewrite Hint. }
  unfold parse_url.
  destruct Hprefix as [-> | ->].
  - change (startswith (lit "http://" ++ host ++ 58%Z :: port ++ path)
                       (lit "file://")) with false.
    change (startswith (lit "http://" ++ host ++ 58%Z :: port ++ path)
                       (lit "https://")) with false.
    change (startswith (lit "http://" ++ host ++ 58%Z :: port ++ path)
                       (lit "http://")) with true.
    cbv iota beta.
    change (skipn 7 (lit "http://" ++ host ++ 58%Z :: port ++ path))
      with (host ++ 58%Z :: port ++ path).
    specialize (Hauth _ eq_refl).
    destruct (find_char 47 (host ++ 58%Z :: port ++ path)); cbv iota beta in *;
      rewrite Hauth; apply Hport.
  - change (startswith (lit "https://" ++ host ++ 58%Z :: port ++ path)
                       (lit "file://")) with false.
    change (startswith (lit "https://" ++ host ++ 58%Z :: port ++ path)
                       (lit "https://")) with true.
    cbv iota beta.
    change (skipn 8 (lit "https://" ++ host ++ 58%Z :: port ++ path))
      with (host ++ 58%Z :: port ++ path).
    specialize (Hauth _ eq_refl).
    destruct (find_char 47 (host ++ 58%Z :: port ++ path)); cbv iota beta in *;
      rewrite Hauth; apply Hport.
Qed.

Lemma fetch_url_parse_error (w : World) (target : str) (e : exn) :
  str_eqb target (lit "about:home") = false ->
  str_eqb target (lit "about:blank") = false ->
  parse_url target = Raise e -> fetch_url w target = Raise e.
Proof. unfold fetch_url. now intros -> -> ->. Qed.

(** A fetch that raises leaves [navigate] at once: nothing in [navigate]
    catches it. *)
Lemma navigate_fetch_error (w : World) (fuel : nat) (target : str)
    (from_back from_forward : bool) (b : Browser) (e : exn) :
  is_absolute target = true -> fetch_url w target = Raise e ->
  navigate w (S fuel) target from_back from_forward b
  = Exc e (begin_navigation target from_back from_forward b).
Proof.
  intros Habs Hfetch. rewrite navigate_unfold.
  rewrite resolve_url_absolute by assumption. cbv zeta. now rewrite Hfetch.
Qed.

(** C1 (as amended): a URL whose port [int] rejects makes [parse_url]
    raise [ValueError].  Nothing catches it: the fetch raises, [navigate]
    is left by the exception after it has made the URL the current one
    and done its history bookkeeping, and the exception leaves [run] and
    its event loop, so that the controller stops. *)
Theorem non_numeric_port_escapes (w : World) (prefix host port path : str) :
  prefix = lit "http://" \/ prefix = lit "https://" ->
  free_of 47 host -> free_of 58 host -> free_of 47 port ->
  path = [] \/ startswith path (lit "/") = true ->
  int 10 port = Raise ValueError ->
  let target := prefix ++ host ++ 58%Z :: port ++ path in
  parse_url target = Raise ValueError
  /\ fetch_url w target = Raise ValueError
  /\ (forall (fuel : nat) (from_back from_forward : bool) (b : Browser),
        navigate w (S fuel) target from_back from_forward b
        = Exc ValueError (begin_navigation target from_back from_forward b))
  /\ (forall (fuel : nat) (polls : list (option Event)) (b : Browser),
        (0 <= window_create w)%Z ->
        run w (S fuel) target polls b
        = Exc ValueError
              (begin_navigation target false false
                                (set_wid (window_create w) b)))
  /\ (forall (fuel : nat) (polls : list (option Event)) (b : Browser),
        editing_url b = true -> address_text b = target ->
        event_loop w (S fuel) (Some (WIN_EVENT_KEY 13) :: polls) b
        = Exc ValueError
              (begin_navigation target false false (set_editing_url false b))).
Proof.
  intros Hprefix Hh47 Hh58 Hp47 Hpath Hint target.
  assert (Hparse : parse_url target = Raise ValueError)
    by now apply parse_url_bad_port.
  assert (Habs : is_absolute target = true)
    by (subst target; destruct Hprefix as [-> | ->]; reflexivity).
  assert (Hfetch : fetch_url w target = Raise ValueError).
  { apply fetch_url_parse_error; [| |assumption];
      subst target; destruct Hprefix as [-> | ->]; reflexivity. }
  assert (Hnav : forall fuel fb ff b,
             navigate w (S fuel) target fb ff b
             = Exc ValueError (begin_navigation target fb ff b))
    by (intros; now apply navigate_fetch_error).
  repeat split; try assumption.
  - intros fuel polls b Hwid. unfold run.
    replace (wid (set_wid (window_create w) b) <? 0)%Z with false
      by (symmetry; apply Z.ltb_ge; exact Hwid).
    now rewrite Hnav.
  - intros fuel polls b Hedit Haddr.
    cbn [event_loop dispatch]. unfold handle_key. rewrite Hedit.
    cbn [Z.eqb orb]. change (address_text (set_editing_url false b))
      with (address_text b). rewrite Haddr. now rewrite Hnav.
Qed.

Lemma non_numeric_port_escapes_witness :
  parse_url (lit "http://a.com:abc/x") = Raise ValueError
  /\ run sample_world 1 (lit "http://a.com:abc/x") [] (new_Browser false)
     = Exc ValueError
           (begin_navigation (lit "http://a.com:abc/x") false false
                             (set_wid 7 (new_Browser false))).
Proof.
  assert (H : lit "http://" = lit "http://" \/ lit "http://" = lit "https://")
    by (left; reflexivity).
  assert (Hh47 : free_of 47 (lit "a.com")) by (vm_compute; free_of_tac).
  assert (Hh58 : free_of 58 (lit "a.com")) by (vm_compute; free_of_tac).
  assert (Hp47 : free_of 47 (lit "abc")) by (vm_compute; free_of_tac).
  assert (Hpath : lit "/x" = [] \/ startswith (lit "/x") (lit "/") = true)
    by (right; reflexivity).
  assert (Hint : int 10 (lit "abc") = Raise ValueError) by reflexivity.
  pose proof (non_numeric_port_escapes sample_world (lit "http://")
                (lit "a.com") (lit "abc") (lit "/x") H Hh47 Hh58 Hp47 Hpath Hint)
    as (Hparse & _ & _ & Hrun & _).
  split; [exact Hparse|].
  apply (Hrun 0 [] (new_Browser false)). vm_compute. discriminate.
Defined.

(** The claim as it was written fails: at the welcome page the user
    clicks the address bar, replaces its text by a URL with the port [b]
    and presses Enter; the exception leaves the event loop, and the
    events that follow are never served. *)
Lemma bad_port_stops_controller :
  exists b,
    run sample_world 2 (lit "about:home")
        ([Some (WIN_EVENT_MOUSE_DOWN 100 10)]
         ++ repeat (Some (WIN_EVENT_KEY 8)) 10
         ++ type_keys (lit "http://a:b")
         ++ [Some (WIN_EVENT_KEY 13); Some (WIN_EVENT_KEY 257);
             Some WIN_EVENT_CLOSE])
        (new_Browser false)
    = Exc ValueError b
    /\ url b = lit "http://a:b"
    /\ history b = [lit "about:home"].
Proof. eexists. vm_compute. repeat split; reflexivity. Qed.

(** ** History bookkeeping *)

Lemma record_history_frame (from_back from_forward : bool) (b : Browser) :
  url (record_history from_back from_forward b) = url b
  /\ content_h (record_history from_back from_forward b) = content_h b
  /\ max_scroll (record_history from_back from_forward b) = max_scroll b
  /\ scroll_y (record_history from_back from_forward b) = scroll_y b.
Proof.
  unfold record_history.
  destruct (truthy (url b)), from_forward, from_back; repeat split.
Qed.

Lemma truthy_nonempty (s : str) : truthy s = true <-> s <> [].
Proof. destruct s; simpl; split; congruence. Qed.

Lemma record_history_plain (b : Browser) :
  url b <> [] ->
  history (record_history false false b) = url b :: history b
  /\ forward_history (record_history false false b) = [].
Proof.
  intros Hu. unfold record_history.
  apply truthy_nonempty in Hu. rewrite Hu. cbn. auto.
Qed.

Lemma begin_navigation_fields (target : str) (from_back from_forward : bool)
    (b : Browser) :
  let b1 := begin_navigation target from_back from_forward b in
  url b1 = target
  /\ history b1 = history (record_history from_back from_forward b)
  /\ forward_history b1
     = forward_history (record_history from_back from_forward b)
  /\ scroll_y b1 = 0%Z
  /\ content_h b1 = content_h b
  /\ max_scroll b1 = max_scroll b.
Proof.
  destruct (record_history_frame from_back from_forward b) as (_ & Hh & Hm & _).
  cbn. auto 10.
Qed.

(** A navigation whose fetch answers with a status that is no redirect
    returns; the URL fetched is the current one. *)
Lemma navigate_direct (w : World) (fuel : nat) (url_ target : str)
    (from_back from_forward : bool) (b : Browser) (status : Z) (body : str) :
  resolve_url (url b) url_ = Ok target ->
  fetch_url w target = Ok (status, body) ->
  is_redirect status = false ->
  (0 <= content_h b)%Z ->
  exists b',
    navigate w (S fuel) url_ from_back from_forward b = Ret tt b'
    /\ url b' = target
    /\ history b' = history (record_history from_back from_forward b)
    /\ forward_history b'
       = forward_history (record_history from_back from_forward b)
    /\ scroll_y b' = 0%Z
    /\ content_h b' = content_h b
    /\ max_scroll_current b'.
Proof.
  intros Hres Hfetch Hred Hh. rewrite navigate_unfold, Hres. cbv zeta.
  rewrite Hfetch, Hred.
  destruct (begin_navigation_fields target from_back from_forward b)
    as (Hu & Hhist & Hfwd & Hs & Hch & _).
  set (b1 := begin_navigation target from_back from_forward b) in *.
  destruct (show_document_returns w status body b1) as (b' & Hshow & Hmax);
    [lia|].
  pose proof (show_document_after w status body b1) as Hafter.
  rewrite Hshow in Hafter. cbn [after] in Hafter.
  destruct Hafter as (H1 & H2 & H3 & H4 & H5 & _).
  exists b'. rewrite Hshow. repeat split; congruence.
Qed.

(** A navigation whose fetch answers with a redirect status starts over,
    as a plain navigation, with what the fetch returned as its URL. *)
Lemma navigate_redirect (w : World) (fuel : nat) (url_ target : str)
    (from_back from_forward : bool) (b : Browser) (status : Z) (body : str) :
  resolve_url (url b) url_ = Ok target ->
  fetch_url w target = Ok (status, body) ->
  is_redirect status = true ->
  navigate w (S fuel) url_ from_back from_forward b
  = navigate w fuel body false false
             (begin_navigation target from_back from_forward b).
Proof.
  intros Hres Hfetch Hred. rewrite navigate_unfold, Hres. cbv zeta.
  now rewrite Hfetch, Hred.
Qed.

(** C10: a response with a redirect status and no [Location] header is
    parsed on the normal path, which returns the status and the whole
    decoded body; [navigate] then starts over with that body as the URL
    to go to. *)
Theorem redirect_without_location :
  (forall (data : list Z) (sep : nat) (line0 : str) (headers : list str)
          (status : Z),
      find (crlf ++ crlf) data = Some sep ->
      split crlf (bytes_to_str (firstn sep data)) = line0 :: headers ->
      parse_status line0 = Ok status ->
      is_redirect status = true ->
      Forall (fun line => startswith (lower line) (lit "location:") = false)
             headers ->
      parse_http_response data
      = Ok (status, bytes_to_str (skipn (sep + 4) data)))
  /\ (forall (w : World) (fuel : nat) (url_ target : str)
             (from_back from_forward : bool) (b : Browser) (status : Z)
             (body : str),
        resolve_url (url b) url_ = Ok target ->
        fetch_url w target = Ok (status, body) ->
        is_redirect status = true ->
        navigate w (S fuel) url_ from_back from_forward b
        = navigate w fuel body false false
                   (begin_navigation target from_back from_forward b)).
Proof.
  split; [exact parse_http_response_redirect_body|exact navigate_redirect].
Qed.

Lemma redirect_without_location_witness :
  parse_http_response (sample_response (lit "GET /hop HTTP/1.0"))
  = Ok (301%Z, lit "/new")
  /\ navigate sample_world 2 (lit "http://a.com/hop") false false
              (new_Browser false)
     = navigate sample_world 1 (lit "/new") false false
                (begin_navigation (lit "http://a.com/hop") false false
                                  (new_Browser false)).
Proof.
  destruct redirect_without_location as [Hparse Hnav]. split.
  - apply (Hparse (sample_response (lit "GET /hop HTTP/1.0")) 29
                  (lit "HTTP/1.0 301 Moved") [lit "Server: x"] 301%Z);
      try reflexivity.
    constructor; [reflexivity|constructor].
  - apply (Hnav sample_world 1 (lit "http://a.com/hop") (lit "http://a.com/hop")
                false false (new_Browser false) 301%Z (lit "/new"));
      reflexivity.
Defined.

(** C4: from a controller with no current URL and empty history stacks,
    navigating to [http://a.com/old], whose fetch answers 302 with the
    location [/new], ends at the current URL [http://a.com/new] with
    exactly one entry, [http://a.com/old], on the back stack. *)
Theorem redirect_single_history_entry (w : World) (fuel : nat) (b : Browser)
    (status : Z) (body : str) :
  url b = [] -> history b = [] -> forward_history b = [] ->
  (0 <= content_h b)%Z ->
  fetch_url w (lit "http://a.com/old") = Ok (302%Z, lit "/new") ->
  fetch_url w (lit "http://a.com/new") = Ok (status, body) ->
  is_redirect status = false ->
  exists b',
    navigate w (S (S fuel)) (lit "http://a.com/old") false false b = Ret tt b'
    /\ url b' = lit "http://a.com/new"
    /\ history b' = [lit "http://a.com/old"]
    /\ forward_history b' = [].
Proof.
  intros Hu Hh Hf Hch Hold Hnew Hred.
  rewrite (navigate_redirect w (S fuel) _ (lit "http://a.com/old") false false
             b 302%Z (lit "/new")); [|now rewrite Hu|assumption|reflexivity].
  set (b1 := begin_navigation (lit "http://a.com/old") false false b).
  destruct (begin_navigation_fields (lit "http://a.com/old") false false b)
    as (Hu1 & Hh1 & Hf1 & _ & Hch1 & _). fold b1 in Hu1, Hh1, Hf1, Hch1.
  assert (Hrec : record_history false false b = b)
    by (unfold record_history; now rewrite Hu).
  rewrite Hrec in Hh1, Hf1.
  destruct (navigate_direct w fuel (lit "/new") (lit "http://a.com/new")
              false false b1 status body)
    as (b' & Hnav & Hu' & Hh' & Hf' & _); try assumption.
  { now rewrite Hu1. }
  { lia. }
  exists b'. split; [exact Hnav|]. split; [exact Hu'|].
  destruct (record_history_plain b1) as [Hp1 Hp2];
    [rewrite Hu1; discriminate|].
  rewrite Hp1, Hu1, Hh1, Hh in Hh'. rewrite Hp2 in Hf'. auto.
Qed.

Lemma redirect_single_history_entry_witness :
  exists b',
    navigate sample_world 2 (lit "http://a.com/old") false false
             (new_Browser false) = Ret tt b'
    /\ url b' = lit "http://a.com/new"
    /\ history b' = [lit "http://a.com/old"]
    /\ forward_history b' = [].
Proof.
  apply (redirect_single_history_entry sample_world 0 (new_Browser false)
           200%Z (lit "<p>hello world</p>")); try reflexivity.
  vm_compute. discriminate.
Defined.

(** ** Back and forward *)

Lemma record_history_empty (from_back from_forward : bool) (b : Browser) :
  url b = [] -> record_history from_back from_forward b = b.
Proof. unfold record_history. now intros ->. Qed.

Lemma record_history_absolute (from_back from_forward : bool) (b : Browser) :
  urls_absolute b ->
  Forall (fun u => is_absolute u = true)
         (history (record_history from_back from_forward b))
  /\ Forall (fun u => is_absolute u = true)
            (forward_history (record_history from_back from_forward b)).
Proof.
  intros (Hh & Hf & Hu & _). unfold record_history.
  destruct (truthy (url b)) eqn:Et; [|auto].
  apply truthy_nonempty in Et. destruct Hu as [Hu|Hu]; [contradiction|].
  destruct from_forward; [cbn; auto|].
  destruct from_back; cbn; auto.
Qed.

(** [navigate] keeps the remembered URLs absolute, and ends at one. *)
Lemma navigate_urls_absolute (w : World) (fuel : nat) :
  forall (url_ : str) (from_back from_forward : bool) (b b' : Browser),
    urls_absolute b ->
    navigate w fuel url_ from_back from_forward b = Ret tt b' ->
    urls_absolute b' /\ is_absolute (url b') = true.
Proof.
  induction fuel as [|fuel IH]; intros url_ fb ff b b' Habs Hnav;
    [discriminate|].
  rewrite navigate_unfold in Hnav.
  destruct (resolve_url (url b) url_) as [target| |] eqn:Hres;
    try discriminate.
  apply resolve_url_is_absolute in Hres. cbv zeta in Hnav.
  destruct (begin_navigation_fields target fb ff b)
    as (Hu1 & Hh1 & Hf1 & _ & Hch1 & _).
  destruct (record_history_absolute fb ff b Habs) as [Hha Hfa].
  set (b1 := begin_navigation target fb ff b) in *.
  assert (Habs1 : urls_absolute b1).
  { destruct Habs as (_ & _ & _ & Hch).
    repeat split; [now rewrite Hh1|now rewrite Hf1| |lia].
    right. now rewrite Hu1. }
  destruct (fetch_url w target) as [[status body]| |]; try discriminate.
  destruct (is_redirect status); [now apply (IH body false false b1)|].
  pose proof (show_document_after w status body b1) as Hafter.
  rewrite Hnav in Hafter. cbn [after] in Hafter.
  destruct Hafter as (E1 & E2 & E3 & _ & E5 & _).
  destruct Habs1 as (A1 & A2 & _ & A4).
  rewrite <- E2 in A1. rewrite <- E3 in A2. rewrite <- E5 in A4.
  assert (Hu' : is_absolute (url b') = true) by now rewrite E1, Hu1.
  repeat split; auto.
Qed.

(** In a reachable state the remembered URLs are absolute, and a current
    URL exists whenever a history stack is not empty. *)
Lemma reachable_invariant (w : World) (b : Browser) :
  reachable w b ->
  urls_absolute b
  /\ (history b <> [] \/ forward_history b <> [] -> is_absolute (url b) = true).
Proof.
  induction 1 as [kiosk|fuel url_ b b' _ [IHa IHu] Hnav
                  |fuel b b' _ [IHa IHu] Hback|fuel b b' _ [IHa IHu] Hfwd].
  - split.
    + unfold urls_absolute. cbn.
      split; [constructor|]. split; [constructor|]. split; [now left|].
      destruct kiosk; unfold WIN_H, ADDRESS_BAR_H; lia.
    + cbn. intros [H|H]; congruence.
  - destruct (navigate_urls_absolute w fuel _ _ _ _ _ IHa Hnav). auto.
  - unfold back in Hback. destruct (history b) as [|target rest] eqn:Eh.
    + injection Hback as <-. rewrite Eh. auto.
    + assert (Hu : is_absolute (url b) = true) by (apply IHu; left; congruence).
      destruct IHa as (A1 & A2 & _ & A4).
      rewrite Eh in A1. inversion A1 as [|? ? Ht Hr]; subst.
      edestruct (navigate_urls_absolute w fuel) as [H1 H2]; [|exact Hback|auto].
      unfold urls_absolute. cbn. auto.
  - unfold forward in Hfwd. destruct (forward_history b) as [|target rest] eqn:Ef.
    + injection Hfwd as <-. rewrite Ef. auto.
    + assert (Hu : is_absolute (url b) = true) by (apply IHu; right; congruence).
      destruct IHa as (A1 & A2 & _ & A4).
      rewrite Ef in A2. inversion A2 as [|? ? Ht Hr]; subst.
      edestruct (navigate_urls_absolute w fuel) as [H1 H2]; [|exact Hfwd|auto].
      unfold urls_absolute. cbn. auto.
Qed.

(** A plain navigation made while a current URL exists ends with an empty
    forward stack. *)
Lemma navigate_plain_clears_forward (w : World) (fuel : nat) :
  forall (url_ : str) (b b' : Browser),
    url b <> [] ->
    navigate w fuel url_ false false b = Ret tt b' ->
    forward_history b' = [].
Proof.
  induction fuel as [|fuel IH]; intros url_ b b' Hu Hnav; [discriminate|].
  rewrite navigate_unfold in Hnav.
  destruct (resolve_url (url b) url_) as [target| |] eqn:Hres;
    try discriminate.
  apply resolve_url_is_absolute, is_absolute_nonempty in Hres.
  cbv zeta in Hnav.
  destruct (begin_navigation_fields target false false b)
    as (Hu1 & _ & Hf1 & _).
  set (b1 := begin_navigation target false false b) in *.
  assert (Hf : forward_history b1 = []).
  { rewrite Hf1. unfold record_history.
    apply truthy_nonempty in Hu. now rewrite Hu. }
  destruct (fetch_url w target) as [[status body]| |]; try discriminate.
  destruct (is_redirect status).
  - apply (IH body b1); [now rewrite Hu1|assumption].
  - pose proof (show_document_after w status body b1) as Hafter.
    rewrite Hnav in Hafter. cbn [after] in Hafter.
    destruct Hafter as (_ & _ & E3 & _). congruence.
Qed.

(** [back] then [forward], when neither fetch is redirected. *)
Lemma back_then_forward (w : World) (fuel1 fuel2 : nat) (b : Browser)
    (target : str) (rest : list str) (s1 s2 : Z) (body1 body2 : str) :
  reachable w b -> history b = target :: rest ->
  fetch_url w target = Ok (s1, body1) -> is_redirect s1 = false ->
  fetch_url w (url b) = Ok (s2, body2) -> is_redirect s2 = false ->
  exists b1 b2,
    back w (S fuel1) b = Ret tt b1
    /\ forward w (S fuel2) b1 = Ret tt b2
    /\ url b1 = target
    /\ url b2 = url b
    /\ history b2 = history b
    /\ forward_history b2 = forward_history b.
Proof.
  intros Hreach Hh Hf1 Hr1 Hf2 Hr2.
  destruct (reachable_invariant w b Hreach) as [(A1 & A2 & _ & A4) Hu].
  assert (Habs : is_absolute (url b) = true) by (apply Hu; left; congruence).
  assert (Htarget : is_absolute target = true)
    by (rewrite Hh in A1; now inversion A1).
  unfold back. rewrite Hh.
  set (b0 := set_url [] (set_history rest
                (set_forward_history (url b :: forward_history b) b))).
  destruct (navigate_direct w fuel1 target target true false b0 s1 body1)
    as (b1 & Hnav1 & U1 & H1 & F1 & _ & C1 & _); try assumption.
  { now apply resolve_url_absolute. }
  rewrite record_history_empty in H1, F1 by reflexivity.
  cbn in H1, F1, C1.
  exists b1. unfold forward. rewrite F1.
  set (b0' := set_url [] (set_history (url b1 :: history b1)
                 (set_forward_history (forward_history b) b1))).
  destruct (navigate_direct w fuel2 (url b) (url b) false true b0' s2 body2)
    as (b2 & Hnav2 & U2 & H2 & F2 & _); try assumption.
  { now apply resolve_url_absolute. }
  { cbn. lia. }
  rewrite record_history_empty in H2, F2 by reflexivity.
  cbn in H2, F2.
  exists b2. repeat split; try assumption. congruence.
Qed.


Lemma reachable_visited_x : reachable sample_world visited_x.
Proof.
  apply (reach_navigate sample_world 2 (lit "http://a.com/x") visited_old);
    [|vm_compute; reflexivity].
  apply (reach_navigate sample_world 2 (lit "http://a.com/old")
                        (new_Browser false));
    [apply reach_new|vm_compute; reflexivity].
Defined.

Lemma reachable_went_back : reachable sample_world went_back.
Proof.
  apply (reach_back sample_world 2 visited_x);
    [apply reachable_visited_x|vm_compute; reflexivity].
Defined.



(** ** The scroll offset *)

Lemma draw_cases (b : Browser) :
  draw b = Ret tt b \/ draw b = Exc ZeroDivisionError b.
Proof.
  unfold draw, draw_scrollbar.
  destruct (max_scroll b <=? 0)%Z; [now left|].
  destruct (content_height b =? 0)%Z; [now right|now left].
Qed.

Lemma after_draw (b : Browser) (P : Browser -> Prop) : P b -> after (draw b) P.
Proof. intros H. now destruct (draw_cases b) as [-> | ->]. Qed.

Lemma after_draw_then {A} (b : Browser) (a : A) (P : Browser -> Prop) :
  P b -> after (obind (draw b) (fun _ b' => Ret a b')) P.
Proof. intros H. now destruct (draw_cases b) as [-> | ->]. Qed.

(** [show_document] ends with [max_scroll] set for the new document. *)
Lemma show_document_scroll (w : World) (status : Z) (body : str) (b : Browser) :
  after (show_document w status body b)
        (fun b' => max_scroll_current b' /\ scroll_y b' = scroll_y b).
Proof.
  unfold show_document.
  destruct (parse_html_total
              (if negb (status =? 200)%Z then error_page status body else body))
    as [root ->].
  cbn [lift obind].
  destruct (layout_document _ _ _) as [[blocks_ links_] ch].
  apply after_draw. split; reflexivity.
Qed.

Lemma scroll_inv_at_top (b : Browser) :
  scroll_y b = 0%Z -> max_scroll_current b -> scroll_inv b.
Proof.
  intros Hs Hm. split; [|assumption].
  unfold scroll_in_bound, scroll_bound. lia.
Qed.

(** A navigation that returns ends at offset 0 with [max_scroll] set for
    the new document. *)
Lemma navigate_ret_scroll (w : World) (fuel : nat) :
  forall (url_ : str) (from_back from_forward : bool) (b b' : Browser),
    navigate w fuel url_ from_back from_forward b = Ret tt b' ->
    scroll_inv b'.
Proof.
  induction fuel as [|fuel IH]; intros url_ fb ff b b' Hnav; [discriminate|].
  rewrite navigate_unfold in Hnav.
  destruct (resolve_url (url b) url_) as [target| |]; try discriminate.
  cbv zeta in Hnav.
  destruct (fetch_url w target) as [[status body]| |]; try discriminate.
  destruct (is_redirect status); [now apply IH in Hnav|].
  pose proof (show_document_scroll w status body
                (begin_navigation target fb ff b)) as Hafter.
  rewrite Hnav in Hafter. cbn [after] in Hafter. destruct Hafter as [Hm Hs].
  apply scroll_inv_at_top; [|assumption]. rewrite Hs.
  apply begin_navigation_fields.
Qed.

Lemma begin_navigation_scroll (target : str) (from_back from_forward : bool)
    (b : Browser) :
  max_scroll_current b ->
  scroll_inv (begin_navigation target from_back from_forward b).
Proof.
  intros Hm. apply scroll_inv_at_top; [apply begin_navigation_fields|].
  unfold max_scroll_current, scroll_bound in *.
  unfold begin_navigation, record_history.
  destruct (truthy (url b)), from_forward, from_back; cbn; exact Hm.
Qed.

(** However a navigation ends, the offset is within the bound. *)
Lemma navigate_after_scroll (w : World) (fuel : nat) :
  forall (url_ : str) (from_back from_forward : bool) (b : Browser),
    scroll_inv b ->
    after (navigate w fuel url_ from_back from_forward b) scroll_inv.
Proof.
  induction fuel as [|fuel IH]; intros url_ fb ff b Hinv; [exact I|].
  rewrite navigate_unfold.
  destruct (resolve_url (url b) url_) as [target| |]; cbn [after]; auto.
  cbv zeta.
  pose proof (begin_navigation_scroll target fb ff b (proj2 Hinv)) as Hinv1.
  assert (Hs1 : scroll_y (begin_navigation target fb ff b) = 0%Z)
    by apply begin_navigation_fields.
  set (b1 := begin_navigation target fb ff b) in *.
  destruct (fetch_url w target) as [[status body]| |]; cbn [after]; auto.
  destruct (is_redirect status); [now apply IH|].
  pose proof (show_document_scroll w status body b1) as Hafter.
  destruct (show_document w status body b1) as [[] b'|e b'|]; cbn [after] in *;
    auto; destruct Hafter as [Hm Hs]; (apply scroll_inv_at_top; [|assumption]);
    now rewrite Hs.
Qed.

Lemma handle_key_scroll (w : World) (fuel : nat) (key : Z) (b : Browser) :
  (0 <= content_h b)%Z -> scroll_inv b ->
  after (handle_key w fuel key b) scroll_inv.
Proof.
  intros Hch Hinv. unfold handle_key. destruct (editing_url b).
  - destruct ((key =? 13) || (key =? 10))%Z.
    + pose proof (navigate_after_scroll w fuel
                    (address_text (set_editing_url false b)) false false
                    (set_editing_url false b) Hinv) as Hnav.
      destruct (navigate w fuel _ false false (set_editing_url false b));
        exact Hnav.
    + destruct (key =? 27)%Z; [exact Hinv|].
      destruct ((key =? 8) || (key =? 127))%Z;
        [destruct (cursor_pos b >? 0)%Z; exact Hinv|].
      destruct ((key >=? 32) && (key <? 127))%Z; exact Hinv.
  - destruct Hinv as [[Hlo Hhi] Hm].
    unfold max_scroll_current, scroll_bound in *.
    destruct (key =? 27)%Z; [now repeat split|].
    destruct (key =? 256)%Z.
    { apply after_draw_then. unfold scroll_inv, scroll_in_bound,
        max_scroll_current, scroll_bound. cbn. lia. }
    destruct (key =? 257)%Z.
    { apply after_draw_then. unfold scroll_inv, scroll_in_bound,
        max_scroll_current, scroll_bound. cbn. lia. }
    destruct (key =? 265)%Z.
    { apply after_draw_then. unfold scroll_inv, scroll_in_bound,
        max_scroll_current, scroll_bound. cbn. lia. }
    destruct (key =? 266)%Z.
    { apply after_draw_then. unfold scroll_inv, scroll_in_bound,
        max_scroll_current, scroll_bound. cbn. lia. }
    now repeat split.
Qed.

Lemma handle_mouse_move_scroll (x y : Z) (b : Browser) :
  scroll_inv b -> after (handle_mouse_move x y b) scroll_inv.
Proof.
  intros Hinv. unfold handle_mouse_move.
  destruct (scrollbar_dragging b && (max_scroll b >? 0)%Z); [|exact Hinv].
  destruct (content_height b =? 0)%Z; [exact Hinv|].
  match goal with |- context [if (?t >? 0)%Z then _ else _] =>
    destruct (t >? 0)%Z end; [|exact Hinv].
  match goal with |- context [if negb ?c then _ else _] =>
    destruct (negb c) end; [|exact Hinv].
  apply after_draw. destruct Hinv as [[Hlo Hhi] Hm].
  unfold scroll_inv, scroll_in_bound, max_scroll_current, scroll_bound in *.
  cbn. lia.
Qed.

Lemma handle_resize_scroll (w : World) (new_w new_h : Z) (b : Browser) :
  current_html b <> [] -> (0 <= scroll_y b)%Z ->
  after (handle_resize w new_w new_h b) scroll_inv.
Proof.
  intros Hdoc Hlo. unfold handle_resize. cbn.
  apply truthy_nonempty in Hdoc. rewrite Hdoc.
  destruct (parse_html_total (current_html b)) as [root ->].
  cbn [lift obind].
  destruct (layout_document _ _ _) as [[blocks_ links_] ch]. cbn.
  match goal with |- context [if ?c then _ else _] => destruct c eqn:E end;
    apply after_draw;
    unfold scroll_inv, scroll_in_bound, max_scroll_current, scroll_bound;
    cbn; lia.
Qed.

Lemma handle_resize_empty (w : World) (new_w new_h : Z) (b : Browser) :
  current_html b = [] ->
  exists b', handle_resize w new_w new_h b = Ret tt b'
             /\ scroll_y b' = scroll_y b
             /\ max_scroll b' = max_scroll b
             /\ content_height b' = content_height b.
Proof.
  intros Hdoc. unfold handle_resize. cbn. rewrite Hdoc. cbn.
  eexists. split; [reflexivity|]. cbn. auto.
Qed.

(** What the handlers do keep.  When the scroll offset is within
    [[0, max(0, content_height - viewport_height)]] and the stored
    [max_scroll] is that bound, both are so again after key handling with
    a viewport of non-negative height and after a scrollbar drag; both are
    so after every navigation that returns and after every resize made
    while non-empty markup is retained.  A resize made while the retained
    markup is empty changes neither the offset nor [max_scroll]. *)
Lemma scroll_stays_in_bound (w : World) (b : Browser) :
  (forall (fuel : nat) (key : Z),
      (0 <= content_h b)%Z -> scroll_inv b ->
      after (handle_key w fuel key b) scroll_inv)
  /\ (forall x y : Z,
        scroll_inv b -> after (handle_mouse_move x y b) scroll_inv)
  /\ (forall (fuel : nat) (url_ : str) (from_back from_forward : bool)
             (b' : Browser),
        navigate w fuel url_ from_back from_forward b = Ret tt b' ->
        scroll_inv b')
  /\ (forall new_w new_h : Z,
        current_html b <> [] -> (0 <= scroll_y b)%Z ->
        after (handle_resize w new_w new_h b) scroll_inv)
  /\ (forall new_w new_h : Z,
        current_html b = [] ->
        exists b', handle_resize w new_w new_h b = Ret tt b'
                   /\ scroll_y b' = scroll_y b
                   /\ max_scroll b' = max_scroll b
                   /\ content_height b' = content_height b).
Proof.
  split; [intros; now apply handle_key_scroll|].
  split; [intros; now apply handle_mouse_move_scroll|].
  split; [intros; eapply navigate_ret_scroll; eassumption|].
  split; [intros; now apply handle_resize_scroll|].
  intros. now apply handle_resize_empty.
Qed.

Lemma scroll_inv_welcome : scroll_inv welcome.
Proof.
  apply (navigate_ret_scroll sample_world 1 (lit "about:home") false false
                             (new_Browser false)).
  vm_compute. reflexivity.
Defined.

Lemma scroll_stays_in_bound_witness :
  after (handle_key sample_world 1 266 welcome) scroll_inv
  /\ after (handle_mouse_move 630 100 welcome) scroll_inv
  /\ scroll_inv welcome
  /\ after (handle_resize sample_world 320 200 welcome) scroll_inv
  /\ exists b', handle_resize sample_world 800 600 (new_Browser false)
                = Ret tt b'
                /\ scroll_y b' = scroll_y (new_Browser false)
                /\ max_scroll b' = max_scroll (new_Browser false)
                /\ content_height b' = content_height (new_Browser false).
Proof.
  destruct (scroll_stays_in_bound sample_world welcome)
    as (Hkey & Hdrag & _ & Hresize & _).
  destruct (scroll_stays_in_bound sample_world (new_Browser false))
    as (_ & _ & Hnav & _ & Hempty).
  split.
  { apply Hkey; [vm_compute; discriminate|apply scroll_inv_welcome]. }
  split; [apply Hdrag, scroll_inv_welcome|].
  split.
  { apply (Hnav 1 (lit "about:home") false false). vm_compute. reflexivity. }
  split.
  { apply Hresize; vm_compute; discriminate. }
  apply Hempty. reflexivity.
Defined.

(** C8 (the code at the failing input): [handle_resize] recomputes
    [max_scroll] and clamps the offset only inside [if self.current_html:],
    so with a page whose markup is empty (a response with an empty body)
    a resize does neither.  In a window 36 pixels high such a page has the
    bound 30.  Scrolled down by 20 pixels and then resized to 640 by 480,
    it keeps the offset 20 although the bound of the resized viewport is 0.
    Resized before any key is pressed, it keeps the stored [max_scroll] 30
    although the bound is 0, and the Down key then moves the offset to 20,
    above the bound. *)
Theorem resize_without_markup_skips_clamp :
  (current_html scrolled_empty_page = []
   /\ scroll_in_bound scrolled_empty_page
   /\ exists b',
        handle_resize sample_world 640 480 scrolled_empty_page = Ret tt b'
        /\ scroll_y b' = 20%Z
        /\ max_scroll b' = 30%Z
        /\ content_height b' = 40%Z
        /\ content_h b' = 454%Z
        /\ scroll_bound b' = 0%Z
        /\ ~ scroll_in_bound b')
  /\ (current_html enlarged_empty_page = []
      /\ scroll_y enlarged_empty_page = 0%Z
      /\ max_scroll enlarged_empty_page = 30%Z
      /\ scroll_bound enlarged_empty_page = 0%Z
      /\ exists b',
           handle_key sample_world 1 257 enlarged_empty_page = Ret true b'
           /\ scroll_y b' = 20%Z
           /\ content_height b' = 40%Z
           /\ content_h b' = 454%Z
           /\ scroll_bound b' = 0%Z
           /\ ~ scroll_in_bound b').
Proof.
  assert (Hout : forall b : Browser,
             scroll_y b = 20%Z -> scroll_bound b = 0%Z ->
             ~ scroll_in_bound b).
  { intros b Hs Hb. unfold scroll_in_bound. rewrite Hs, Hb. lia. }
  split.
  - split; [vm_compute; reflexivity|].
    split.
    { unfold scroll_in_bound.
      replace (scroll_y scrolled_empty_page) with 20%Z
        by (vm_compute; reflexivity).
      replace (scroll_bound scrolled_empty_page) with 30%Z
        by (vm_compute; reflexivity).
      lia. }
    eexists. split; [vm_compute; reflexivity|].
    repeat (split; [vm_compute; reflexivity|]).
    apply Hout; vm_compute; reflexivity.
  - repeat (split; [vm_compute; reflexivity|]).
    eexists. split; [vm_compute; reflexivity|].
    repeat (split; [vm_compute; reflexivity|]).
    apply Hout; vm_compute; reflexivity.
Qed.

(** ** Word wrap *)

Section Wrap.

Variable w : World.
Variable CONTENT_W : Z.

(** *** [layout_text] *)

Lemma layout_text_loop_first_word (word : str) (rest : list str)
    (indent font_size style fg : Z) (href : option str) (st : TextState) :
  t_line_words st = [] ->
  layout_text_loop w CONTENT_W (word :: rest) indent font_size style fg href st
  = layout_text_loop w CONTENT_W rest indent font_size style fg href
      {| t_lay := t_lay st; t_y := t_y st; t_x := t_x st;
         t_line_words := [word] |}.
Proof.
  intros H. cbn [layout_text_loop]. rewrite H, andb_false_r. reflexivity.
Qed.

Lemma layout_text_loop_fill (word : str) (rest : list str)
    (indent font_size style fg : Z) (href : option str) (st : TextState) :
  t_line_words st <> [] ->
  (t_x st + measure_text w (join (lit " ") (t_line_words st ++ [word])) font_size
   <= MARGIN + CONTENT_W)%Z ->
  layout_text_loop w CONTENT_W (word :: rest) indent font_size style fg href st
  = layout_text_loop w CONTENT_W rest indent font_size style fg href
      {| t_lay := t_lay st; t_y := t_y st; t_x := t_x st;
         t_line_words := t_line_words st ++ [word] |}.
Proof.
  intros Hne Hfit. cbn [layout_text_loop].
  destruct (t_line_words st) as [|l0 ls] eqn:E; [congruence|].
  replace (_ >? _)%Z with false; [reflexivity|].
  symmetry. rewrite Z.gtb_ltb. apply Z.ltb_ge. exact Hfit.
Qed.

Lemma layout_text_loop_wrap (word : str) (rest : list str)
    (indent font_size style fg : Z) (href : option str) (st : TextState) :
  t_line_words st <> [] ->
  (MARGIN + CONTENT_W
   < t_x st + measure_text w (join (lit " ") (t_line_words st ++ [word]))
                           font_size)%Z ->
  layout_text_loop w CONTENT_W (word :: rest) indent font_size style fg href st
  = layout_text_loop w CONTENT_W rest indent font_size style fg href
      {| t_lay := emit_line w (t_line_words st) (t_x st) (t_y st) font_size
                            style fg href (t_lay st);
         t_y := (t_y st + line_height_of w font_size)%Z;
         t_x := (MARGIN + indent)%Z;
         t_line_words := [word] |}.
Proof.
  intros Hne Hwide. cbn [layout_text_loop].
  destruct (t_line_words st) as [|l0 ls] eqn:E; [congruence|].
  replace (_ >? _)%Z with true; [reflexivity|].
  symmetry. rewrite Z.gtb_ltb. apply Z.ltb_lt. exact Hwide.
Qed.

(** The loop of [layout_text] fills lines greedily. *)
Lemma layout_text_loop_greedy (indent font_size style fg : Z)
    (href : option str) (words : list str) :
  forall st : TextState,
    t_x st = (MARGIN + indent)%Z ->
    flush_line w font_size style fg href
      (layout_text_loop w CONTENT_W words indent font_size style fg href st)
    = emit_lines w
        (greedy_lines (fits w CONTENT_W indent font_size) (t_line_words st)
                      words)
        (MARGIN + indent) (t_y st) font_size style fg href (t_lay st).
Proof.
  induction words as [|word rest IH]; intros st Hx.
  - cbn [layout_text_loop greedy_lines]. unfold flush_line.
    destruct (t_line_words st); cbn [emit_lines]; now rewrite ?Hx.
  - destruct (t_line_words st) as [|l0 ls] eqn:E.
    + rewrite layout_text_loop_first_word by assumption.
      rewrite IH by assumption. cbn [greedy_lines t_line_words t_y t_lay].
      reflexivity.
    + cbn [greedy_lines]. unfold fits at 1.
      destruct (MARGIN + indent
                + measure_text w (join (lit " ") ((l0 :: ls) ++ [word]))
                               font_size >? MARGIN + CONTENT_W)%Z eqn:Ew;
        cbn [negb].
      * rewrite layout_text_loop_wrap;
          [|congruence
           |rewrite E, Hx; rewrite Z.gtb_ltb in Ew; now apply Z.ltb_lt in Ew].
        rewrite IH by reflexivity.
        cbn [emit_lines t_line_words t_y t_lay]. now rewrite E, Hx.
      * rewrite layout_text_loop_fill;
          [|congruence
           |rewrite E, Hx; rewrite Z.gtb_ltb in Ew; now apply Z.ltb_ge in Ew].
        rewrite IH by assumption.
        cbn [t_line_words t_y t_lay]. now rewrite E.
Qed.

(** [layout_text] emits the greedy lines of the words of [text_], one block
    per line, from [y] downwards. *)
Lemma layout_text_greedy (text_ : str) (lay : Layout)
    (y indent font_size style fg : Z) (href : option str) :
  layout_text w CONTENT_W text_ lay y indent font_size style fg href
  = emit_lines w
      (greedy_lines (fits w CONTENT_W indent font_size) [] (split_ws text_))
      (MARGIN + indent) y font_size style fg href lay.
Proof.
  unfold layout_text. destruct text_ as [|c text_]; [reflexivity|].
  cbn [truthy negb].
  exact (layout_text_loop_greedy indent font_size style fg href
           (split_ws (c :: text_))
           {| t_lay := lay; t_y := y; t_x := (MARGIN + indent)%Z;
              t_line_words := [] |} eq_refl).
Qed.

Lemma emit_line_blocks (line : list str) (x y font_size style fg : Z)
    (href : option str) (lay : Layout) :
  exists block,
    out_blocks (emit_line w line x y font_size style fg href lay)
    = out_blocks lay ++ [block]
    /\ b_text block = join (lit " ") line
    /\ b_x block = x /\ b_y block = y.
Proof.
  unfold emit_line. eexists.
  destruct (href_truthy href); cbn; (split; [reflexivity|]); auto.
Qed.

(** The blocks of [emit_lines] carry the lines, in order. *)
Lemma emit_lines_texts (lines : list (list str)) :
  forall (x y font_size style fg : Z) (href : option str) (lay : Layout),
    map b_text
        (out_blocks (fst (emit_lines w lines x y font_size style fg href lay)))
    = map b_text (out_blocks lay) ++ map (join (lit " ")) lines.
Proof.
  induction lines as [|line lines IH]; intros x y font_size style fg href lay;
    cbn [emit_lines map fst].
  - now rewrite app_nil_r.
  - rewrite IH.
    destruct (emit_line_blocks line x y font_size style fg href lay)
      as (block & -> & Ht & _).
    rewrite map_app. cbn [map]. rewrite Ht, <- app_assoc. reflexivity.
Qed.

End Wrap.

(** *** Greedy lines *)

(** Every word is on exactly one line, in reading order. *)
Lemma greedy_lines_concat (room : list str -> str -> bool) (words : list str) :
  forall cur : list str,
    List.concat (greedy_lines room cur words) = cur ++ words.
Proof.
  induction words as [|word rest IH]; intros cur; cbn [greedy_lines].
  - destruct cur; cbn; now rewrite ?app_nil_r.
  - destruct cur as [|c0 cs]; [now rewrite IH|].
    destruct (room (c0 :: cs) word).
    + rewrite IH, <- app_assoc. reflexivity.
    + cbn [List.concat]. now rewrite IH.
Qed.

Lemma greedy_lines_nonempty (room : list str -> str -> bool) (words : list str) :
  forall cur : list str,
    Forall (fun line => line <> []) (greedy_lines room cur words).
Proof.
  induction words as [|word rest IH]; intros cur; cbn [greedy_lines].
  - destruct cur; repeat constructor. discriminate.
  - destruct cur as [|c0 cs]; [apply IH|].
    destruct (room (c0 :: cs) word); [apply IH|].
    constructor; [discriminate|apply IH].
Qed.

(** When no line with room left may hold [big], [big] is alone on its
    line. *)
Lemma greedy_lines_alone (room : list str -> str -> bool) (big : str) :
  (forall cur word,
      cur <> [] -> In big (cur ++ [word]) -> room cur word = false) ->
  forall (words cur : list str),
    (In big cur -> cur = [big]) ->
    Forall (fun line => In big line -> line = [big])
           (greedy_lines room cur words).
Proof.
  intros Hroom. induction words as [|word rest IH]; intros cur Hcur;
    cbn [greedy_lines].
  - destruct cur; repeat constructor. exact Hcur.
  - destruct cur as [|c0 cs].
    + apply IH. intros [->|[]]. reflexivity.
    + destruct (room (c0 :: cs) word) eqn:Er.
      * apply IH. intros Hin.
        rewrite Hroom in Er; [discriminate|discriminate|exact Hin].
      * constructor; [exact Hcur|]. apply IH.
        intros [->|[]]. reflexivity.
Qed.

Lemma join_contains (sep big : str) (l : list str) :
  In big l -> exists pre post, join sep l = pre ++ big ++ post.
Proof.
  induction l as [|x l IH]; [contradiction|].
  intros [->|Hin].
  - destruct l as [|y l].
    + exists [], []. cbn. now rewrite app_nil_r.
    + exists [], (sep ++ join sep (y :: l)). reflexivity.
  - destruct l as [|y l]; [contradiction|].
    destruct (IH Hin) as (pre & post & E).
    exists (x ++ sep ++ pre), post.
    change (join sep (x :: y :: l)) with (x ++ sep ++ join sep (y :: l)).
    rewrite E. now rewrite <- !app_assoc.
Qed.

Lemma Element_children_ind (P : Element -> Prop) :
  (forall t a cs tx, Forall P cs -> P (mkElement t a cs tx)) ->
  forall e, P e.
Proof.
  intros H. fix IH 1. intros [t a cs tx]. apply H.
  induction cs as [|c cs IHcs]; constructor; [apply IH|exact IHcs].
Qed.

Lemma split_ws_aux_nonempty (s : str) :
  forall cur : str, Forall (fun word => word <> []) (split_ws_aux cur s).
Proof.
  assert (Hrev : forall (c : Z) (cur : str), rev (c :: cur) <> []).
  { intros c cur H. apply (f_equal (@length Z)) in H.
    rewrite length_rev in H. discriminate. }
  induction s as [|c s IH]; intros cur; cbn [split_ws_aux].
  - destruct cur; repeat constructor. apply Hrev.
  - destruct (is_space c); [|apply IH].
    destruct cur; [apply IH|]. constructor; [apply Hrev|apply IH].
Qed.

(** The words of [str.split()] are not empty. *)
Lemma split_ws_nonempty (s : str) :
  Forall (fun word => word <> []) (split_ws s).
Proof. apply split_ws_aux_nonempty. Qed.

Section Inline.

Variable w : World.
Variable CONTENT_W : Z.

(** No line with room left holds a word wider than the viewport. *)
Lemma wide_word_has_no_room (indent font_size : Z) (big : str)
    (cur : list str) (word : str) :
  width_monotone w font_size ->
  wider_than_viewport w CONTENT_W indent font_size big ->
  In big (cur ++ [word]) ->
  fits w CONTENT_W indent font_size cur word = false.
Proof.
  intros Hmono Hwide Hin. unfold fits, wider_than_viewport in *.
  destruct (join_contains (lit " ") big _ Hin) as (pre & post & ->).
  pose proof (proj2 (Hmono pre (big ++ post))) as H1.
  pose proof (proj1 (Hmono big post)) as H2.
  apply negb_false_iff. rewrite Z.gtb_ltb. apply Z.ltb_lt. lia.
Qed.

(** *** [layout_inline] *)

(** A word that is placed where the line stands: at the start of a line,
    or when it ends at or before the right edge. *)
Lemma emit_word_stays (indent font_size : Z) (word : str) (cur_style : Z)
    (cur_href : option str) (cur_fg : Z) (st : InlineState) :
  word <> [] ->
  (i_x st <= MARGIN + indent
   \/ i_x st + measure_text w word font_size <= MARGIN + CONTENT_W)%Z ->
  let st' := emit_word w CONTENT_W indent font_size word cur_style cur_href
                       cur_fg st in
  exists block,
    out_blocks (i_lay st') = out_blocks (i_lay st) ++ [block]
    /\ b_text block = word
    /\ b_x block = i_x st /\ b_y block = i_y st
    /\ i_y st' = i_y st
    /\ i_x st' = (i_x st + (measure_text w word font_size
                            + measure_text w (lit " ") font_size))%Z.
Proof.
  intros Hword Hroom. unfold emit_word.
  apply truthy_nonempty in Hword. rewrite Hword. cbn [negb].
  replace ((i_x st + measure_text w word font_size >? MARGIN + CONTENT_W)%Z
           && (i_x st >? MARGIN + indent)%Z) with false.
  - eexists. destruct (href_truthy cur_href); cbn;
      (split; [reflexivity|]); auto 10.
  - symmetry. apply andb_false_iff. rewrite !Z.gtb_ltb.
    destruct Hroom; [right|left]; now apply Z.ltb_ge.
Qed.

(** A word that would end beyond the right edge, on a line that holds a
    word already. *)
Lemma emit_word_wraps (indent font_size : Z) (word : str) (cur_style : Z)
    (cur_href : option str) (cur_fg : Z) (st : InlineState) :
  word <> [] ->
  (MARGIN + indent < i_x st)%Z ->
  (MARGIN + CONTENT_W < i_x st + measure_text w word font_size)%Z ->
  let st' := emit_word w CONTENT_W indent font_size word cur_style cur_href
                       cur_fg st in
  exists block,
    out_blocks (i_lay st') = out_blocks (i_lay st) ++ [block]
    /\ b_text block = word
    /\ b_x block = (MARGIN + indent)%Z
    /\ b_y block = (i_y st + line_height_of w font_size)%Z
    /\ i_y st' = (i_y st + line_height_of w font_size)%Z
    /\ i_x st' = (MARGIN + indent
                  + (measure_text w word font_size
                     + measure_text w (lit " ") font_size))%Z.
Proof.
  intros Hword Hx Hwide. unfold emit_word.
  apply truthy_nonempty in Hword. rewrite Hword. cbn [negb].
  replace ((i_x st + measure_text w word font_size >? MARGIN + CONTENT_W)%Z
           && (i_x st >? MARGIN + indent)%Z) with true.
  - eexists. destruct (href_truthy cur_href); cbn;
      (split; [reflexivity|]); auto 10.
  - symmetry. apply andb_true_iff. rewrite !Z.gtb_ltb.
    split; now apply Z.ltb_lt.
Qed.

Lemma emit_word_text (indent font_size : Z) (word : str) (cur_style : Z)
    (cur_href : option str) (cur_fg : Z) (st : InlineState) :
  word <> [] ->
  block_texts (emit_word w CONTENT_W indent font_size word cur_style cur_href
                         cur_fg st)
  = block_texts st ++ [word].
Proof.
  intros Hword. unfold block_texts, emit_word.
  apply truthy_nonempty in Hword. rewrite Hword. cbn [negb].
  destruct (href_truthy cur_href); cbn; now rewrite map_app.
Qed.

Lemma emit_words_texts (indent font_size : Z) (cur_style : Z)
    (cur_href : option str) (cur_fg : Z) (words : list str) :
  Forall (fun word => word <> []) words ->
  forall st : InlineState,
    block_texts (emit_words w CONTENT_W indent font_size words cur_style
                            cur_href cur_fg st)
    = block_texts st ++ words.
Proof.
  induction 1 as [|word words Hword _ IH]; intros st; cbn [emit_words].
  - now rewrite app_nil_r.
  - rewrite IH, emit_word_text by assumption. now rewrite <- app_assoc.
Qed.

Lemma process_children (indent font_size : Z) (el : Element) (cur_style : Z)
    (cur_href : option str) (st : InlineState) :
  let s := tag_style w (tag el) cur_style in
  let is_a := str_eqb (tag el) (lit "a") in
  let h := if is_a then Some (get_href el) else cur_href in
  let fg := if is_a then LINK_COLOR
            else if href_truthy cur_href then LINK_COLOR else BLACK in
  process w CONTENT_W indent font_size el cur_style cur_href st
  = fold_left (fun st child => process w CONTENT_W indent font_size child s h st)
      (children el)
      (if truthy (text el)
       then emit_words w CONTENT_W indent font_size (split_ws (text el)) s h fg
                       st
       else st).
Proof.
  destruct el as [t a cs tx]. cbn [process tag text children].
  generalize (if truthy tx
              then emit_words w CONTENT_W indent font_size (split_ws tx)
                     (tag_style w t cur_style)
                     (if str_eqb t (lit "a")
                      then Some (get_href (mkElement t a cs tx)) else cur_href)
                     (if str_eqb t (lit "a") then LINK_COLOR
                      else if href_truthy cur_href then LINK_COLOR else BLACK)
                     st
              else st).
  induction cs as [|c cs IH]; intros st0; [reflexivity|].
  cbn [fold_left]. rewrite <- IH. reflexivity.
Qed.

(** [process] emits one block per word of the flow, in order. *)
Lemma process_texts (indent font_size : Z) (el : Element) :
  forall (cur_style : Z) (cur_href : option str) (st : InlineState),
    block_texts (process w CONTENT_W indent font_size el cur_style cur_href st)
    = block_texts st ++ inline_words el.
Proof.
  induction el as [t a cs tx IHcs] using Element_children_ind.
  intros cur_style cur_href st. rewrite process_children.
  cbn [tag text children inline_words].
  set (s := tag_style w t cur_style).
  set (h := if str_eqb t (lit "a") then Some _ else cur_href).
  set (fg := if str_eqb t (lit "a") then LINK_COLOR else _).
  assert (H0 : block_texts (if truthy tx
                            then emit_words w CONTENT_W indent font_size
                                            (split_ws tx) s h fg st
                            else st)
                = block_texts st ++ split_ws tx).
  { destruct tx as [|c tx]; [cbn; now rewrite app_nil_r|].
    cbn [truthy]. apply emit_words_texts, split_ws_nonempty. }
  revert H0.
  generalize (if truthy tx
              then emit_words w CONTENT_W indent font_size (split_ws tx) s h fg
                              st
              else st).
  generalize (split_ws tx). clear fg.
  induction IHcs as [|c cs Hc _ IH]; intros words st0 H0; cbn [fold_left map].
  - cbn. now rewrite app_nil_r.
  - rewrite (IH (words ++ inline_words c)).
    + cbn [List.concat]. now rewrite <- !app_assoc.
    + rewrite Hc, H0. now rewrite <- app_assoc.
Qed.

(** The text blocks of [layout_inline] carry the words of the flow, one
    word each, in order. *)
Lemma layout_inline_texts (elem : Element) (lay : Layout)
    (y indent font_size style : Z) (href : option str) :
  map b_text
      (out_blocks (fst (layout_inline w CONTENT_W elem lay y indent font_size
                                      style href)))
  = map b_text (out_blocks lay) ++ inline_words elem.
Proof.
  unfold layout_inline. cbn [fst].
  exact (process_texts indent font_size elem style href
           {| i_lay := lay; i_x := (MARGIN + indent)%Z; i_y := y |}).
Qed.

(** A word wider than the viewport starts a line, and the word after it
    starts the next one. *)
Lemma emit_word_wide_alone (indent font_size : Z) (big next : str)
    (style1 style2 : Z) (href1 href2 : option str) (fg1 fg2 : Z)
    (st : InlineState) :
  big <> [] -> next <> [] ->
  (MARGIN + indent <= i_x st)%Z ->
  wider_than_viewport w CONTENT_W indent font_size big ->
  (0 < measure_text w big font_size)%Z ->
  (0 <= measure_text w (lit " ") font_size)%Z ->
  (0 <= measure_text w next font_size)%Z ->
  let st1 := emit_word w CONTENT_W indent font_size big style1 href1 fg1 st in
  let st2 := emit_word w CONTENT_W indent font_size next style2 href2 fg2 st1 in
  exists block1 block2,
    out_blocks (i_lay st2) = (out_blocks (i_lay st) ++ [block1]) ++ [block2]
    /\ b_text block1 = big /\ b_text block2 = next
    /\ b_x block1 = (MARGIN + indent)%Z
    /\ b_x block2 = (MARGIN + indent)%Z
    /\ b_y block2 = (b_y block1 + line_height_of w font_size)%Z.
Proof.
  intros Hbig Hnext Hx Hwide Hpos Hspace Hnw st1 st2.
  unfold wider_than_viewport in Hwide.
  assert (H1 : exists block1,
             out_blocks (i_lay st1) = out_blocks (i_lay st) ++ [block1]
             /\ b_text block1 = big
             /\ b_x block1 = (MARGIN + indent)%Z
             /\ i_y st1 = b_y block1
             /\ i_x st1 = (MARGIN + indent
                           + (measure_text w big font_size
                              + measure_text w (lit " ") font_size))%Z).
  { destruct (Z.eq_dec (i_x st) (MARGIN + indent)) as [E|E].
    - destruct (emit_word_stays indent font_size big style1 href1 fg1 st Hbig)
        as (b1 & Hb & Ht & Hbx & Hby & Hy & Hx'); [left; lia|].
      exists b1. fold st1 in Hb, Hy, Hx'. repeat split; try congruence.
    - destruct (emit_word_wraps indent font_size big style1 href1 fg1 st Hbig)
        as (b1 & Hb & Ht & Hbx & Hby & Hy & Hx'); [lia|lia|].
      exists b1. fold st1 in Hb, Hy, Hx'. repeat split; congruence. }
  destruct H1 as (b1 & Hb1 & Ht1 & Hbx1 & Hy1 & Hx1).
  destruct (emit_word_wraps indent font_size next style2 href2 fg2 st1 Hnext)
    as (b2 & Hb2 & Ht2 & Hbx2 & Hby2 & _); [lia|lia|].
  exists b1, b2. fold st2 in Hb2. rewrite Hb2, Hb1.
  repeat split; try assumption. congruence.
Qed.

End Inline.

(** C6: greedy word wrap.  [layout_text] is a total function that emits
    the greedy lines of the words of its text, one block per line: every
    word is on exactly one line, in order, and no line is empty.  The first
    word of a line is placed whatever its width, and a word with which the
    line exactly fills the viewport stays on the line.  With a font in
    which text never gets narrower when text is added, a word wider than
    the viewport is alone on its line.  [layout_inline] emits one block per
    word of the flow, in order; a word at the start of a line, or one that
    ends exactly at the right edge, is placed where the line stands; a word
    wider than the viewport starts a line and the word after it starts the
    next line. *)
Theorem greedy_word_wrap (w : World) (CONTENT_W : Z) :
  (forall (text_ : str) (lay : Layout) (y indent font_size style fg : Z)
          (href : option str),
      let lines := greedy_lines (fits w CONTENT_W indent font_size) []
                                (split_ws text_) in
      layout_text w CONTENT_W text_ lay y indent font_size style fg href
      = emit_lines w lines (MARGIN + indent) y font_size style fg href lay
      /\ List.concat lines = split_ws text_
      /\ Forall (fun line => line <> []) lines
      /\ map b_text
             (out_blocks (fst (layout_text w CONTENT_W text_ lay y indent
                                           font_size style fg href)))
         = map b_text (out_blocks lay) ++ map (join (lit " ")) lines)
  /\ (forall (word : str) (rest : list str) (indent font_size style fg : Z)
             (href : option str) (st : TextState),
        t_line_words st = [] ->
        layout_text_loop w CONTENT_W (word :: rest) indent font_size style fg
                         href st
        = layout_text_loop w CONTENT_W rest indent font_size style fg href
            {| t_lay := t_lay st; t_y := t_y st; t_x := t_x st;
               t_line_words := [word] |})
  /\ (forall (word : str) (rest : list str) (indent font_size style fg : Z)
             (href : option str) (st : TextState),
        t_line_words st <> [] ->
        (t_x st
         + measure_text w (join (lit " ") (t_line_words st ++ [word])) font_size
         = MARGIN + CONTENT_W)%Z ->
        layout_text_loop w CONTENT_W (word :: rest) indent font_size style fg
                         href st
        = layout_text_loop w CONTENT_W rest indent font_size style fg href
            {| t_lay := t_lay st; t_y := t_y st; t_x := t_x st;
               t_line_words := t_line_words st ++ [word] |})
  /\ (forall (text_ : str) (indent font_size : Z) (big : str),
        width_monotone w font_size ->
        wider_than_viewport w CONTENT_W indent font_size big ->
        Forall (fun line => In big line -> line = [big])
               (greedy_lines (fits w CONTENT_W indent font_size) []
                             (split_ws text_)))
  /\ (forall (elem : Element) (lay : Layout) (y indent font_size style : Z)
             (href : option str),
        map b_text
            (out_blocks (fst (layout_inline w CONTENT_W elem lay y indent
                                            font_size style href)))
        = map b_text (out_blocks lay) ++ inline_words elem)
  /\ (forall (indent font_size : Z) (word : str) (cur_style : Z)
             (cur_href : option str) (cur_fg : Z) (st : InlineState),
        word <> [] ->
        (i_x st <= MARGIN + indent
         \/ i_x st + measure_text w word font_size = MARGIN + CONTENT_W)%Z ->
        exists block,
          out_blocks (i_lay (emit_word w CONTENT_W indent font_size word
                                       cur_style cur_href cur_fg st))
          = out_blocks (i_lay st) ++ [block]
          /\ b_text block = word
          /\ b_x block = i_x st /\ b_y block = i_y st)
  /\ (forall (indent font_size : Z) (big next : str) (style1 style2 : Z)
             (href1 href2 : option str) (fg1 fg2 : Z) (st : InlineState),
        big <> [] -> next <> [] ->
        (MARGIN + indent <= i_x st)%Z ->
        wider_than_viewport w CONTENT_W indent font_size big ->
        (0 < measure_text w big font_size)%Z ->
        (0 <= measure_text w (lit " ") font_size)%Z ->
        (0 <= measure_text w next font_size)%Z ->
        exists block1 block2,
          out_blocks
            (i_lay (emit_word w CONTENT_W indent font_size next style2 href2
                              fg2
                      (emit_word w CONTENT_W indent font_size big style1 href1
                                 fg1 st)))
          = (out_blocks (i_lay st) ++ [block1]) ++ [block2]
          /\ b_text block1 = big /\ b_text block2 = next
          /\ b_x block1 = (MARGIN + indent)%Z
          /\ b_x block2 = (MARGIN + indent)%Z
          /\ b_y block2 = (b_y block1 + line_height_of w font_size)%Z).
Proof.
  split.
  { intros text_ lay y indent font_size style fg href lines.
    split; [apply layout_text_greedy|].
    split; [apply greedy_lines_concat|].
    split; [apply greedy_lines_nonempty|].
    rewrite layout_text_greedy. apply emit_lines_texts. }
  split; [intros; now apply layout_text_loop_first_word|].
  split; [intros; apply layout_text_loop_fill; [assumption|lia]|].
  split.
  { intros text_ indent font_size big Hmono Hwide.
    apply greedy_lines_alone; [|intros []].
    intros cur word _ Hin.
    now apply (wide_word_has_no_room w CONTENT_W indent font_size big). }
  split; [intros; apply layout_inline_texts|].
  split.
  { intros indent font_size word cur_style cur_href cur_fg st Hword Hroom.
    destruct (emit_word_stays w CONTENT_W indent font_size word cur_style
                cur_href cur_fg st Hword)
      as (block & Hb & Ht & Hx & Hy & _); [lia|].
    exists block. auto. }
  intros. now apply emit_word_wide_alone.
Qed.

(** The sample font: every glyph is half the font size wide. *)
Lemma sample_measure_loop (font_size : Z) (text_ : str) :
  forall width prev_cp : Z,
    measure_loop sample_world font_size text_ width prev_cp
    = (width + font_size / 2 * Z.of_nat (length text_))%Z.
Proof.
  induction text_ as [|cp rest IH]; intros width prev_cp;
    cbn [measure_loop length].
  - lia.
  - rewrite IH. cbn [sample_world ttf_get_advance ttf_get_kerning].
    destruct (negb (prev_cp =? 0)%Z); lia.
Qed.

Lemma sample_width_monotone : width_monotone sample_world 16.
Proof.
  intros s t. unfold measure_text. rewrite !sample_measure_loop.
  rewrite length_app. change (16 / 2)%Z with 8%Z. lia.
Qed.

Lemma greedy_word_wrap_witness :
  layout_text_loop sample_world 40 [lit "incomprehensibilities"; lit "b"]
                   0 16 0 0 None (line_with [])
  = layout_text_loop sample_world 40 [lit "b"] 0 16 0 0 None
                     (line_with [lit "incomprehensibilities"])
  /\ layout_text_loop sample_world 40 [lit "cd"] 0 16 0 0 None
                      (line_with [lit "ab"])
     = line_with [lit "ab"; lit "cd"]
  /\ Forall (fun line => In (lit "incomprehensibilities") line
                         -> line = [lit "incomprehensibilities"])
            (greedy_lines (fits sample_world 40 0 16) []
                          (split_ws (lit "a incomprehensibilities b")))
  /\ (exists block,
        out_blocks (i_lay (emit_word sample_world 40 0 16
                                     (lit "incomprehensibilities") 0 None 0
                                     (cursor_at 10)))
        = [block]
        /\ b_text block = lit "incomprehensibilities"
        /\ b_x block = 10%Z /\ b_y block = 10%Z)
  /\ (exists block1 block2,
        out_blocks
          (i_lay (emit_word sample_world 40 0 16 (lit "b") 0 None 0
                    (emit_word sample_world 40 0 16
                               (lit "incomprehensibilities") 0 None 0
                               (cursor_at 26))))
        = [block1; block2]
        /\ b_text block1 = lit "incomprehensibilities"
        /\ b_text block2 = lit "b"
        /\ b_x block1 = 10%Z /\ b_x block2 = 10%Z
        /\ b_y block2 = (b_y block1 + 22)%Z).
Proof.
  destruct (greedy_word_wrap sample_world 40)
    as (_ & Hfirst & Hfill & Halone & _ & Hstay & Hwide).
  split; [apply (Hfirst _ _ 0%Z 16%Z 0%Z 0%Z None (line_with [])); reflexivity|].
  split.
  { apply (Hfill (lit "cd") [] 0%Z 16%Z 0%Z 0%Z None (line_with [lit "ab"]));
      [discriminate|reflexivity]. }
  split.
  { apply (Halone (lit "a incomprehensibilities b") 0%Z 16%Z
                  (lit "incomprehensibilities"));
      [apply sample_width_monotone|vm_compute; reflexivity]. }
  split.
  { apply (Hstay 0%Z 16%Z (lit "incomprehensibilities") 0%Z None 0%Z
                 (cursor_at 10)); [discriminate|left; vm_compute; discriminate]. }
  apply (Hwide 0%Z 16%Z (lit "incomprehensibilities") (lit "b") 0%Z 0%Z None
               None 0%Z 0%Z (cursor_at 26));
    try discriminate; vm_compute; try reflexivity; discriminate.
Defined.

(** * Further properties *)

(** ** URLs *)

Lemma find_char_none_free (c : Z) (s : str) :
  find_char c s = None -> free_of c s.
Proof.
  induction s as [|x s IH]; [constructor|].
  rewrite find_char_cons. destruct (c =? x)%Z eqn:E; [discriminate|].
  apply Z.eqb_neq in E. destruct (find_char c s); [discriminate|].
  intros _. constructor; [congruence|now apply IH].
Qed.

(** Where [find] reports a character: what precedes is free of it. *)
Lemma find_char_some (c : Z) (s : str) :
  forall k : nat,
    find_char c s = Some k ->
    free_of c (firstn k s) /\ skipn k s = c :: skipn (S k) s.
Proof.
  induction s as [|x s IH]; intros k; [discriminate|].
  rewrite find_char_cons. destruct (c =? x)%Z eqn:E.
  - intros H. injection H as <-. apply Z.eqb_eq in E. subst x.
    split; [constructor|reflexivity].
  - apply Z.eqb_neq in E. destruct (find_char c s) as [j|]; [|discriminate].
    intros H. injection H as <-. destruct (IH j eq_refl) as [Hf Hs].
    split; [constructor; [congruence|exact Hf]|exact Hs].
Qed.

Lemma free_of_firstn (c : Z) (k : nat) (s : str) :
  free_of c s -> free_of c (firstn k s).
Proof.
  unfold free_of. intros H. revert k.
  induction H as [|x s Hx _ IH]; intros [|k]; cbn [firstn]; constructor; auto.
Qed.

Lemma parse_url_unfold (url_ : str) :
  parse_url url_ =
  if startswith url_ (lit "file://")
  then Ok {| u_scheme := lit "file"; u_host := None; u_port := None;
             u_path := skipn 7 url_ |}
  else if startswith url_ (lit "https://")
  then parse_authority (lit "https") (skipn 8 url_) 443
  else if startswith url_ (lit "http://")
  then parse_authority (lit "http") (skipn 7 url_) 80
  else parse_authority (lit "http") url_ 80.
Proof.
  unfold parse_url, parse_authority.
  destruct (startswith url_ (lit "file://")); [reflexivity|].
  destruct (startswith url_ (lit "https://")); [reflexivity|].
  destruct (startswith url_ (lit "http://")); reflexivity.
Qed.

Lemma parse_authority_fields (scheme rest : str) (default_port : Z)
    (u : ParsedUrl) :
  parse_authority scheme rest default_port = Ok u ->
  u_scheme u = scheme
  /\ startswith (u_path u) (lit "/") = true
  /\ (exists host, u_host u = Some host /\ free_of 47 host /\ free_of 58 host)
  /\ (exists port, u_port u = Some port)
  /\ (free_of 58 rest -> u_port u = Some default_port).
Proof.
  unfold parse_authority.
  assert (Hsplit : exists host_port path,
             match find_char 47 rest with
             | None => (rest, lit "/")
             | Some slash_pos => (firstn slash_pos rest, skipn slash_pos rest)
             end = (host_port, path)
             /\ free_of 47 host_port
             /\ startswith path (lit "/") = true
             /\ (free_of 58 rest -> free_of 58 host_port)).
  { destruct (find_char 47 rest) as [k|] eqn:E.
    - destruct (find_char_some 47 rest k E) as [Hf Hs].
      exists (firstn k rest), (skipn k rest).
      split; [reflexivity|]. split; [exact Hf|].
      split; [rewrite Hs; reflexivity|apply free_of_firstn].
    - exists rest, (lit "/"). split; [reflexivity|].
      split; [now apply find_char_none_free|]. split; [reflexivity|auto]. }
  destruct Hsplit as (host_port & path & -> & H47 & Hpath & H58).
  destruct (find_char 58 host_port) as [k|] eqn:E.
  - destruct (int 10 _) as [port| |]; cbn [rbind]; try discriminate.
    intros H. injection H as <-. cbn.
    destruct (find_char_some 58 host_port k E) as [Hf _].
    split; [reflexivity|]. split; [exact Hpath|].
    split; [eexists; split; [reflexivity|split;
              [now apply free_of_firstn|exact Hf]]|].
    split; [eauto|]. intros Hrest.
    rewrite (find_char_free 58 host_port (H58 Hrest)) in E. discriminate.
  - intros H. injection H as <-. cbn.
    split; [reflexivity|]. split; [exact Hpath|].
    split; [eexists; split; [reflexivity|split;
              [exact H47|now apply find_char_none_free]]|].
    split; eauto.
Qed.

(** X1: whatever [parse_url] makes of a URL that is not a [file://] one,
    the path starts with a slash (it is never empty), the host holds
    neither a slash nor a colon, and a port is there. *)
Theorem parse_url_shape (url_ : str) (u : ParsedUrl) :
  parse_url url_ = Ok u ->
  startswith url_ (lit "file://") = false ->
  (u_scheme u = lit "http" \/ u_scheme u = lit "https")
  /\ startswith (u_path u) (lit "/") = true
  /\ (exists host, u_host u = Some host /\ free_of 47 host /\ free_of 58 host)
  /\ (exists port, u_port u = Some port).
Proof.
  rewrite parse_url_unfold. intros H Hfile. rewrite Hfile in H.
  destruct (startswith url_ (lit "https://"));
    [|destruct (startswith url_ (lit "http://"))];
    apply parse_authority_fields in H;
    destruct H as (Hs & Hp & Hh & Hport & _); rewrite Hs; auto.
Qed.

Lemma parse_url_shape_witness :
  (u_scheme {| u_scheme := lit "http"; u_host := Some (lit "a.com");
               u_port := Some 8080%Z; u_path := lit "/x/y" |} = lit "http"
   \/ lit "http" = lit "https")
  /\ startswith (lit "/x/y") (lit "/") = true
  /\ (exists host, Some (lit "a.com") = Some host
                   /\ free_of 47 host /\ free_of 58 host)
  /\ (exists port, Some 8080%Z = Some port).
Proof.
  exact (parse_url_shape (lit "http://a.com:8080/x/y")
           {| u_scheme := lit "http"; u_host := Some (lit "a.com");
              u_port := Some 8080%Z; u_path := lit "/x/y" |}
           eq_refl eq_refl).
Defined.

(** X2: [resolve_url] is idempotent: the URL it answers with carries a
    scheme, so resolving it again, against any base, gives it back. *)
Theorem resolve_url_idempotent (base_url rel_url u : str) :
  resolve_url base_url rel_url = Ok u ->
  is_absolute u = true
  /\ forall base' : str, resolve_url base' u = Ok u.
Proof.
  intros H. apply resolve_url_is_absolute in H. split; [exact H|].
  intros base'. now apply resolve_url_absolute.
Qed.

Lemma resolve_url_idempotent_witness :
  is_absolute (lit "http://a.com/dir/other.html") = true
  /\ forall base' : str,
       resolve_url base' (lit "http://a.com/dir/other.html")
       = Ok (lit "http://a.com/dir/other.html").
Proof.
  apply (resolve_url_idempotent (lit "http://a.com/dir/page.html")
                                (lit "other.html")).
  reflexivity.
Defined.

Lemma parse_authority_plain (scheme host path : str) (default_port : Z) :
  free_of 47 host -> free_of 58 host -> startswith path (lit "/") = true ->
  parse_authority scheme (host ++ path) default_port
  = Ok {| u_scheme := scheme; u_host := Some host;
          u_port := Some default_port; u_path := path |}.
Proof.
  intros H47 H58 Hpath. unfold parse_authority.
  destruct (startswith_prefix _ _ Hpath) as [p ->].
  change (lit "/" ++ p) with (47%Z :: p).
  rewrite (find_char_app 47 host p) by assumption.
  rewrite firstn_app, firstn_all, Nat.sub_diag, app_nil_r.
  rewrite skipn_app, skipn_all, Nat.sub_diag. cbn [app skipn firstn].
  now rewrite (find_char_free 58 host).
Qed.

Lemma parse_authority_port (scheme host digits path : str) (default_port : Z) :
  free_of 47 host -> free_of 58 host -> free_of 47 digits ->
  startswith path (lit "/") = true ->
  parse_authority scheme (host ++ 58%Z :: digits ++ path) default_port
  = (let* port := int 10 digits in
     Ok {| u_scheme := scheme; u_host := Some host; u_port := Some port;
           u_path := path |}).
Proof.
  intros H47 H58 Hd Hpath. unfold parse_authority.
  destruct (startswith_prefix _ _ Hpath) as [p ->].
  change (lit "/" ++ p) with (47%Z :: p).
  assert (Hfree : free_of 47 (host ++ 58%Z :: digits)).
  { apply Forall_app. split; [assumption|]. constructor; [lia|assumption]. }
  replace (host ++ 58%Z :: digits ++ 47%Z :: p)
    with ((host ++ 58%Z :: digits) ++ 47%Z :: p)
    by (now rewrite <- app_assoc).
  rewrite (find_char_app 47 _ p) by assumption.
  rewrite firstn_app, firstn_all, Nat.sub_diag, app_nil_r.
  rewrite skipn_app, skipn_all, Nat.sub_diag. cbn [app skipn firstn].
  rewrite (find_char_app 58 host digits) by assumption.
  rewrite firstn_app, firstn_all, Nat.sub_diag, app_nil_r.
  replace (length host + 1) with (length host + 1 + 0) by lia.
  rewrite skipn_app, skipn_all2 by lia.
  replace (length host + 1 + 0 - length host) with 1 by lia.
  reflexivity.
Qed.

(** The path that [resolve_url] gives [rel_url] below the base path
    [path]. *)
Lemma resolve_url_http (secure : bool) (u : ParsedUrl) (base_url rel_url : str)
    (host : str) (port : Z) :
  parse_url base_url = Ok u ->
  u_scheme u = (if secure then lit "https" else lit "http") ->
  u_host u = Some host -> u_port u = Some port ->
  is_absolute rel_url = false ->
  resolve_url base_url rel_url
  = Ok ((if secure then lit "https://" else lit "http://")
        ++ host
        ++ (if (port =? (if secure then 443 else 80))%Z then []
            else lit ":" ++ str_of_int port)
        ++ (if startswith rel_url (lit "/") then rel_url
            else rsplit1_head 47 (u_path u) ++ lit "/" ++ rel_url)).
Proof.
  intros Hparse Hs Hh Hp Habs. unfold resolve_url.
  rewrite Habs, Hparse. cbn [rbind]. rewrite Hs, Hh, Hp.
  destruct secure.
  - change (str_eqb (lit "https") (lit "file")) with false.
    change (str_eqb (lit "https") (lit "http")) with false.
    change (str_eqb (lit "https") (lit "https")) with true.
    cbn [andb orb]. destruct (port =? 443)%Z; cbn [negb];
      destruct (startswith rel_url (lit "/"));
      rewrite <- ?app_assoc; reflexivity.
  - change (str_eqb (lit "http") (lit "file")) with false.
    change (str_eqb (lit "http") (lit "http")) with true.
    change (str_eqb (lit "http") (lit "https")) with false.
    cbn [andb orb]. rewrite orb_false_r.
    destruct (port =? 80)%Z; cbn [negb];
      destruct (startswith rel_url (lit "/"));
      rewrite <- ?app_assoc; reflexivity.
Qed.

(** X3: resolving a relative URL against an [http://] or [https://] base
    with an explicit port keeps scheme and host; the port is written only
    when it is not the default of the scheme (80, 443); a reference that
    starts with a slash replaces the path, any other one is appended to the
    directory of the base path. *)
Theorem resolve_url_port_suppression (secure : bool)
    (host digits path rel_url : str) (port : Z) :
  free_of 47 host -> free_of 58 host -> free_of 47 digits ->
  startswith path (lit "/") = true ->
  int 10 digits = Ok port ->
  is_absolute rel_url = false ->
  resolve_url ((if secure then lit "https://" else lit "http://")
               ++ host ++ 58%Z :: digits ++ path) rel_url
  = Ok ((if secure then lit "https://" else lit "http://")
        ++ host
        ++ (if (port =? (if secure then 443 else 80))%Z then []
            else lit ":" ++ str_of_int port)
        ++ (if startswith rel_url (lit "/") then rel_url
            else rsplit1_head 47 path ++ lit "/" ++ rel_url)).
Proof.
  intros H47 H58 Hd Hpath Hint Habs.
  set (u := {| u_scheme := if secure then lit "https" else lit "http";
               u_host := Some host; u_port := Some port; u_path := path |}).
  apply (resolve_url_http secure u); try reflexivity; [|assumption].
  rewrite parse_url_unfold. destruct secure.
  - change (startswith (lit "https://" ++ host ++ 58%Z :: digits ++ path)
                       (lit "file://")) with false.
    change (startswith (lit "https://" ++ host ++ 58%Z :: digits ++ path)
                       (lit "https://")) with true.
    cbv iota.
    change (skipn 8 (lit "https://" ++ host ++ 58%Z :: digits ++ path))
      with (host ++ 58%Z :: digits ++ path).
    rewrite parse_authority_port by assumption. now rewrite Hint.
  - change (startswith (lit "http://" ++ host ++ 58%Z :: digits ++ path)
                       (lit "file://")) with false.
    change (startswith (lit "http://" ++ host ++ 58%Z :: digits ++ path)
                       (lit "https://")) with false.
    change (startswith (lit "http://" ++ host ++ 58%Z :: digits ++ path)
                       (lit "http://")) with true.
    cbv iota.
    change (skipn 7 (lit "http://" ++ host ++ 58%Z :: digits ++ path))
      with (host ++ 58%Z :: digits ++ path).
    rewrite parse_authority_port by assumption. now rewrite Hint.
Qed.

Lemma resolve_url_port_suppression_witness :
  resolve_url (lit "http://a.com:80/dir/page.html") (lit "other.html")
  = Ok (lit "http://a.com/dir/other.html")
  /\ resolve_url (lit "https://a.com:8443/dir/page.html") (lit "/abs")
     = Ok (lit "https://a.com:8443/abs").
Proof.
  split.
  - apply (resolve_url_port_suppression false (lit "a.com") (lit "80")
             (lit "/dir/page.html") (lit "other.html") 80);
      try reflexivity; vm_compute; free_of_tac.
  - apply (resolve_url_port_suppression true (lit "a.com") (lit "8443")
             (lit "/dir/page.html") (lit "/abs") 8443);
      try reflexivity; vm_compute; free_of_tac.
Defined.

(** X4: resolving a relative URL against an [http://] or [https://] base
    without a port never writes a port. *)
Theorem resolve_url_default_port (secure : bool) (host path rel_url : str) :
  free_of 47 host -> free_of 58 host ->
  startswith path (lit "/") = true ->
  is_absolute rel_url = false ->
  resolve_url ((if secure then lit "https://" else lit "http://")
               ++ host ++ path) rel_url
  = Ok ((if secure then lit "https://" else lit "http://")
        ++ host
        ++ (if startswith rel_url (lit "/") then rel_url
            else rsplit1_head 47 path ++ lit "/" ++ rel_url)).
Proof.
  intros H47 H58 Hpath Habs.
  set (u := {| u_scheme := if secure then lit "https" else lit "http";
               u_host := Some host;
               u_port := Some (if secure then 443 else 80)%Z;
               u_path := path |}).
  rewrite (resolve_url_http secure u _ _ host (if secure then 443 else 80)%Z);
    try reflexivity; try assumption.
  - now rewrite Z.eqb_refl.
  - rewrite parse_url_unfold. destruct secure.
    + change (startswith (lit "https://" ++ host ++ path) (lit "file://"))
        with false.
      change (startswith (lit "https://" ++ host ++ path) (lit "https://"))
        with true.
      cbv iota.
      change (skipn 8 (lit "https://" ++ host ++ path)) with (host ++ path).
      now apply parse_authority_plain.
    + change (startswith (lit "http://" ++ host ++ path) (lit "file://"))
        with false.
      change (startswith (lit "http://" ++ host ++ path) (lit "https://"))
        with false.
      change (startswith (lit "http://" ++ host ++ path) (lit "http://"))
        with true.
      cbv iota.
      change (skipn 7 (lit "http://" ++ host ++ path)) with (host ++ path).
      now apply parse_authority_plain.
Qed.

Lemma resolve_url_default_port_witness :
  resolve_url (lit "http://a.com/dir/page.html") (lit "other.html")
  = Ok (lit "http://a.com/dir/other.html").
Proof.
  apply (resolve_url_default_port false (lit "a.com") (lit "/dir/page.html")
           (lit "other.html"));
    try reflexivity; vm_compute; free_of_tac.
Defined.

(** ** Fetching *)

Lemma int_error (base : Z) (s : str) :
  match int base s with
  | Ok _ => True
  | Raise e => e = ValueError
  | OutOfFuel => False
  end.
Proof. unfold int. now destruct (match strip s with [] => _ | _ => _ end). Qed.

Lemma parse_url_result (url_ : str) :
  match parse_url url_ with
  | Ok u => u_scheme u = lit "file"
            \/ exists host port, u_host u = Some host /\ u_port u = Some port
  | Raise e => e = ValueError
  | OutOfFuel => False
  end.
Proof.
  assert (Hauth : forall scheme rest default_port,
             match parse_authority scheme rest default_port with
             | Ok u => u_scheme u = lit "file"
                       \/ exists host port,
                            u_host u = Some host /\ u_port u = Some port
             | Raise e => e = ValueError
             | OutOfFuel => False
             end).
  { intros scheme rest default_port.
    destruct (parse_authority scheme rest default_port) as [u| |] eqn:E.
    - apply parse_authority_fields in E.
      destruct E as (_ & _ & (host & Hh & _) & (port & Hp) & _). eauto.
    - unfold parse_authority in E.
      destruct (match find_char 47 rest with Some _ => _ | None => _ end)
        as [host_port path].
      destruct (find_char 58 host_port); [|discriminate].
      pose proof (int_error 10 (skipn (n + 1) host_port)) as Hi.
      destruct (int 10 _); cbn [rbind] in E; congruence.
    - unfold parse_authority in E.
      destruct (match find_char 47 rest with Some _ => _ | None => _ end)
        as [host_port path].
      destruct (find_char 58 host_port); [|discriminate].
      pose proof (int_error 10 (skipn (n + 1) host_port)) as Hi.
      destruct (int 10 _); cbn [rbind] in E; congruence. }
  rewrite parse_url_unfold.
  destruct (startswith url_ (lit "file://")); [now left|].
  destruct (startswith url_ (lit "https://")); [apply Hauth|].
  destruct (startswith url_ (lit "http://")); apply Hauth.
Qed.

Lemma split_aux_nonempty (sep : str) (s : str) :
  forall (skip : nat) (cur : str), split_aux sep skip cur s <> [].
Proof.
  induction s as [|c s IH]; intros skip cur; cbn [split_aux]; [discriminate|].
  destruct skip; [|apply IH].
  destruct (startswith (c :: s) sep); [discriminate|apply IH].
Qed.

Lemma parse_status_result (line0 : str) :
  match parse_status line0 with
  | Ok _ => True
  | Raise e => e = ValueError
  | OutOfFuel => False
  end.
Proof.
  unfold parse_status.
  destruct (split (lit " ") line0) as [|p0 [|p1 parts]]; cbn; auto.
  apply int_error.
Qed.

Lemma parse_http_response_result (data : list Z) :
  match parse_http_response data with
  | Ok _ => True
  | Raise e => e = ValueError
  | OutOfFuel => False
  end.
Proof.
  unfold parse_http_response.
  destruct (find (crlf ++ crlf) data) as [sep|]; [|exact I].
  pose proof (split_aux_nonempty crlf (bytes_to_str (firstn sep data)) 0 [])
    as Hne.
  fold (split crlf (bytes_to_str (firstn sep data))) in Hne.
  destruct (split crlf (bytes_to_str (firstn sep data))) as [|line0 headers];
    [congruence|].
  cbn [rbind]. pose proof (parse_status_result line0) as Hs.
  destruct (parse_status line0) as [status| |]; cbn [rbind]; auto.
  now destruct (if is_redirect status then _ else _).
Qed.

Lemma fetch_url_result (w : World) (url_ : str) :
  match fetch_url w url_ with
  | Ok _ => True
  | Raise e => e = ValueError
  | OutOfFuel => False
  end.
Proof.
  unfold fetch_url.
  destruct (str_eqb url_ (lit "about:home") || str_eqb url_ (lit "about:blank"));
    [exact I|].
  pose proof (parse_url_result url_) as Hp.
  destruct (parse_url url_) as [u| |]; cbn [rbind];
    [|congruence|contradiction].
  destruct (str_eqb (u_scheme u) (lit "file")) eqn:Ef.
  { unfold fetch_file. destruct (file_open w (u_path u)); [|exact I].
    now destruct (file_read w _ _ _). }
  apply str_eqb_neq in Ef.
  destruct Hp as [Hp|(host & port & -> & ->)]; [contradiction|].
  destruct (dns_resolve w host =? 0)%Z; [exact I|].
  match goal with |- context [if (?s <? 0)%Z then _ else _] =>
    destruct (s <? 0)%Z end; [exact I|].
  match goal with |- context [parse_http_response ?d] =>
    pose proof (parse_http_response_result d) as Hr;
    destruct (parse_http_response d) as [[status body]| |]
  end; auto.
Qed.

Lemma resolve_url_result (base_url rel_url : str) :
  match resolve_url base_url rel_url with
  | Ok _ => True
  | Raise e => e = ValueError
  | OutOfFuel => False
  end.
Proof.
  unfold resolve_url. destruct (is_absolute rel_url); [exact I|].
  pose proof (parse_url_result base_url) as Hp.
  destruct (parse_url base_url) as [u| |]; cbn [rbind]; auto.
  destruct (str_eqb (u_scheme u) (lit "file")) eqn:Ef; [exact I|].
  apply str_eqb_neq in Ef.
  destruct Hp as [Hp|(host & port & -> & ->)]; [contradiction|exact I].
Qed.

(** X5: [fetch_url] answers with a status and a body, or raises
    [ValueError] (a port or a status that is no number); it raises nothing
    else, whatever the platform delivers. *)
Theorem fetch_url_raises_only_ValueError (w : World) (url_ : str) :
  (exists status body, fetch_url w url_ = Ok (status, body))
  \/ fetch_url w url_ = Raise ValueError.
Proof.
  pose proof (fetch_url_result w url_) as H.
  destruct (fetch_url w url_) as [[status body]|e|];
    [left; eauto|right; congruence|contradiction].
Qed.

(** The receive loop. *)

Lemma read_loop_gives_up (script : list (option (list Z))) :
  forall timeout : Z,
    (100 <= timeout + Z.of_nat (length script))%Z ->
    Forall idle (firstn (Z.to_nat (100 - timeout)) script) ->
    forall rest, read_loop (script ++ rest) timeout [] = [].
Proof.
  induction script as [|chunk script IH]; intros timeout Hlen Hidle rest.
  - cbn [length] in Hlen. cbn [app].
    destruct rest; cbn [read_loop];
      replace (timeout <? 100)%Z with false
        by (symmetry; apply Z.ltb_ge; lia); reflexivity.
  - cbn [app read_loop]. destruct (timeout <? 100)%Z eqn:Et; [|reflexivity].
    apply Z.ltb_lt in Et.
    replace (Z.to_nat (100 - timeout)) with (S (Z.to_nat (100 - (timeout + 1))))
      in Hidle by lia.
    cbn [firstn] in Hidle. inversion Hidle as [|? ? Hc Hrest]; subst.
    cbn [length] in Hlen.
    destruct Hc as [-> | ->]; cbn [length Nat.ltb Nat.leb]; apply IH;
      try assumption; lia.
Qed.

Lemma read_loop_collects (chunks : list (list Z)) :
  forall (timeout : Z) (response : list Z) (rest : list (option (list Z))),
    (timeout < 100)%Z ->
    Forall (fun chunk => chunk <> []) chunks ->
    response ++ List.concat chunks <> [] ->
    rest = [] \/ (exists chunk rest', rest = chunk :: rest' /\ idle chunk) ->
    read_loop (map Some chunks ++ rest) timeout response
    = response ++ List.concat chunks.
Proof.
  induction chunks as [|chunk chunks IH];
    intros timeout response rest Ht Hne Hdata Hrest.
  - cbn [map app List.concat] in *. rewrite app_nil_r in *.
    assert (Hlen : (0 <? length response) = true).
    { destruct response; [congruence|reflexivity]. }
    destruct Hrest as [->|(chunk & rest' & -> & Hidle)]; cbn [read_loop];
      replace (timeout <? 100)%Z with true by (symmetry; now apply Z.ltb_lt);
      [reflexivity|].
    destruct Hidle as [-> | ->]; now rewrite Hlen.
  - inversion Hne as [|? ? Hc Hcs]; subst.
    cbn [map app read_loop List.concat].
    replace (timeout <? 100)%Z with true by (symmetry; now apply Z.ltb_lt).
    destruct chunk as [|b chunk]; [congruence|].
    rewrite IH; try assumption; [now rewrite <- app_assoc|lia|].
    rewrite <- app_assoc. destruct response; discriminate.
Qed.

Lemma read_loop_skips_idle (idles : list (option (list Z))) :
  forall (timeout : Z) (rest : list (option (list Z))),
    (timeout + Z.of_nat (length idles) < 100)%Z ->
    Forall idle idles ->
    read_loop (idles ++ rest) timeout []
    = read_loop rest (timeout + Z.of_nat (length idles)) [].
Proof.
  induction idles as [|chunk idles IH]; intros timeout rest Hlen Hidle.
  - cbn [app length]. now rewrite Z.add_0_r.
  - inversion Hidle as [|? ? Hc Hcs]; subst. cbn [length] in Hlen.
    cbn [app read_loop].
    replace (timeout <? 100)%Z with true by (symmetry; apply Z.ltb_lt; lia).
    destruct Hc as [-> | ->]; cbn [length Nat.ltb Nat.leb];
      (rewrite IH; [f_equal; cbn [length]; lia|lia|assumption]).
Qed.

(** X6: the receive loop of [fetch_url].  After 100 polls in a row that
    deliver nothing it gives up with nothing received, whatever the socket
    would deliver later.  When data arrives before that, after fewer than
    100 idle polls, the loop returns all the chunks received up to the
    first poll that delivers nothing. *)
Theorem read_loop_behaviour :
  (forall (idles rest : list (option (list Z))),
      100 <= length idles -> Forall idle idles ->
      read_loop (idles ++ rest) 0 [] = [])
  /\ (forall (idles : list (option (list Z))) (chunks : list (list Z))
             (rest : list (option (list Z))),
        length idles < 100 -> Forall idle idles ->
        chunks <> [] -> Forall (fun chunk => chunk <> []) chunks ->
        rest = [] \/ (exists chunk rest', rest = chunk :: rest' /\ idle chunk) ->
        read_loop (idles ++ map Some chunks ++ rest) 0 []
        = List.concat chunks).
Proof.
  split.
  - intros idles rest Hlen Hidle. apply read_loop_gives_up; [lia|].
    now apply Forall_take.
  - intros idles chunks rest Hlen Hidle Hne Hchunks Hrest.
    rewrite read_loop_skips_idle by (assumption || lia).
    rewrite read_loop_collects; try assumption; [reflexivity|lia|].
    cbn [app]. destruct chunks as [|c cs]; [congruence|].
    inversion Hchunks; subst. destruct c; [congruence|discriminate].
Qed.

Lemma repeat_None_idle (n : nat) : Forall idle (repeat None n).
Proof. induction n; cbn [repeat]; constructor; [now left|assumption]. Defined.

Lemma read_loop_behaviour_witness :
  read_loop (repeat None 100 ++ [Some (lit "late")]) 0 [] = []
  /\ read_loop ([None; Some []] ++ map Some [lit "HTTP"; lit "/1.0"]
                ++ [None; Some (lit "never read")]) 0 []
     = lit "HTTP/1.0".
Proof.
  destruct read_loop_behaviour as [Hidle Hdata]. split.
  - apply Hidle; [rewrite repeat_length; lia|apply repeat_None_idle].
  - apply (Hdata [None; Some []] [lit "HTTP"; lit "/1.0"]
                 [None; Some (lit "never read")]).
    + cbn. lia.
    + constructor; [now left|]. constructor; [now right|constructor].
    + discriminate.
    + repeat constructor; discriminate.
    + right. exists None, [Some (lit "never read")]. split; [reflexivity|].
      now left.
Defined.

(** What is decoded is appended to what was decoded before. *)
Lemma decode_loop_acc (fuel : nat) :
  forall (text_ acc : str),
    decode_loop fuel text_ acc
    = match decode_loop fuel text_ [] with
      | Ok r => Ok (acc ++ r)
      | Raise e => Raise e
      | OutOfFuel => OutOfFuel
      end.
Proof.
  induction fuel as [|fuel IH]; intros text_ acc; [reflexivity|].
  destruct text_ as [|c rest]; cbn [decode_loop]; [now rewrite app_nil_r|].
  assert (Hlit : decode_loop fuel rest (acc ++ [c])
                 = match decode_loop fuel rest ([] ++ [c]) with
                   | Ok r => Ok (acc ++ r)
                   | Raise e => Raise e
                   | OutOfFuel => OutOfFuel
                   end).
  { rewrite (IH rest (acc ++ [c])), (IH rest ([] ++ [c])).
    destruct (decode_loop fuel rest []); try reflexivity.
    now rewrite <- app_assoc. }
  destruct (c =? 38)%Z; [|exact Hlit].
  destruct (find_char 59 (c :: rest)) as [e|]; [|exact Hlit].
  destruct (e <? 12); [|exact Hlit].
  destruct (decode_reference _ _) as [piece| |]; cbn [rbind]; try reflexivity.
  rewrite (IH _ (acc ++ piece)), (IH _ ([] ++ piece)).
  destruct (decode_loop fuel _ []); try reflexivity.
  now rewrite <- app_assoc.
Qed.

Lemma decode_loop_more_fuel (fuel : nat) :
  forall (fuel' : nat) (text_ acc r : str),
    fuel <= fuel' ->
    decode_loop fuel text_ acc = Ok r -> decode_loop fuel' text_ acc = Ok r.
Proof.
  induction fuel as [|fuel IH]; intros fuel' text_ acc r Hle; [discriminate|].
  destruct fuel' as [|fuel']; [lia|].
  destruct text_ as [|c rest]; cbn [decode_loop]; [auto|].
  assert (Hlit : decode_loop fuel rest (acc ++ [c]) = Ok r ->
                 decode_loop fuel' rest (acc ++ [c]) = Ok r)
    by (apply IH; lia).
  destruct (c =? 38)%Z; [|exact Hlit].
  destruct (find_char 59 (c :: rest)) as [e|]; [|exact Hlit].
  destruct (e <? 12); [|exact Hlit].
  destruct (decode_reference _ _) as [piece| |]; cbn [rbind]; auto.
  apply IH. lia.
Qed.

(** Text without an ampersand is copied, and the loop goes on behind it. *)
Lemma decode_loop_plain_prefix (s t : str) :
  free_of 38 s ->
  forall (fuel : nat) (acc : str),
    decode_loop (length s + fuel) (s ++ t) acc = decode_loop fuel t (acc ++ s).
Proof.
  induction 1 as [|c s Hc _ IH]; intros fuel acc; cbn [length app Nat.add].
  - now rewrite app_nil_r.
  - cbn [decode_loop].
    replace (c =? 38)%Z with false by (symmetry; apply Z.eqb_neq; exact Hc).
    rewrite IH, <- app_assoc. reflexivity.
Qed.

(** X7: entity decoding works piece by piece.  Text without an ampersand
    is kept and what follows it is decoded as if it stood alone; a
    reference with a body of at most 10 characters gives the value of its
    body (itself, when the body is not recognised), and what follows it is
    decoded as if it stood alone. *)
Theorem decode_entities_pieces (t r : str) :
  decode_entities t = Ok r ->
  (forall s : str,
      free_of 38 s -> decode_entities (s ++ t) = Ok (s ++ r))
  /\ (forall body : str,
        free_of 59 body -> length body <= 10 ->
        decode_entities (reference body ++ t)
        = Ok (match entity_value body with
              | Some v => v
              | None => reference body
              end ++ r)).
Proof.
  intros Ht. unfold decode_entities in Ht. split.
  - intros s Hs. unfold decode_entities. rewrite length_app.
    replace (S (length s + length t)) with (length s + S (length t)) by lia.
    rewrite decode_loop_plain_prefix by assumption.
    rewrite decode_loop_acc, Ht. reflexivity.
  - intros body Hfree Hlen. unfold decode_entities, reference.
    change ((38%Z :: body ++ [59%Z]) ++ t) with (38%Z :: (body ++ [59%Z]) ++ t).
    rewrite <- app_assoc. cbn [app].
    change (length (38%Z :: body ++ 59%Z :: t))
      with (S (length (body ++ 59%Z :: t))).
    rewrite decode_loop_amp.
    assert (Hfind : find_char 59 (38%Z :: body ++ 59%Z :: t)
                    = Some (S (length body))).
    { apply (find_char_app 59 (38%Z :: body) t).
      constructor; [lia|assumption]. }
    rewrite Hfind.
    replace (S (length body) <? 12) with true
      by (symmetry; apply Nat.ltb_lt; lia).
    assert (Hslice : slice (38%Z :: body ++ 59%Z :: t) 1 (S (length body))
                     = body).
    { unfold slice. cbn [skipn]. replace (S (length body) - 1)
        with (length body) by lia.
      rewrite skipn_O.
      now rewrite firstn_app, Nat.sub_diag, firstn_all, app_nil_r. }
    assert (Hwhole : firstn (S (length body) + 1) (38%Z :: body ++ 59%Z :: t)
                     = 38%Z :: body ++ [59%Z]).
    { replace (S (length body) + 1) with (S (length body + 1)) by lia.
      cbn [firstn]. rewrite firstn_app, firstn_all2 by lia.
      replace (length body + 1 - length body) with 1 by lia. reflexivity. }
    assert (Hrest : skipn (S (length body) + 1) (38%Z :: body ++ 59%Z :: t)
                    = t).
    { replace (S (length body) + 1) with (S (length body + 1)) by lia.
      cbn [skipn]. rewrite skipn_app, skipn_all2 by lia.
      replace (length body + 1 - length body) with 1 by lia. reflexivity. }
    rewrite Hslice, Hwhole, Hrest, decode_reference_value. cbn [rbind].
    rewrite decode_loop_acc.
    rewrite (decode_loop_more_fuel (S (length t))
               (S (length (body ++ 59%Z :: t))) t [] r);
      [reflexivity| |exact Ht].
    rewrite length_app. cbn [length]. lia.
Qed.

Lemma decode_entities_pieces_witness :
  decode_entities (lit "fish " ++ reference (lit "amp") ++ lit " chips")
  = Ok (lit "fish " ++ lit "&" ++ lit " chips").
Proof.
  assert (Hend : decode_entities (lit " chips") = Ok (lit " chips"))
    by (vm_compute; reflexivity).
  assert (Hmid : decode_entities (reference (lit "amp") ++ lit " chips")
                 = Ok (lit "&" ++ lit " chips")).
  { apply (proj2 (decode_entities_pieces (lit " chips") (lit " chips") Hend)
                 (lit "amp")).
    - vm_compute. free_of_tac.
    - vm_compute. lia. }
  apply (proj1 (decode_entities_pieces _ _ Hmid) (lit "fish ")).
  vm_compute. free_of_tac.
Defined.

(** *** Well-formed responses *)

Lemma find_blank_line_skip (pre s : str) :
  free_of 13 pre ->
  find (crlf ++ crlf) (pre ++ s)
  = option_map (fun k => length pre + k) (find (crlf ++ crlf) s).
Proof.
  induction 1 as [|x pre Hx _ IH]; cbn [app length].
  - now destruct (find (crlf ++ crlf) s).
  - cbn [find]. change (startswith (x :: pre ++ s) (crlf ++ crlf))
      with ((13 =? x)%Z && startswith (pre ++ s) (10%Z :: crlf)).
    replace (13 =? x)%Z with false by (symmetry; apply Z.eqb_neq; congruence).
    cbn [andb]. rewrite IH. now destruct (find (crlf ++ crlf) s).
Qed.

Lemma find_blank_line_next (x : Z) (s : str) :
  x <> 13%Z ->
  find (crlf ++ crlf) (crlf ++ x :: s)
  = option_map (fun k => 2 + k) (find (crlf ++ crlf) (x :: s)).
Proof.
  intros Hx. change (crlf ++ x :: s) with (13%Z :: 10%Z :: x :: s).
  cbn [find].
  change (startswith (13%Z :: 10%Z :: x :: s) (crlf ++ crlf))
    with ((13 =? 13)%Z && ((10 =? 10)%Z
          && ((13 =? x)%Z && startswith s [10%Z]))).
  change (startswith (10%Z :: x :: s) (crlf ++ crlf)) with false.
  replace (13 =? x)%Z with false by (symmetry; apply Z.eqb_neq; congruence).
  cbn [Z.eqb Pos.eqb andb].
  match goal with
  | |- option_map S (option_map S ?o) = _ => destruct o; reflexivity
  end.
Qed.

Lemma join_cons_head (sep : str) (x : Z) (h : str) (rest : list str) :
  exists s, join sep ((x :: h) :: rest) = x :: s.
Proof. destruct rest; cbn [join app]; eauto. Qed.

Lemma join_cons2 (sep l0 h : str) (rest : list str) :
  join sep (l0 :: h :: rest) = l0 ++ sep ++ join sep (h :: rest).
Proof. reflexivity. Qed.

(** The first blank line of a response made of lines without a carriage
    return, none of them empty after the first, is the one that ends the
    head. *)
Lemma find_blank_line (headers : list str) :
  forall (line0 body : str),
    Forall (free_of 13) (line0 :: headers) ->
    Forall (fun h => h <> []) headers ->
    find (crlf ++ crlf) (join crlf (line0 :: headers) ++ crlf ++ crlf ++ body)
    = Some (length (join crlf (line0 :: headers))).
Proof.
  induction headers as [|h rest IH]; intros line0 body Hfree Hne.
  - cbn [join]. rewrite find_blank_line_skip by now inversion Hfree.
    change (find (crlf ++ crlf) (crlf ++ crlf ++ body)) with (Some 0).
    cbn [option_map]. f_equal. lia.
  - rewrite join_cons2, <- !app_assoc.
    inversion Hfree as [|? ? H0 Hrest]; subst.
    inversion Hne as [|? ? Hh Hne']; subst.
    rewrite find_blank_line_skip by assumption.
    destruct h as [|x h']; [contradiction|].
    destruct (join_cons_head crlf x h' rest) as [s Es].
    assert (Hx : x <> 13%Z).
    { inversion Hrest as [|? ? Hxh _]; subst. now inversion Hxh. }
    pose proof (IH (x :: h') body Hrest Hne') as Hfind.
    rewrite Es in Hfind |- *. cbn [app] in Hfind.
    change (crlf ++ (x :: s) ++ crlf ++ crlf ++ body)
      with (crlf ++ x :: s ++ crlf ++ crlf ++ body).
    rewrite find_blank_line_next by assumption.
    rewrite Hfind. cbn [option_map]. f_equal.
    rewrite !length_app. cbn [length crlf]. lia.
Qed.

Lemma split_crlf_skip (pre s : str) :
  free_of 13 pre ->
  forall cur : str,
    split_aux crlf 0 cur (pre ++ s) = split_aux crlf 0 (rev pre ++ cur) s.
Proof.
  induction 1 as [|x pre Hx _ IH]; intros cur; [reflexivity|].
  cbn [app split_aux].
  change (startswith (x :: pre ++ s) crlf)
    with ((13 =? x)%Z && startswith (pre ++ s) [10%Z]).
  replace (13 =? x)%Z with false by (symmetry; apply Z.eqb_neq; congruence).
  cbn [andb]. rewrite IH. cbn [rev]. now rewrite <- app_assoc.
Qed.

(** [split] undoes [join] on lines without a carriage return. *)
Lemma split_join_crlf (headers : list str) :
  forall line0 : str,
    Forall (free_of 13) (line0 :: headers) ->
    split crlf (join crlf (line0 :: headers)) = line0 :: headers.
Proof.
  unfold split.
  induction headers as [|h rest IH]; intros line0 Hfree;
    inversion Hfree as [|? ? H0 Hrest]; subst.
  - cbn [join]. rewrite <- (app_nil_r line0) at 1.
    rewrite split_crlf_skip by assumption. cbn [split_aux].
    now rewrite app_nil_r, rev_involutive.
  - rewrite join_cons2, split_crlf_skip by assumption.
    change (crlf ++ join crlf (h :: rest))
      with (13%Z :: 10%Z :: join crlf (h :: rest)).
    cbn [split_aux startswith Z.eqb Pos.eqb andb length crlf Nat.sub].
    rewrite app_nil_r, rev_involutive. f_equal. now apply IH.
Qed.

(** X8: a response whose head is a status line and header lines, joined
    and ended by CR LF, none of them holding a carriage return and no
    header empty, followed by a blank line and a body: the status is read
    off the status line, and the result is the body after the first blank
    line, byte for byte, unless the status is a redirect and a header
    starts with [location:], whatever its case; then it is the stripped
    value of the first such header. *)
Theorem parse_http_response_well_formed (line0 : str) (headers : list str)
    (body : list Z) (status : Z) :
  Forall (free_of 13) (line0 :: headers) ->
  Forall (fun h => h <> []) headers ->
  parse_status line0 = Ok status ->
  parse_http_response (join crlf (line0 :: headers) ++ crlf ++ crlf ++ body)
  = Ok (status,
        match (if is_redirect status then find_location headers else None) with
        | Some location => location
        | None => body
        end).
Proof.
  intros Hfree Hne Hstatus. unfold parse_http_response.
  rewrite find_blank_line by assumption.
  set (head := join crlf (line0 :: headers)).
  rewrite firstn_app, Nat.sub_diag, firstn_all. cbn [firstn].
  rewrite app_nil_r. unfold bytes_to_str. subst head.
  rewrite split_join_crlf by assumption. cbn [rbind tl].
  rewrite Hstatus. cbn [rbind].
  rewrite skipn_app, skipn_all2 by lia.
  replace (length (join crlf (line0 :: headers)) + 4
           - length (join crlf (line0 :: headers))) with 4 by lia.
  change (skipn 4 (crlf ++ crlf ++ body)) with body. cbn [app].
  now destruct (if is_redirect status then find_location headers else None).
Qed.

Lemma parse_http_response_well_formed_witness :
  parse_http_response
    (join crlf [lit "HTTP/1.0 302 Found"; lit "Server: x";
                lit "LOCATION:  /new "]
     ++ crlf ++ crlf ++ lit "moved" ++ crlf ++ crlf ++ lit "on")
  = Ok (302%Z, lit "/new").
Proof.
  apply (parse_http_response_well_formed (lit "HTTP/1.0 302 Found")
           [lit "Server: x"; lit "LOCATION:  /new "]
           (lit "moved" ++ crlf ++ crlf ++ lit "on") 302).
  - unfold free_of. repeat constructor; discriminate.
  - repeat constructor; discriminate.
  - vm_compute. reflexivity.
Defined.

(** ** The parser, again *)

Lemma lower_char_idempotent (c : Z) : lower_char (lower_char c) = lower_char c.
Proof.
  unfold lower_char.
  destruct ((65 <=? c) && (c <=? 90))%Z eqn:E; [|now rewrite E].
  apply andb_prop in E as [E1 E2]. apply Z.leb_le in E1, E2.
  replace ((65 <=? c + 32) && (c + 32 <=? 90))%Z with false; [reflexivity|].
  symmetry. apply andb_false_iff. right. apply Z.leb_gt. lia.
Qed.

Lemma lower_idempotent (s : str) : lower (lower s) = lower s.
Proof.
  unfold lower. rewrite map_map. apply map_ext. intros c.
  apply lower_char_idempotent.
Qed.

Lemma parse_attr_name (s1 : str) :
  exists raw, fst (fst (parse_attr s1)) = lower raw.
Proof.
  unfold parse_attr.
  exists (take_while (fun c => negb (attr_name_end c)) s1).
  destruct (drop_while attr_name_end _) as [|q s3]; [reflexivity|].
  now destruct (is_quote q).
Qed.

Lemma parse_attrs_loop_keys (fuel : nat) :
  forall (s : str) (attrs_ a : gmap (list Z) (list Z)),
    (forall k v, attrs_ !! k = Some v -> k <> [] /\ lower k = k) ->
    parse_attrs_loop fuel s attrs_ = Ok a ->
    forall k v, a !! k = Some v -> k <> [] /\ lower k = k.
Proof.
  induction fuel as [|fuel IH]; intros s attrs_ a Hinv; [discriminate|].
  cbn [parse_attrs_loop].
  destruct (drop_while attr_space s) as [|c s1].
  { intros H. injection H as <-. exact Hinv. }
  destruct (parse_attr_name (c :: s1)) as [raw Hname].
  destruct (parse_attr (c :: s1)) as [[name value] s4]. cbn [fst] in Hname.
  apply IH. destruct (truthy name) eqn:Et; [|exact Hinv].
  intros k v Hk. destruct (decide (name = k)) as [<-|Hne].
  - split; [now apply truthy_nonempty|]. rewrite Hname.
    apply lower_idempotent.
  - rewrite lookup_insert_ne in Hk by assumption. eapply Hinv; eassumption.
Qed.

(** X9: the attribute names that [parse_attrs] returns are not empty and
    are in lower case. *)
Theorem parse_attrs_keys (attr_str : str) (a : gmap (list Z) (list Z))
    (k v : str) :
  parse_attrs attr_str = Ok a -> a !! k = Some v ->
  k <> [] /\ lower k = k.
Proof.
  intros Hparse. eapply parse_attrs_loop_keys; [|exact Hparse].
  intros k' v' H. rewrite lookup_empty in H. discriminate.
Qed.

Lemma parse_attrs_keys_witness :
  lit "href" <> [] /\ lower (lit "href") = lit "href".
Proof.
  apply (parse_attrs_keys (lit " HREF=x =y")
           (<[lit "href" := lit "x"]> (∅ : gmap (list Z) (list Z)))
           (lit "href") (lit "x"));
    vm_compute; reflexivity.
Defined.

Lemma tag_of_alter (f : Node -> Node) (t : nat) (h : list Node) (id : nat) :
  (forall n, n_tag (f n) = n_tag n) ->
  tag_of (alter f t h) id = tag_of h id.
Proof.
  intros Hf. unfold tag_of. rewrite list_lookup_alter.
  destruct (decide (t = id)) as [->|Hne]; [|reflexivity].
  destruct (h !! id); cbn; [apply Hf|reflexivity].
Qed.

Lemma tag_of_app_l (h h' : list Node) (id : nat) :
  id < length h -> tag_of (h ++ h') id = tag_of h id.
Proof. intros H. unfold tag_of. now rewrite lookup_app_l. Qed.

Lemma new_Element_tag (raw : str) (a : gmap (list Z) (list Z)) :
  n_tag (new_Element (lower raw) a) = lower raw.
Proof.
  cbn. destruct (lower raw) eqn:E; [reflexivity|].
  cbn [truthy]. rewrite <- E. apply lower_idempotent.
Qed.

(** What an opening tag does to the heap and to the stack. *)
Lemma open_tag_effect (tag_content : str) (st st' : PState) :
  open_tag tag_content st = Ok st' ->
  exists (raw : str) (a : gmap (list Z) (list Z)) (t : nat) (stk : list nat),
    stack st = t :: stk
    /\ heap st' = alter (add_child (length (heap st))) t (heap st)
                  ++ [new_Element (lower raw) a]
    /\ (stack st' = length (heap st) :: stack st
        /\ is_void (lower raw) = false
        \/ stack st' = stack st).
Proof.
  unfold open_tag, top.
  assert (Hnamed : forall r : result (str * gmap (list Z) (list Z)),
             r = match find_char 32 tag_content with
                 | None => Ok (lower (rstrip_char 47 tag_content),
                               (∅ : gmap (list Z) (list Z)))
                 | Some space =>
                     let* a := parse_attrs (skipn space tag_content) in
                     Ok (lower (firstn space tag_content), a)
                 end ->
             forall tag_name a, r = Ok (tag_name, a) ->
                                exists raw, tag_name = lower raw).
  { intros r -> tag_name a. destruct (find_char 32 tag_content) as [space|].
    - destruct (parse_attrs _); cbn [rbind]; try discriminate.
      intros H. injection H as <- <-. eauto.
    - intros H. injection H as <- <-. eauto. }
  specialize (Hnamed _ eq_refl).
  destruct (match find_char 32 tag_content with
            | Some _ => _ | None => _ end) as [[tag_name a]| |];
    cbn [rbind]; try discriminate.
  destruct (Hnamed tag_name a eq_refl) as [raw ->].
  destruct (stack st) as [|t stk] eqn:Es; cbn [rbind]; [discriminate|].
  destruct (negb (str_in (lower raw) void_tags)) eqn:Ev; cbn [andb].
  - destruct (negb (endswith tag_content (lit "/"))); intros H;
      injection H as <-; exists raw, a, t, stk; cbn [heap stack];
      (split; [reflexivity|]); (split; [reflexivity|]).
    + left. split; [reflexivity|]. now apply negb_true_iff in Ev.
    + now right.
  - intros H. injection H as <-. exists raw, a, t, stk. cbn [heap stack].
    split; [reflexivity|]. split; [reflexivity|now right].
Qed.

Lemma open_tag_void (tag_content : str) (st st' : PState) :
  void_inv st -> open_tag tag_content st = Ok st' -> void_inv st'.
Proof.
  intros (Hroot & Hstk & Hnodes) Hopen.
  destruct (open_tag_effect _ _ _ Hopen) as (raw & a & t & stk & Es & Eh & Estk).
  rewrite Es in Hstk. inversion Hstk as [|? ? [Ht Htv] Hrest]; subst.
  set (h := heap st) in *.
  set (h1 := alter (add_child (length h)) t h) in *.
  assert (Hlen1 : length h1 = length h) by apply length_alter.
  assert (Hlen : length (heap st') = S (length h))
    by (rewrite Eh, length_app, Hlen1; cbn; lia).
  assert (Htag : forall id, id < length h -> tag_of (heap st') id = tag_of h id).
  { intros id Hid. rewrite Eh, tag_of_app_l by lia.
    now apply tag_of_alter. }
  assert (Hold : Forall (fun id => id < length (heap st')
                                   /\ is_void (tag_of (heap st') id) = false)
                        (t :: stk)).
  { eapply List.Forall_impl; [|exact Hstk]. cbn. intros id [Hid Hv].
    rewrite Hlen, Htag by assumption. split; [lia|assumption]. }
  split; [rewrite Htag by (unfold root_id; lia); exact Hroot|]. split.
  - destruct Estk as [[-> Hv]| ->]; rewrite Es; [|exact Hold].
    constructor; [|exact Hold]. split; [lia|].
    rewrite Eh. unfold tag_of. rewrite lookup_app_r by lia.
    rewrite Hlen1, Nat.sub_diag. cbn [lookup list_lookup].
    now rewrite new_Element_tag.
  - intros id n Hn Hv. rewrite Eh in Hn.
    destruct (Nat.lt_ge_cases id (length h)) as [Hlt|Hge].
    + rewrite lookup_app_l in Hn by lia. unfold h1 in Hn.
      rewrite list_lookup_alter in Hn.
      destruct (decide (t = id)) as [->|Hne]; [|now apply (Hnodes id)].
      destruct (h !! id) as [n0|] eqn:E0; [|discriminate].
      cbn in Hn. injection Hn as <-. cbn [add_child n_tag] in Hv.
      unfold tag_of in Htv. fold h in Htv. rewrite E0 in Htv. congruence.
    + rewrite lookup_app_r in Hn by lia. rewrite Hlen1 in Hn.
      destruct (id - length h) as [|k]; [|destruct k; discriminate].
      cbn in Hn. injection Hn as <-. split; reflexivity.
Qed.

Lemma text_run_void (text_ : str) (st st' : PState) :
  void_inv st -> text_run text_ st = Ok st' -> void_inv st'.
Proof.
  intros (Hroot & Hstk & Hnodes). unfold text_run, top.
  destruct (truthy (strip text_));
    [|intros H; injection H as <-; split; [exact Hroot|split; assumption]].
  destruct (decode_entities text_) as [r| |]; cbn [rbind]; try discriminate.
  destruct (stack st) as [|t stk] eqn:Es; cbn [rbind]; [discriminate|].
  intros H. injection H as <-. unfold void_inv. cbn [heap stack].
  inversion Hstk as [|? ? [Ht Htv] Hrest]; subst.
  assert (Htag : forall id,
             tag_of (alter (add_text (join (lit " ") (split_ws r))) t (heap st))
                    id = tag_of (heap st) id)
    by (intros id; now apply tag_of_alter).
  split; [now rewrite Htag|]. split.
  - rewrite <- Es. eapply List.Forall_impl; [|rewrite Es; exact Hstk].
    cbn. intros id [Hid Hv]. now rewrite length_alter, Htag.
  - intros id n Hn Hv. rewrite list_lookup_alter in Hn.
    destruct (decide (t = id)) as [->|Hne]; [|now apply (Hnodes id)].
    destruct (heap st !! id) as [n0|] eqn:E0; [|discriminate].
    cbn in Hn. injection Hn as <-. cbn [add_text n_tag] in Hv.
    unfold tag_of in Htv. rewrite E0 in Htv. congruence.
Qed.

Lemma close_tag_void (tag_name : str) (st : PState) :
  void_inv st -> void_inv (close_tag tag_name st).
Proof.
  intros (Hroot & Hstk & Hnodes). split; [exact Hroot|].
  split; [|exact Hnodes]. cbn [close_tag heap stack].
  now apply pop_if_open_sub, pop_to_match_sub.
Qed.

Lemma parse_loop_void (fuel : nat) :
  forall (html : str) (st st' : PState),
    void_inv st -> parse_loop fuel html st = Ok st' -> void_inv st'.
Proof.
  induction fuel as [|fuel IH]; intros html st st' Hinv; [discriminate|].
  destruct html as [|c html']; cbn [parse_loop].
  { intros H. now injection H as <-. }
  destruct (c =? 60)%Z.
  - destruct (find_char 62 (c :: html')) as [e|];
      [|intros H; now injection H as <-].
    destruct (startswith _ (lit "!")); [now apply IH|].
    destruct (startswith _ (lit "/")).
    + apply IH. now apply close_tag_void.
    + destruct (open_tag _ st) as [st1| |] eqn:E; cbn [rbind];
        try discriminate.
      apply IH. eapply open_tag_void; eassumption.
  - destruct (text_run _ st) as [st1| |] eqn:E; cbn [rbind]; try discriminate.
    apply IH. eapply text_run_void; eassumption.
Qed.

(** Every element of a reified tree is an object of the heap. *)
Lemma reify_elements (h : list Node) (fuel : nat) :
  forall (id : nat) (e : Element),
    In e (all_elements (reify fuel h id)) ->
    e = empty_Element
    \/ exists id' n, h !! id' = Some n /\ tag e = n_tag n
                     /\ text e = n_text n
                     /\ length (children e) = length (n_children n).
Proof.
  induction fuel as [|fuel IH]; intros id e Hin.
  - cbn in Hin. destruct Hin as [<-|[]]. now left.
  - cbn [reify] in Hin. destruct (h !! id) as [n|] eqn:E.
    + cbn [all_elements children] in Hin. destruct Hin as [<-|Hin].
      * right. exists id, n. cbn. rewrite length_map. auto.
      * apply in_concat in Hin. destruct Hin as (l & Hl & Hin).
        apply in_map_iff in Hl. destruct Hl as (child & <- & Hchild).
        apply in_map_iff in Hchild. destruct Hchild as (c & <- & _).
        now apply (IH c).
    + cbn in Hin. destruct Hin as [<-|[]]. now left.
Qed.

(** X10: the tree of [parse_html] has the synthetic element [root] at its
    top, and a void element ([br], [hr], [img], [input], [meta], [link])
    owns neither children nor text, wherever it stands in the tree. *)
Theorem parse_html_void_elements (html : str) (root : Element) :
  parse_html html = Ok root ->
  tag root = lit "root"
  /\ forall e : Element,
       In e (all_elements root) -> is_void (tag e) = true ->
       children e = [] /\ text e = [].
Proof.
  unfold parse_html.
  destruct (parse_loop (S (length html)) html parse_init) as [st| |] eqn:E;
    cbn [rbind]; try discriminate.
  intros H. injection H as <-.
  assert (Hinv : void_inv st).
  { eapply parse_loop_void; [|exact E]. split; [reflexivity|].
    split; [repeat constructor; cbn; lia|].
    intros [|id] n Hn Hv; [|discriminate]. injection Hn as <-. discriminate. }
  destruct Hinv as (Hroot & Hstk & Hnodes). split.
  - unfold tag_of in Hroot. destruct (heap st) as [|n0 h] eqn:Eh;
      [discriminate|]. cbn in Hroot |- *. exact Hroot.
  - intros e Hin Hv. apply reify_elements in Hin.
    destruct Hin as [->|(id & n & Hn & Ht & Htx & Hc)]; [discriminate|].
    rewrite Ht in Hv. destruct (Hnodes id n Hn Hv) as [Hc0 Ht0].
    rewrite Hc0 in Hc. rewrite Htx, Ht0.
    destruct (children e); [auto|discriminate].
Qed.

Lemma parse_html_void_elements_witness :
  exists root,
    parse_html (lit "<p>a<br>b<img src=x>c</img>d</p>") = Ok root
    /\ tag root = lit "root"
    /\ forall e : Element,
         In e (all_elements root) -> is_void (tag e) = true ->
         children e = [] /\ text e = [].
Proof.
  destruct (parse_html (lit "<p>a<br>b<img src=x>c</img>d</p>"))
    as [root| |] eqn:E; [|vm_compute in E; discriminate
                         |vm_compute in E; discriminate].
  exists root. split; [reflexivity|].
  exact (parse_html_void_elements _ root E).
Defined.

(** With fuel enough for the text that is left, the loop does not depend
    on the fuel. *)
Lemma parse_loop_fuel (fuel1 : nat) :
  forall (fuel2 : nat) (html : str) (st : PState),
    length html < fuel1 -> length html < fuel2 ->
    parse_loop fuel1 html st = parse_loop fuel2 html st.
Proof.
  induction fuel1 as [|fuel1 IH]; intros fuel2 html st H1 H2; [lia|].
  destruct fuel2 as [|fuel2]; [lia|].
  destruct html as [|c html']; cbn [parse_loop]; [reflexivity|].
  cbn [length] in H1, H2.
  destruct (c =? 60)%Z eqn:Ec.
  - destruct (find_char 62 (c :: html')) as [e|]; [|reflexivity].
    assert (Hrest : length (skipn (e + 1) (c :: html')) < S (length html')).
    { rewrite length_skipn. cbn [length]. lia. }
    destruct (startswith _ (lit "!")); [apply IH; lia|].
    destruct (startswith _ (lit "/")); [apply IH; lia|].
    destruct (open_tag _ st); cbn [rbind]; try reflexivity. apply IH; lia.
  - set (next_tag := match find_char 60 (c :: html') with
                     | Some k => k
                     | None => length (c :: html')
                     end).
    assert (Hpos : 1 <= next_tag).
    { subst next_tag. destruct (find_char 60 (c :: html')) as [k|] eqn:Ef.
      - apply (find_char_cons_pos 60 c html'); [|assumption].
        intros ->. discriminate.
      - cbn [length]. lia. }
    destruct (text_run _ st); cbn [rbind]; try reflexivity.
    apply IH; rewrite length_skipn; cbn [length]; lia.
Qed.

Lemma lstrip_keeps_last (c : Z) (s : str) :
  is_space c = false -> exists r, lstrip (s ++ [c]) = r ++ [c].
Proof.
  intros Hc. induction s as [|x s IH]; cbn [app lstrip].
  - rewrite Hc. now exists [].
  - destruct (is_space x); [exact IH|]. now exists (x :: s).
Qed.

Lemma strip_keeps_first (c : Z) (s : str) :
  is_space c = false -> exists r, strip (c :: s) = c :: r.
Proof.
  intros Hc. unfold strip, rstrip. cbn [lstrip]. rewrite Hc. cbn [rev].
  destruct (lstrip_keeps_last c (rev s) Hc) as [r ->].
  rewrite rev_app_distr. cbn. eauto.
Qed.

Lemma parse_loop_declaration (fuel : nat) (inner rest : str) (st : PState) :
  free_of 62 inner ->
  parse_loop (S fuel) (lit "<!" ++ inner ++ lit ">" ++ rest) st
  = parse_loop fuel rest st.
Proof.
  intros Hfree.
  change (lit "<!" ++ inner ++ lit ">" ++ rest)
    with (60%Z :: (33%Z :: inner) ++ 62%Z :: rest).
  cbn [parse_loop]. rewrite Z.eqb_refl.
  assert (Hfree' : free_of 62 (60%Z :: 33%Z :: inner))
    by (constructor; [lia|constructor; [lia|assumption]]).
  assert (Hfind : find_char 62 (60%Z :: (33%Z :: inner) ++ 62%Z :: rest)
                  = Some (S (S (length inner))))
    by (apply (find_char_app 62 (60%Z :: 33%Z :: inner) rest Hfree')).
  rewrite Hfind.
  assert (Hslice : slice (60%Z :: (33%Z :: inner) ++ 62%Z :: rest) 1
                         (S (S (length inner))) = 33%Z :: inner).
  { unfold slice. cbn [skipn app].
    replace (S (S (length inner)) - 1) with (length (33%Z :: inner))
      by (cbn [length]; lia).
    change (33%Z :: inner ++ 62%Z :: rest)
      with ((33%Z :: inner) ++ 62%Z :: rest).
    now rewrite firstn_app, firstn_all, Nat.sub_diag, app_nil_r. }
  assert (Hrest : skipn (S (S (length inner)) + 1)
                        (60%Z :: (33%Z :: inner) ++ 62%Z :: rest) = rest).
  { replace (S (S (length inner)) + 1) with (S (S (length inner + 1))) by lia.
    cbn [skipn app]. rewrite skipn_app, skipn_all2 by lia.
    replace (length inner + 1 - length inner) with 1 by lia. reflexivity. }
  rewrite Hslice, Hrest.
  destruct (strip_keeps_first 33 inner eq_refl) as [r ->]. reflexivity.
Qed.

(** X11: a declaration or comment, from [<!] to the first [>] after it, is
    skipped: the document parses as if it started after it.  (A [>]
    inside a comment therefore ends the comment.) *)
Theorem parse_html_skips_declaration (inner rest : str) :
  free_of 62 inner ->
  parse_html (lit "<!" ++ inner ++ lit ">" ++ rest) = parse_html rest.
Proof.
  intros Hfree. unfold parse_html.
  rewrite parse_loop_declaration by assumption.
  rewrite (parse_loop_fuel _ (S (length rest)) rest); [reflexivity| |lia].
  rewrite !length_app. change (length (lit "<!")) with 2.
  change (length (lit ">")) with 1. lia.
Qed.

Lemma parse_html_skips_declaration_witness :
  parse_html (lit "<!--x--><p>y</p>") = parse_html (lit "<p>y</p>").
Proof.
  apply (parse_html_skips_declaration (lit "--x--") (lit "<p>y</p>")).
  vm_compute. free_of_tac.
Defined.

(** *** A tag that is not closed *)

Lemma find_char_app_l (c : Z) (s post : str) :
  forall k : nat,
    find_char c s = Some k ->
    find_char c (s ++ post) = Some k /\ k < length s.
Proof.
  induction s as [|x s IH]; intros k; [discriminate|].
  cbn [app]. rewrite !find_char_cons. destruct (c =? x)%Z.
  - intros [= <-]. cbn [length]. split; [reflexivity|lia].
  - destruct (find_char c s) as [j|]; [|discriminate].
    intros [= <-]. destruct (IH j eq_refl) as [-> Hj].
    cbn [length option_map]. split; [reflexivity|lia].
Qed.

Lemma parse_loop_truncated (t : str) (fuel : nat) :
  free_of 62 t ->
  forall (s : str) (st : PState),
    parse_loop fuel (s ++ 60%Z :: t) st = parse_loop fuel s st.
Proof.
  intros Ht. induction fuel as [|fuel IH]; intros s st; [reflexivity|].
  assert (Hopen : find_char 62 (60%Z :: t) = None).
  { apply find_char_free. constructor; [lia|exact Ht]. }
  destruct s as [|c s'].
  { cbn [app parse_loop]. rewrite Z.eqb_refl, Hopen. reflexivity. }
  change ((c :: s') ++ 60%Z :: t) with (c :: s' ++ 60%Z :: t).
  cbn [parse_loop]. destruct (c =? 60)%Z eqn:Ec.
  - change (c :: s' ++ 60%Z :: t) with ((c :: s') ++ 60%Z :: t).
    destruct (find_char 62 (c :: s')) as [e|] eqn:Ef.
    + destruct (find_char_app_l 62 (c :: s') (60%Z :: t) e Ef) as [-> He].
      assert (Hslice : slice ((c :: s') ++ 60%Z :: t) 1 e
                       = slice (c :: s') 1 e).
      { unfold slice. rewrite skipn_app, firstn_app, length_skipn.
        replace (1 - length (c :: s')) with 0 by (cbn [length]; lia).
        replace (e - 1 - (length (c :: s') - 1)) with 0 by lia.
        cbn [skipn firstn]. now rewrite app_nil_r. }
      assert (Hrest : skipn (e + 1) ((c :: s') ++ 60%Z :: t)
                      = skipn (e + 1) (c :: s') ++ 60%Z :: t).
      { rewrite skipn_app. replace (e + 1 - length (c :: s')) with 0 by lia.
        reflexivity. }
      rewrite Hslice, Hrest.
      destruct (startswith _ (lit "!")); [apply IH|].
      destruct (startswith _ (lit "/")); [apply IH|].
      destruct (open_tag _ st); cbn [rbind]; try reflexivity. apply IH.
    + apply find_char_none_free in Ef.
      rewrite (find_char_app_free 62 (c :: s') (60%Z :: t) Ef), Hopen.
      reflexivity.
  - change (c :: s' ++ 60%Z :: t) with ((c :: s') ++ 60%Z :: t).
    destruct (find_char 60 (c :: s')) as [k|] eqn:Ef.
    + destruct (find_char_app_l 60 (c :: s') (60%Z :: t) k Ef) as [-> Hk].
      rewrite firstn_app, skipn_app.
      replace (k - length (c :: s')) with 0 by lia.
      cbn [firstn skipn]. rewrite app_nil_r.
      destruct (text_run _ st); cbn [rbind]; try reflexivity. apply IH.
    + apply find_char_none_free in Ef.
      rewrite (find_char_app 60 (c :: s') t Ef).
      rewrite firstn_app, skipn_app, Nat.sub_diag, firstn_all, skipn_all.
      cbn [firstn skipn app]. rewrite app_nil_r.
      destruct (text_run _ st) as [st'| |]; cbn [rbind]; try reflexivity.
      apply (IH [] st').
Qed.

(** X12: a tag that is never closed ends the document: when no [>]
    follows a [<], the parser stops there, and the tree is the tree of the
    text before that [<]. *)
Theorem parse_html_unclosed_tag (s t : str) :
  free_of 62 t ->
  parse_html (s ++ lit "<" ++ t) = parse_html s.
Proof.
  intros Ht. unfold parse_html. change (lit "<" ++ t) with (60%Z :: t).
  rewrite parse_loop_truncated by assumption.
  rewrite (parse_loop_fuel _ (S (length s)) s); [reflexivity| |lia].
  rewrite length_app. cbn [length]. lia.
Qed.

Lemma parse_html_unclosed_tag_witness :
  parse_html (lit "<p>one</p>" ++ lit "<" ++ lit "a href=x")
  = parse_html (lit "<p>one</p>").
Proof.
  apply (parse_html_unclosed_tag (lit "<p>one</p>") (lit "a href=x")).
  unfold free_of. repeat constructor; discriminate.
Defined.

(** *** Attribute values *)

Lemma take_while_app (p : Z -> bool) (pre : str) (c : Z) (post : str) :
  Forall (fun x => p x = true) pre -> p c = false ->
  take_while p (pre ++ c :: post) = pre.
Proof.
  intros Hpre Hc. induction Hpre as [|x pre Hx _ IH]; cbn [app take_while].
  - now rewrite Hc.
  - now rewrite Hx, IH.
Qed.

Lemma drop_while_app (p : Z -> bool) (pre : str) (c : Z) (post : str) :
  Forall (fun x => p x = true) pre -> p c = false ->
  drop_while p (pre ++ c :: post) = c :: post.
Proof.
  intros Hpre Hc. induction Hpre as [|x pre Hx _ IH]; cbn [app drop_while].
  - now rewrite Hc.
  - now rewrite Hx, IH.
Qed.

Lemma parse_attrs_loop_more_fuel (fuel : nat) :
  forall (fuel' : nat) (s : str) (acc a : gmap (list Z) (list Z)),
    fuel <= fuel' ->
    parse_attrs_loop fuel s acc = Ok a -> parse_attrs_loop fuel' s acc = Ok a.
Proof.
  induction fuel as [|fuel IH]; intros fuel' s acc a Hle; [discriminate|].
  destruct fuel' as [|fuel']; [lia|]. cbn [parse_attrs_loop].
  destruct (drop_while attr_space s) as [|c s1]; [auto|].
  destruct (parse_attr (c :: s1)) as [[name value] s4].
  apply IH. lia.
Qed.

(** Attributes met later win over those met before. *)
Lemma parse_attrs_loop_union (fuel : nat) :
  forall (s : str) (acc : gmap (list Z) (list Z)),
    parse_attrs_loop fuel s acc
    = match parse_attrs_loop fuel s ∅ with
      | Ok a => Ok (a ∪ acc)
      | Raise e => Raise e
      | OutOfFuel => OutOfFuel
      end.
Proof.
  induction fuel as [|fuel IH]; intros s acc; [reflexivity|].
  cbn [parse_attrs_loop].
  destruct (drop_while attr_space s) as [|c s1].
  { now rewrite (left_id_L ∅ (∪)). }
  destruct (parse_attr (c :: s1)) as [[name value] s4].
  destruct (truthy name); [|apply IH].
  rewrite (IH s4 (<[name:=value]> acc)), (IH s4 (<[name:=value]> ∅)).
  destruct (parse_attrs_loop fuel s4 ∅) as [a0| |]; try reflexivity.
  now rewrite insert_empty, <- (assoc_L (∪)), <- insert_union_singleton_l.
Qed.

(** X13: an attribute [name=value] with a quoted value, at the head of an
    attribute string: the name is put in lower case, the value is the text
    between the quotes, unchanged (it may hold white space and the other
    quote character), and the attributes that follow are read after the
    closing quote; an attribute that follows under the same name wins. *)
Theorem parse_attrs_quoted (name value rest : str) (q : Z)
    (a : gmap (list Z) (list Z)) :
  is_quote q = true ->
  name <> [] -> Forall (fun c => attr_name_end c = false) name ->
  free_of q value ->
  parse_attrs rest = Ok a ->
  parse_attrs (name ++ lit "=" ++ [q] ++ value ++ [q] ++ rest)
  = Ok (a ∪ {[ lower name := value ]}).
Proof.
  intros Hq Hne Hname Hval Hrest. unfold parse_attrs.
  set (full := name ++ lit "=" ++ [q] ++ value ++ [q] ++ rest).
  assert (Hlen : S (length rest) <= length full).
  { subst full. rewrite !length_app. cbn [length]. lia. }
  assert (Hnq : attr_name_end q = false).
  { unfold is_quote in Hq. apply orb_true_iff in Hq.
    destruct Hq as [Hq|Hq]; apply Z.eqb_eq in Hq; subst q; reflexivity. }
  assert (Hname' : Forall (fun x => negb (attr_name_end x) = true) name).
  { eapply List.Forall_impl; [|exact Hname]. intros x Hx. cbn beta in Hx.
    now rewrite Hx. }
  assert (Hval' : Forall (fun x => negb (x =? q)%Z = true) value).
  { eapply List.Forall_impl; [|exact Hval]. intros x Hx. cbn beta in Hx.
    apply negb_true_iff, Z.eqb_neq. exact Hx. }
  destruct name as [|c name']; [contradiction|].
  assert (Hc : attr_name_end c = false) by now inversion Hname.
  assert (Hsp : attr_space c = false).
  { unfold attr_name_end in Hc. now apply orb_false_iff in Hc. }
  cbn [parse_attrs_loop].
  assert (Hdrop : drop_while attr_space full = full).
  { subst full. cbn [app drop_while]. now rewrite Hsp. }
  rewrite Hdrop.
  assert (Hattr : parse_attr full = (lower (c :: name'), value, rest)).
  { subst full. unfold parse_attr.
    change (lit "=" ++ [q] ++ value ++ [q] ++ rest)
      with (61%Z :: q :: value ++ q :: rest).
    rewrite (take_while_app _ (c :: name') 61 _ Hname' eq_refl).
    rewrite (drop_while_app _ (c :: name') 61 _ Hname' eq_refl).
    cbn [drop_while]. change (attr_name_end 61) with true. cbv iota.
    rewrite Hnq, Hq.
    rewrite (take_while_app _ value q rest Hval'),
            (drop_while_app _ value q rest Hval');
      try (apply negb_false_iff, Z.eqb_refl).
    reflexivity. }
  destruct full as [|c0 full'] eqn:Efull; [cbn [length] in Hlen; lia|].
  rewrite Hattr. cbn [lower map truthy].
  rewrite parse_attrs_loop_union.
  rewrite (parse_attrs_loop_more_fuel _ (length (c0 :: full')) rest ∅ a Hlen
             Hrest).
  now rewrite insert_empty.
Qed.

Lemma parse_attrs_quoted_witness :
  parse_attrs (lit "TITLE" ++ lit "=" ++ [34%Z] ++ lit "it's here" ++ [34%Z]
               ++ lit " title=x")
  = Ok ({[ lit "title" := lit "x" ]} ∪ {[ lower (lit "TITLE") := lit "it's here" ]}).
Proof.
  apply (parse_attrs_quoted (lit "TITLE") (lit "it's here") (lit " title=x")
           34 {[ lit "title" := lit "x" ]}).
  - reflexivity.
  - discriminate.
  - repeat constructor.
  - unfold free_of. repeat constructor; discriminate.
  - vm_compute. reflexivity.
Defined.

(** ** The layout engine, again *)

Lemma find_app_first {A} (p : A -> bool) (l1 l2 : list A) :
  List.find p (l1 ++ l2)
  = match List.find p l1 with
    | Some x => Some x
    | None => List.find p l2
    end.
Proof.
  induction l1 as [|x l1 IH]; [reflexivity|]. cbn [app List.find].
  now destruct (p x).
Qed.

(** X14: [find_element] returns the first element with the tag, in
    document order (an element before its children, the children from
    first to last), and [None] when the tree holds no such element. *)
Theorem find_element_first (tag_ : str) (root : Element) :
  find_element root tag_
  = List.find (fun e => str_eqb (tag e) tag_) (all_elements root).
Proof.
  induction root as [t a cs tx IH] using Element_children_ind.
  cbn [find_element all_elements List.find tag children].
  destruct (str_eqb t tag_); [reflexivity|].
  induction IH as [|c cs Hc _ IHcs]; [reflexivity|].
  cbn [map List.concat]. rewrite find_app_first, <- Hc.
  destruct (find_element c tag_); [reflexivity|exact IHcs].
Qed.

Lemma last_cons_default {A} (x : A) (s : list A) (d d' : A) :
  List.last (x :: s) d = List.last (x :: s) d'.
Proof.
  revert x. induction s as [|y s IH]; intros x; [reflexivity|].
  change (List.last (y :: s) d = List.last (y :: s) d'). apply IH.
Qed.

Lemma last_cons_last {A} (x : A) (s : list A) (d : A) :
  List.last (x :: s) d = List.last s x.
Proof.
  destruct s as [|y s]; [reflexivity|].
  change (List.last (y :: s) d = List.last (y :: s) x).
  apply last_cons_default.
Qed.

Lemma measure_loop_app (w : World) (font_size : Z) (s t : str) :
  forall width prev_cp : Z,
    measure_loop w font_size (s ++ t) width prev_cp
    = measure_loop w font_size t (measure_loop w font_size s width prev_cp)
                   (List.last s prev_cp).
Proof.
  induction s as [|c s IH]; intros width prev_cp; [reflexivity|].
  rewrite last_cons_last. cbn [app measure_loop]. rewrite IH. reflexivity.
Qed.

(** X15: the width of a text is the sum of the advances of its characters
    plus the kerning of each pair of neighbours; a character that follows
    the character 0, like the first character, gets no kerning. *)
Theorem measure_text_snoc (w : World) (font_size : Z) (s : str) (c : Z) :
  measure_text w [] font_size = 0%Z
  /\ measure_text w (s ++ [c]) font_size
     = (measure_text w s font_size + ttf_get_advance w c font_size
        + (if (List.last s 0 =? 0)%Z then 0
           else ttf_get_kerning w (List.last s 0%Z) c font_size))%Z.
Proof.
  split; [reflexivity|]. unfold measure_text. rewrite measure_loop_app.
  cbn [measure_loop]. destruct (List.last s 0 =? 0)%Z; cbn [negb]; lia.
Qed.

Lemma max_bottom_of_bounds (bs : list TextBlock) :
  forall m : Z,
    (m <= max_bottom_of bs m)%Z
    /\ Forall (fun b => (b_y b + b_h b <= max_bottom_of bs m)%Z) bs.
Proof.
  induction bs as [|b bs IH]; intros m; cbn [max_bottom_of].
  - split; [lia|constructor].
  - destruct (b_y b + b_h b >? m)%Z eqn:E.
    + destruct (IH (b_y b + b_h b)%Z) as [H1 H2].
      rewrite Z.gtb_ltb in E. apply Z.ltb_lt in E.
      split; [lia|]. constructor; [lia|exact H2].
    + destruct (IH m) as [H1 H2].
      rewrite Z.gtb_ltb in E. apply Z.ltb_ge in E.
      split; [lia|]. constructor; [lia|exact H2].
Qed.

(** X16: the content height that [layout_document] computes covers every
    block: twice the bottom edge of a block plus the margin is at most the
    content height. *)
Theorem layout_document_covers_blocks (w : World) (content_w : Z)
    (root : Element) (b : TextBlock) :
  In b (fst (fst (layout_document w content_w root))) ->
  ((b_y b + b_h b + MARGIN) * 2
   <= snd (layout_document w content_w root))%Z.
Proof.
  unfold layout_document.
  destruct (layout_element w content_w _ _ MARGIN 0 16 0 None) as [lay y].
  cbn [fst snd]. intros Hin.
  destruct (max_bottom_of_bounds (out_blocks lay) y) as [_ Hall].
  rewrite List.Forall_forall in Hall. specialize (Hall b Hin). lia.
Qed.

Lemma layout_document_covers_blocks_witness :
  ((b_y sample_block + b_h sample_block + MARGIN) * 2
   <= snd (layout_document sample_world 608 sample_tree))%Z.
Proof.
  apply (layout_document_covers_blocks sample_world 608 sample_tree
           sample_block).
  vm_compute. right. left. reflexivity.
Defined.

(** *** Link regions *)

Section LinkRegions.

Variable w : World.
Variable CONTENT_W : Z.

Lemma extends_refl (lay : Layout) : extends lay lay.
Proof. exists []. cbn. now rewrite !app_nil_r. Qed.

Lemma extends_trans (l1 l2 l3 : Layout) :
  extends l1 l2 -> extends l2 l3 -> extends l1 l3.
Proof.
  intros [b1 [H1 H1']] [b2 [H2 H2']]. exists (b1 ++ b2).
  unfold regions in *. rewrite flat_map_app, H2, H2', H1, H1', <- !app_assoc.
  split; reflexivity.
Qed.

Lemma extends_add_plain (b : TextBlock) (lay : Layout) :
  b_href b = None -> extends lay (add_block b lay).
Proof.
  intros Hb. exists [b]. unfold regions, region_of. cbn.
  rewrite Hb. cbn. now rewrite !app_nil_r.
Qed.

Lemma extends_emit_line (ws : list str) (x y fs style fg : Z)
    (href : option str) (lay : Layout) :
  extends lay (emit_line w ws x y fs style fg href lay).
Proof.
  unfold emit_line.
  match goal with |- context [add_block ?b lay] => exists [b] end.
  unfold regions, region_of. cbn.
  destruct (href_truthy href); cbn; rewrite ?app_nil_r; split; reflexivity.
Qed.

Lemma extends_layout_text_loop (words : list str) (indent fs style fg : Z)
    (href : option str) :
  forall st : TextState,
    extends (t_lay st)
            (t_lay (layout_text_loop w CONTENT_W words indent fs style fg
                                     href st)).
Proof.
  induction words as [|word words IH]; intros st; [apply extends_refl|].
  cbn [layout_text_loop].
  match goal with |- context [if ?c then _ else _] => destruct c end;
    (eapply extends_trans; [|apply IH]); cbn [t_lay];
    [apply extends_emit_line|apply extends_refl].
Qed.

Lemma extends_layout_text (text_ : str) (lay : Layout)
    (y indent fs style fg : Z) (href : option str) :
  extends lay (fst (layout_text w CONTENT_W text_ lay y indent fs style fg
                                href)).
Proof.
  unfold layout_text. destruct (negb (truthy text_)); [apply extends_refl|].
  pose proof (extends_layout_text_loop (split_ws text_) indent fs style fg
                href {| t_lay := lay; t_y := y; t_x := (MARGIN + indent)%Z;
                        t_line_words := [] |}) as H.
  cbn [t_lay] in H.
  destruct (t_line_words _); cbn [fst]; [exact H|].
  eapply extends_trans; [exact H|apply extends_emit_line].
Qed.

Lemma extends_emit_word (indent fs : Z) (word : str) (style : Z)
    (href : option str) (fg : Z) (st : InlineState) :
  extends (i_lay st)
          (i_lay (emit_word w CONTENT_W indent fs word style href fg st)).
Proof.
  unfold emit_word. destruct (negb (truthy word)); [apply extends_refl|].
  cbn [i_lay].
  match goal with |- context [add_block ?b (i_lay st)] => exists [b] end.
  unfold regions, region_of. cbn.
  destruct (href_truthy href); cbn; rewrite ?app_nil_r; split; reflexivity.
Qed.

Lemma extends_emit_words (indent fs : Z) (words : list str) (style : Z)
    (href : option str) (fg : Z) :
  forall st : InlineState,
    extends (i_lay st)
            (i_lay (emit_words w CONTENT_W indent fs words style href fg st)).
Proof.
  induction words as [|word words IH]; intros st; [apply extends_refl|].
  cbn [emit_words].
  eapply extends_trans; [apply extends_emit_word|apply IH].
Qed.

Lemma extends_process (indent fs : Z) (el : Element) :
  forall (style : Z) (href : option str) (st : InlineState),
    extends (i_lay st)
            (i_lay (process w CONTENT_W indent fs el style href st)).
Proof.
  induction el as [t a cs tx IH] using Element_children_ind.
  intros style href st. cbn [process tag children text].
  match goal with
  | |- context [if truthy tx then ?e else st] =>
      assert (Hst : extends (i_lay st) (i_lay (if truthy tx then e else st)))
        by (destruct (truthy tx); [apply extends_emit_words|apply extends_refl]);
      revert Hst; generalize (if truthy tx then e else st)
  end.
  generalize (tag_style w t style).
  generalize (if str_eqb t (lit "a")
              then Some (get_href (mkElement t a cs tx)) else href).
  intros h s st' Hst. eapply extends_trans; [exact Hst|]. clear Hst.
  revert st'. induction IH as [|c cs Hc _ IHcs]; intros st';
    [apply extends_refl|].
  eapply extends_trans; [apply Hc|apply IHcs].
Qed.

Lemma extends_layout_inline (elem : Element) (lay : Layout)
    (y indent fs style : Z) (href : option str) :
  extends lay (fst (layout_inline w CONTENT_W elem lay y indent fs style
                                  href)).
Proof.
  unfold layout_inline. cbn [fst].
  apply (extends_process indent fs elem style href
           {| i_lay := lay; i_x := (MARGIN + indent)%Z; i_y := y |}).
Qed.

Lemma extends_layout_cells (row : list (str * str)) :
  forall (lay : Layout) (cell_x y col_width row_height fs style : Z),
    extends lay (layout_cells w row lay cell_x y col_width row_height fs
                              style).
Proof.
  induction row as [|[cell_type text_] row IH]; intros; [apply extends_refl|].
  cbn [layout_cells].
  eapply extends_trans; [|apply IH].
  eapply extends_trans; apply extends_add_plain; reflexivity.
Qed.

Lemma extends_layout_rows (rows : list (list (str * str))) :
  forall (lay : Layout) (y indent col_width row_height fs style : Z),
    extends lay (fst (layout_rows w rows lay y indent col_width row_height
                                  fs style)).
Proof.
  induction rows as [|row rows IH]; intros; [apply extends_refl|].
  cbn [layout_rows].
  eapply extends_trans; [|apply IH]. apply extends_layout_cells.
Qed.

Lemma extends_layout_table (table_elem : Element) (lay : Layout)
    (y indent fs style : Z) :
  extends lay (fst (layout_table w CONTENT_W table_elem lay y indent fs
                                 style)).
Proof.
  unfold layout_table. destruct (table_rows table_elem) as [|row rows];
    [apply extends_refl|].
  match goal with
  | |- context [layout_rows w ?r lay ?a ?b ?c ?d ?e ?f] =>
      pose proof (extends_layout_rows r lay a b c d e f) as H;
      destruct (layout_rows w r lay a b c d e f) as [lay' y']
  end.
  exact H.
Qed.

Lemma extends_layout_pre_lines (lines : list str) :
  forall (lay : Layout) (y indent : Z),
    extends lay (fst (layout_pre_lines w CONTENT_W lines lay y indent)).
Proof.
  induction lines as [|line lines IH]; intros; [apply extends_refl|].
  cbn [layout_pre_lines]. destruct (truthy line); [|apply IH].
  pose proof (extends_layout_text line lay y indent 14 0 BLACK None) as H.
  destruct (layout_text w CONTENT_W line lay y indent 14 0 BLACK None)
    as [lay' y'].
  eapply extends_trans; [exact H|apply IH].
Qed.

End LinkRegions.

Lemma alter_middle {A} (f : A -> A) (l : list A) (x : A) (r : list A) :
  alter f (length l) (l ++ x :: r) = l ++ f x :: r.
Proof.
  induction l as [|y l IH]; [reflexivity|].
  cbn [length app]. change (alter f (S (length l)) (y :: l ++ x :: r))
    with (y :: alter f (length l) (l ++ x :: r)). now rewrite IH.
Qed.

Lemma extends_blockquote (lay lay' : Layout) (b : TextBlock) (h : Z) :
  b_href b = None ->
  extends (add_block b lay) lay' ->
  extends lay
    {| out_blocks := alter (set_h h) (length (out_blocks (add_block b lay)) - 1)
                           (out_blocks lay');
       out_links := out_links lay' |}.
Proof.
  intros Hb [bs [H1 H2]]. exists (set_h h b :: bs). cbn [out_blocks out_links].
  rewrite H1, H2. cbn [add_block out_blocks out_links].
  rewrite length_app. cbn [length].
  replace (length (out_blocks lay) + 1 - 1) with (length (out_blocks lay))
    by lia.
  rewrite <- app_assoc. cbn [app]. rewrite alter_middle.
  split; [reflexivity|].
  unfold regions. cbn [flat_map].
  replace (region_of (set_h h b)) with (@nil Link)
    by (unfold region_of, set_h, set_size; cbn [b_href]; now rewrite Hb).
  replace (region_of b) with (@nil Link)
    by (unfold region_of; now rewrite Hb).
  reflexivity.
Qed.

Section ElementRegions.

Variable w : World.
Variable CONTENT_W : Z.

Lemma extends_layout_element (elem : Element) :
  appends_regions w CONTENT_W elem
  /\ Forall (appends_regions w CONTENT_W) (children elem).
Proof.
  induction elem as [t a cs tx IH] using Element_children_ind.
  assert (Hcs : Forall (appends_regions w CONTENT_W) cs).
  { eapply List.Forall_impl; [|exact IH]. intros c [H _]. exact H. }
  split; [|exact Hcs].
  intros lay y indent fs style href.
  cbn [layout_element tag children text].
  generalize (if str_eqb t (lit "a")
              then Some (get_href (mkElement t a cs tx)) else href).
  generalize (tag_style w t style).
  generalize (match assoc t FONT_SIZES with Some v => v | None => fs end).
  generalize (get_all_text (mkElement t a cs tx)).
  clear fs style href. intros txt fs style href.
  destruct (is_heading t).
  { match goal with
    | |- context [layout_text w CONTENT_W ?a ?b ?c ?d ?e ?f ?g ?h] =>
        pose proof (extends_layout_text w CONTENT_W a b c d e f g h) as H;
        destruct (layout_text w CONTENT_W a b c d e f g h)
    end. exact H. }
  destruct (str_eqb t (lit "p")).
  { match goal with
    | |- context [layout_inline w CONTENT_W ?a ?b ?c ?d ?e ?f ?g] =>
        pose proof (extends_layout_inline w CONTENT_W a b c d e f g) as H;
        destruct (layout_inline w CONTENT_W a b c d e f g)
    end. exact H. }
  destruct (str_eqb t (lit "br")); [apply extends_refl|].
  destruct (str_eqb t (lit "hr")); [apply extends_add_plain; reflexivity|].
  destruct (str_eqb t (lit "ul") || str_eqb t (lit "ol")).
  { match goal with
    | |- context [?F cs lay (y + 4)%Z 1%Z] =>
        assert (H : forall l yy n, extends l (fst (F cs l yy n)));
        [|specialize (H lay (y + 4)%Z 1%Z);
          destruct (F cs lay (y + 4)%Z 1%Z); exact H]
    end.
    clear Hcs lay y.
    induction IH as [|c cs' [_ Hgc] _ IHcs]; intros l yy n;
      [apply extends_refl|].
    cbn [fst]. destruct (str_eqb (tag c) (lit "li")); [|apply IHcs].
    match goal with
    | |- context [?G (children c) ?l0 ?y0] =>
        assert (H : forall l1 y1, extends l1 (fst (G (children c) l1 y1)));
        [|specialize (H l0 y0); destruct (G (children c) l0 y0) as [lay1 y1]]
    end.
    { clear IHcs. induction Hgc as [|g gs Hg _ IHgs]; intros l1 y1;
        [apply extends_refl|].
      cbn [fst].
      pose proof (Hg l1 y1 (indent + 40)%Z fs style None) as H.
      destruct (layout_element w CONTENT_W g l1 y1 (indent + 40) fs style None)
        as [lay2 y2].
      eapply extends_trans; [exact H|apply IHgs]. }
    cbn [fst] in H.
    assert (H' : extends l lay1)
      by (eapply extends_trans; [|exact H];
          apply extends_add_plain; reflexivity).
    eapply extends_trans; [exact H'|]. clear H H'.
    destruct (truthy (text c)); [|apply IHcs].
    match goal with
    | |- context [layout_text w CONTENT_W ?a ?b ?c ?d ?e ?f ?g ?h] =>
        pose proof (extends_layout_text w CONTENT_W a b c d e f g h) as H;
        destruct (layout_text w CONTENT_W a b c d e f g h)
    end.
    eapply extends_trans; [exact H|apply IHcs]. }
  destruct (str_eqb t (lit "blockquote")).
  { match goal with
    | |- context [layout_text w CONTENT_W ?a ?b ?c ?d ?e ?f ?g ?h] =>
        pose proof (extends_layout_text w CONTENT_W a b c d e f g h) as H;
        destruct (layout_text w CONTENT_W a b c d e f g h)
    end.
    cbn [fst] in *. apply extends_blockquote; [reflexivity|exact H]. }
  destruct (str_eqb t (lit "pre") || str_eqb t (lit "code")).
  { match goal with
    | |- context [layout_pre_lines w CONTENT_W ?a ?b ?c ?d] =>
        pose proof (extends_layout_pre_lines w CONTENT_W a b c d) as H;
        destruct (layout_pre_lines w CONTENT_W a b c d)
    end. exact H. }
  destruct (str_eqb t (lit "table")); [apply extends_layout_table|].
  match goal with
  | |- context [if truthy tx then ?e else (lay, y)] =>
      assert (H : extends lay (fst (if truthy tx then e else (lay, y))))
        by (destruct (truthy tx); [apply extends_layout_text|apply extends_refl]);
      destruct (if truthy tx then e else (lay, y)) as [lay0 y0]
  end.
  cbn [fst] in H. eapply extends_trans; [exact H|]. clear H IH.
  revert lay0 y0. induction Hcs as [|c cs' Hc _ IHcs]; intros lay0 y0;
    [apply extends_refl|].
  cbn [fst]. pose proof (Hc lay0 y0 indent fs style href) as H.
  destruct (layout_element w CONTENT_W c lay0 y0 indent fs style href)
    as [lay2 y2].
  eapply extends_trans; [exact H|apply IHcs].
Qed.

End ElementRegions.

(** X17: the link regions of a page are exactly the boxes of its blocks
    that carry a non-empty link target, in the order of the blocks: every
    link region has the position, the size and the target of its block. *)
Theorem layout_document_links (w : World) (content_w : Z) (root : Element) :
  snd (fst (layout_document w content_w root))
  = regions (fst (fst (layout_document w content_w root))).
Proof.
  unfold layout_document.
  match goal with
  | |- context [layout_element w content_w ?e ?l ?a ?b ?c ?d ?h] =>
      destruct (extends_layout_element w content_w e) as [H _];
      specialize (H l a b c d h);
      destruct (layout_element w content_w e l a b c d h) as [lay y]
  end.
  destruct H as [bs [H1 H2]]. cbn in H1, H2. cbn [fst snd].
  now rewrite H1, H2.
Qed.

(** ** The controller, again *)

Lemma after_obind {A B} (o : outcome A) (k : A -> Browser -> outcome B)
    (P : Browser -> Prop) :
  after o P -> (forall a b, P b -> after (k a b) P) -> after (obind o k) P.
Proof. destruct o as [a b|e b|]; cbn; auto. Qed.

Lemma after_impl {A} (o : outcome A) (P Q : Browser -> Prop) :
  (forall b, P b -> Q b) -> after o P -> after o Q.
Proof. destruct o; cbn; auto. Qed.

(** A state that differs from a coherent one in neither the document nor
    its layout, and that is not editing unless the address bar is the
    same, is coherent. *)
Lemma coherent_frame (w : World) (b b' : Browser) :
  coherent w b ->
  current_html b' = current_html b -> content_w b' = content_w b ->
  blocks b' = blocks b -> links b' = links b ->
  content_height b' = content_height b ->
  (editing_url b' = true ->
   editing_url b = true /\ cursor_pos b' = cursor_pos b
   /\ address_text b' = address_text b) ->
  coherent w b'.
Proof.
  intros [Hd Hc] E1 E2 E3 E4 E5 He. split.
  - unfold displayed in *. rewrite E1, E2, E3, E4, E5. exact Hd.
  - intros Hed. destruct (He Hed) as (H1 & H2 & H3). rewrite H2, H3. auto.
Qed.

Ltac frame b :=
  apply (coherent_frame _ b); [assumption|try reflexivity ..|];
  cbn; intros; try discriminate; auto.

Lemma coherent_new (w : World) (kiosk : bool) : coherent w (new_Browser kiosk).
Proof. split; [split; reflexivity|discriminate]. Qed.

Lemma layout_empty_document (w : World) (content_w : Z) (root : Element) :
  parse_html [] = Ok root ->
  fst (layout_document w content_w root) = ([], []).
Proof.
  intros H. vm_compute in H. injection H as <-.
  unfold layout_document. cbn. reflexivity.
Qed.

Lemma show_document_coherent (w : World) (status : Z) (body : str)
    (b : Browser) :
  editing_url b = false -> after (show_document w status body b) (coherent w).
Proof.
  intros He. unfold show_document.
  set (body' := if negb (status =? 200)%Z then error_page status body
                else body).
  destruct (parse_html_total body') as [root Hroot]. rewrite Hroot.
  cbn [lift obind].
  destruct (layout_document w _ root) as [[blocks_ links_] ch] eqn:E.
  apply after_draw. split.
  - unfold displayed. cbn. cbn in E. destruct (truthy body') eqn:T.
    + exists root. auto.
    + destruct body'; [|discriminate].
      pose proof (layout_empty_document w (content_w b) root Hroot) as H.
      rewrite E in H. cbn in H. now injection H as -> ->.
  - intros H. cbn in H. congruence.
Qed.

Lemma begin_navigation_coherent (w : World) (target : str)
    (from_back from_forward : bool) (b : Browser) :
  coherent w b ->
  coherent w (begin_navigation target from_back from_forward b)
  /\ editing_url (begin_navigation target from_back from_forward b) = false.
Proof.
  intros H. split; [|reflexivity].
  unfold begin_navigation, record_history.
  destruct (truthy (url b)), from_forward, from_back; frame b.
Qed.

Lemma navigate_coherent (w : World) (fuel : nat) :
  forall (url_ : str) (from_back from_forward : bool) (b : Browser),
    coherent w b ->
    after (navigate w fuel url_ from_back from_forward b) (coherent w).
Proof.
  induction fuel as [|fuel IH]; intros url_ fb ff b H; [exact I|].
  rewrite navigate_unfold.
  destruct (resolve_url (url b) url_) as [target| |]; cbn [after]; auto.
  cbv zeta.
  destruct (begin_navigation_coherent w target fb ff b H) as [H1 He].
  destruct (fetch_url w target) as [[status body]| |]; cbn [after]; auto.
  destruct (is_redirect status); [now apply IH|].
  now apply show_document_coherent.
Qed.

Lemma back_coherent (w : World) (fuel : nat) (b : Browser) :
  coherent w b -> after (back w fuel b) (coherent w).
Proof.
  intros H. unfold back. destruct (history b); [exact H|].
  apply navigate_coherent. frame b.
Qed.

Lemma forward_coherent (w : World) (fuel : nat) (b : Browser) :
  coherent w b -> after (forward w fuel b) (coherent w).
Proof.
  intros H. unfold forward. destruct (forward_history b); [exact H|].
  apply navigate_coherent. frame b.
Qed.

Lemma refresh_coherent (w : World) (fuel : nat) (b : Browser) :
  coherent w b -> after (refresh w fuel b) (coherent w).
Proof.
  intros H. unfold refresh. destruct (truthy (url b)); [|exact H].
  apply navigate_coherent. frame b.
Qed.

Lemma handle_resize_coherent (w : World) (new_w new_h : Z) (b : Browser) :
  coherent w b -> after (handle_resize w new_w new_h b) (coherent w).
Proof.
  intros H. unfold handle_resize. cbn [current_html set_content_w set_content_h
    set_win_h set_win_w].
  destruct (truthy (current_html b)) eqn:T.
  - destruct (parse_html_total (current_html b)) as [root Hroot].
    rewrite Hroot. cbn [lift obind].
    destruct (layout_document w _ root) as [[blocks_ links_] ch] eqn:E.
    apply after_draw. cbn in E.
    match goal with |- context [if ?c then _ else _] => destruct c end.
    + split.
      * unfold displayed. cbn. rewrite T. exists root. auto.
      * intros Hed. cbn in *. now apply H.
    + split.
      * unfold displayed. cbn. rewrite T. exists root. auto.
      * intros Hed. cbn in *. now apply H.
  - cbn [after]. destruct H as [Hd Hc]. split.
    + unfold displayed in *. cbn. now rewrite T in *.
    + exact Hc.
Qed.

Lemma handle_click_coherent (w : World) (fuel : nat) (x y : Z) (b : Browser) :
  coherent w b -> after (handle_click w fuel x y b) (coherent w).
Proof.
  intros H. unfold handle_click.
  repeat match goal with
         | |- context [if ?c then _ else _] => destruct c
         end;
    try (apply back_coherent; assumption);
    try (apply forward_coherent; assumption);
    try (apply refresh_coherent; assumption);
    try exact H.
  all: try (destruct (hit_link _ _ _);
            [apply navigate_coherent; assumption|exact H]).
cbn [after]. split; [exact (proj1 H)|]. intros _. cbn. lia.
Qed.

Lemma handle_mouse_move_coherent (w : World) (x y : Z) (b : Browser) :
  coherent w b -> after (handle_mouse_move x y b) (coherent w).
Proof.
  intros H. unfold handle_mouse_move.
  repeat match goal with
         | |- context [if ?c then _ else _] => destruct c
         end; try exact H.
  apply after_draw. exact H.
Qed.

Lemma slice_to_nonneg (s : str) (k : Z) :
  (0 <= k)%Z -> slice_to s k = firstn (Z.to_nat k) s.
Proof.
  intros Hk. unfold slice_to.
  destruct (k <? 0)%Z eqn:E; [apply Z.ltb_lt in E; lia|reflexivity].
Qed.

Lemma slice_from_nonneg (s : str) (k : Z) :
  (0 <= k)%Z -> slice_from s k = skipn (Z.to_nat k) s.
Proof.
  intros Hk. unfold slice_from.
  destruct (k <? 0)%Z eqn:E; [apply Z.ltb_lt in E; lia|reflexivity].
Qed.

(** The address text after a character is typed at the cursor. *)
Lemma typed_length (s : str) (pos key : Z) :
  (0 <= pos <= Z.of_nat (length s))%Z ->
  Z.of_nat (length ((slice_to s pos ++ [key]) ++ slice_from s pos))
  = (Z.of_nat (length s) + 1)%Z.
Proof.
  intros Hp. rewrite slice_to_nonneg, slice_from_nonneg by lia.
  rewrite !length_app, length_firstn, length_skipn. cbn [length]. lia.
Qed.

(** The address text after the character before the cursor is removed. *)
Lemma erased_length (s : str) (pos : Z) :
  (0 < pos <= Z.of_nat (length s))%Z ->
  Z.of_nat (length (slice_to s (pos - 1) ++ slice_from s pos))
  = (Z.of_nat (length s) - 1)%Z.
Proof.
  intros Hp. rewrite slice_to_nonneg, slice_from_nonneg by lia.
  rewrite !length_app, length_firstn, length_skipn. lia.
Qed.

Lemma handle_key_coherent (w : World) (fuel : nat) (key : Z) (b : Browser) :
  coherent w b -> after (handle_key w fuel key b) (coherent w).
Proof.
  intros H. unfold handle_key. destruct (editing_url b) eqn:Ed.
  - destruct ((key =? 13) || (key =? 10))%Z.
    { apply after_obind; [|auto]. apply navigate_coherent. frame b. }
    destruct (key =? 27)%Z; [cbn [after]; frame b|].
    destruct ((key =? 8) || (key =? 127))%Z.
    { destruct (cursor_pos b >? 0)%Z eqn:Ec; [|exact H].
      cbn [after]. split; [exact (proj1 H)|]. intros _.
      pose proof (proj2 H Ed) as Hc. apply Z.gtb_lt in Ec.
      cbn [cursor_pos address_text set_cursor_pos set_address_text].
      rewrite erased_length by lia. lia. }
    destruct ((key >=? 32) && (key <? 127))%Z; [|exact H].
    cbn [after]. split; [exact (proj1 H)|]. intros _.
    pose proof (proj2 H Ed) as Hc.
    cbn [cursor_pos address_text set_cursor_pos set_address_text].
    rewrite typed_length by lia. lia.
  - repeat match goal with
           | |- context [if ?c then _ else _] => destruct c
           end; try exact H;
      (apply after_obind; [|auto]); apply after_draw; frame b;
      exfalso; congruence.
Qed.

Lemma dispatch_coherent (w : World) (fuel : nat) (event : option Event)
    (b : Browser) :
  coherent w b -> after (dispatch w fuel event b) (coherent w).
Proof.
  intros H. destruct event as [[|x y|x y|x y|key|new_w new_h|]|];
    cbn [dispatch]; try exact H; try (apply after_obind; [|auto]).
  - now apply handle_click_coherent.
  - now apply handle_mouse_move_coherent.
  - now apply handle_key_coherent.
  - now apply handle_resize_coherent.
Qed.

Lemma event_loop_coherent (w : World) (fuel : nat)
    (polls : list (option Event)) :
  forall b : Browser,
    coherent w b -> after (event_loop w fuel polls b) (coherent w).
Proof.
  induction polls as [|event polls IH]; intros b H; [exact H|].
  cbn [event_loop]. apply after_obind; [now apply dispatch_coherent|].
  intros [] b' H'; [now apply IH|exact H'].
Qed.

Lemma run_coherent (w : World) (fuel : nat) (initial_url : str)
    (polls : list (option Event)) (kiosk : bool) :
  after (run w fuel initial_url polls (new_Browser kiosk)) (coherent w).
Proof.
  unfold run. destruct (_ <? 0)%Z; [apply (coherent_new w kiosk)|].
  apply after_obind.
  - apply navigate_coherent. apply (coherent_new w kiosk).
  - intros _ b H. now apply event_loop_coherent.
Qed.


(** X19: at every point of [run], while the address is edited the cursor
    position lies between 0 and the length of the address text. *)
Theorem run_keeps_cursor_in_address (w : World) (fuel : nat)
    (initial_url : str) (polls : list (option Event)) (kiosk : bool) :
  after (run w fuel initial_url polls (new_Browser kiosk)) cursor_ok.
Proof.
  eapply after_impl; [|apply run_coherent]. intros b H. exact (proj2 H).
Qed.

(** X20: in the address bar, typing a printable character and then
    pressing Backspace gives back the state before the character: the
    same address text and the same cursor position. *)
Theorem type_then_backspace (w : World) (fuel : nat) (key : Z) (b : Browser) :
  editing_url b = true ->
  (0 <= cursor_pos b <= Z.of_nat (length (address_text b)))%Z ->
  (32 <= key < 127)%Z ->
  exists b1,
    handle_key w fuel key b = Ret true b1
    /\ address_text b1
       = firstn (Z.to_nat (cursor_pos b)) (address_text b) ++ [key]
         ++ skipn (Z.to_nat (cursor_pos b)) (address_text b)
    /\ cursor_pos b1 = (cursor_pos b + 1)%Z
    /\ handle_key w fuel 8 b1 = Ret true b.
Proof.
  intros Ed Hc Hk. unfold handle_key at 1. rewrite Ed.
  replace ((key =? 13) || (key =? 10))%Z with false
    by (symmetry; apply orb_false_iff; split; apply Z.eqb_neq; lia).
  replace (key =? 27)%Z with false by (symmetry; apply Z.eqb_neq; lia).
  replace ((key =? 8) || (key =? 127))%Z with false
    by (symmetry; apply orb_false_iff; split; apply Z.eqb_neq; lia).
  replace ((key >=? 32) && (key <? 127))%Z with true
    by (symmetry; apply andb_true_iff; split;
        [apply Z.geb_le|apply Z.ltb_lt]; lia).
  eexists. split; [reflexivity|].
  cbn [address_text cursor_pos set_cursor_pos set_address_text].
  rewrite slice_to_nonneg, slice_from_nonneg by lia.
  split; [now rewrite <- app_assoc|]. split; [reflexivity|].
  unfold handle_key.
  cbn [editing_url address_text cursor_pos set_cursor_pos set_address_text].
  rewrite Ed. cbn [Z.eqb orb Pos.eqb].
  replace (cursor_pos b + 1 >? 0)%Z with true
    by (symmetry; apply Z.gtb_lt; lia).
  replace (cursor_pos b + 1 - 1)%Z with (cursor_pos b) by lia.
  rewrite slice_to_nonneg, slice_from_nonneg by lia.
  set (n := Z.to_nat (cursor_pos b)).
  assert (Hn : n <= length (address_text b)) by (unfold n; lia).
  replace (Z.to_nat (cursor_pos b + 1)) with (S n) by (unfold n; lia).
  assert (Hlen : length (firstn n (address_text b)) = n)
    by (rewrite length_firstn; lia).
  assert (E1 : firstn n ((firstn n (address_text b) ++ [key])
                         ++ skipn n (address_text b))
               = firstn n (address_text b)).
  { rewrite <- app_assoc, firstn_app, Hlen, Nat.sub_diag.
    cbn [firstn]. rewrite app_nil_r. apply firstn_all2. lia. }
  assert (E2 : skipn (S n) ((firstn n (address_text b) ++ [key])
                            ++ skipn n (address_text b))
               = skipn n (address_text b)).
  { rewrite skipn_app, length_app, Hlen. cbn [length].
    replace (S n - (n + 1)) with 0 by lia.
    rewrite skipn_all2 by (rewrite length_app, Hlen; cbn [length]; lia).
    reflexivity. }
  rewrite E1, E2, firstn_skipn. f_equal.
  destruct b; cbn in *. reflexivity.
Qed.

Lemma type_then_backspace_witness :
  exists b1,
    handle_key sample_world 1 47 (editing (lit "a.comx") 5) = Ret true b1
    /\ address_text b1 = lit "a.com/x"
    /\ cursor_pos b1 = 6%Z
    /\ handle_key sample_world 1 8 b1 = Ret true (editing (lit "a.comx") 5).
Proof.
  destruct (type_then_backspace sample_world 1 47 (editing (lit "a.comx") 5))
    as (b1 & H1 & H2 & H3 & H4);
    [reflexivity|cbn; lia|lia|].
  exists b1. repeat split; assumption.
Defined.

(** X21: reloading a page whose fetch is not redirected leaves the URL
    and both history stacks as they are and scrolls to the top; with no
    current URL, [refresh] does nothing. *)
Theorem refresh_keeps_history (w : World) :
  (forall (fuel : nat) (b : Browser) (status : Z) (body : str),
      reachable w b -> url b <> [] ->
      fetch_url w (url b) = Ok (status, body) -> is_redirect status = false ->
      exists b',
        refresh w (S fuel) b = Ret tt b'
        /\ url b' = url b
        /\ history b' = history b
        /\ forward_history b' = forward_history b
        /\ scroll_y b' = 0%Z)
  /\ (forall (fuel : nat) (b : Browser),
        url b = [] -> refresh w fuel b = Ret tt b).
Proof.
  split.
  - intros fuel b status body Hreach Hu Hfetch Hred.
    destruct (reachable_invariant w b Hreach) as [(_ & _ & Habs & Hch) _].
    destruct Habs as [Habs|Habs]; [contradiction|].
    unfold refresh. apply truthy_nonempty in Hu. rewrite Hu.
    destruct (navigate_direct w fuel (url b) (url b) false false
                (set_url [] b) status body)
      as (b' & Hnav & U & Hh & Hf & Hs & _); try assumption.
    { now apply resolve_url_absolute. }
    rewrite record_history_empty in Hh, Hf by reflexivity.
    exists b'. repeat split; assumption.
  - intros fuel b Hu. unfold refresh. now rewrite Hu.
Qed.

Lemma refresh_keeps_history_witness :
  exists b',
    refresh sample_world 1 visited_x = Ret tt b'
    /\ url b' = url visited_x
    /\ history b' = history visited_x
    /\ forward_history b' = forward_history visited_x
    /\ scroll_y b' = 0%Z.
Proof.
  apply (proj1 (refresh_keeps_history sample_world) 0 visited_x 200%Z
               (lit "<p>hello world</p>")).
  - exact reachable_visited_x.
  - vm_compute. discriminate.
  - vm_compute. reflexivity.
  - reflexivity.
Defined.

Lemma hit_link_find (ls : list Link) (x y : Z) :
  hit_link ls x y = option_map l_href (List.find (covers x y) ls).
Proof.
  induction ls as [|l ls IH]; [reflexivity|].
  cbn [hit_link List.find]. unfold covers at 1.
  destruct (_ && _); [reflexivity|exact IH].
Qed.

(** X22: outside kiosk mode, a click left of the scrollbar that is below
    the toolbar, or in the toolbar left of the back button, goes to the
    page: it navigates to the target of the first link region that contains
    the point (the window position shifted by the scroll offset), and does
    nothing when no link region contains it. *)
Theorem click_on_page (w : World) (fuel : nat) (x y : Z) (b : Browser) :
  kiosk_mode b = false ->
  (ADDRESS_BAR_H <= y \/ x < 4)%Z ->
  (x < win_w b - SCROLLBAR_W)%Z ->
  handle_click w fuel x y b
  = match List.find (covers x (y - content_y b + scroll_y b)) (links b) with
    | Some l => navigate w fuel (l_href l) false false b
    | None => Ret tt b
    end.
Proof.
  intros Hk Hpos Hx. unfold handle_click. rewrite Hk. cbn [andb negb].
  assert (Hbar : ((y <? ADDRESS_BAR_H) && (x >=? 4) = false)%Z).
  { destruct Hpos as [Hy|Hx4].
    - replace (y <? ADDRESS_BAR_H)%Z with false
        by (symmetry; apply Z.ltb_ge; lia). reflexivity.
    - replace (x >=? 4)%Z with false
        by (symmetry; rewrite Z.geb_leb; apply Z.leb_gt; lia).
      apply andb_false_r. }
  assert (Hno : forall x0, (4 <= x0)%Z ->
            ((y <? ADDRESS_BAR_H) && in_button x y x0 4 = false)%Z).
  { intros x0 Hx0. unfold in_button.
    destruct (y <? ADDRESS_BAR_H)%Z; [|reflexivity].
    cbn [andb] in Hbar |- *. rewrite Z.geb_leb in Hbar.
    apply Z.leb_gt in Hbar.
    replace (x0 <=? x)%Z with false by (symmetry; apply Z.leb_gt; lia).
    reflexivity. }
  rewrite !Hno by lia.
  replace ((y <? ADDRESS_BAR_H) && (x >=? 64))%Z with false.
  2:{ symmetry. destruct (y <? ADDRESS_BAR_H)%Z; [|reflexivity].
      cbn [andb] in Hbar |- *. rewrite Z.geb_leb in *.
      apply Z.leb_gt in Hbar. apply Z.leb_gt. lia. }
  replace (x >=? win_w b - SCROLLBAR_W)%Z with false
    by (symmetry; rewrite Z.geb_leb; apply Z.leb_gt; lia).
  cbn [andb]. rewrite hit_link_find.
  destruct (List.find _ (links b)); reflexivity.
Qed.

Lemma click_on_page_witness :
  handle_click sample_world 1 12 45 sample_page
  = match List.find (covers 12 (45 - content_y sample_page
                                + scroll_y sample_page))
                    (links sample_page) with
    | Some l => navigate sample_world 1 (l_href l) false false sample_page
    | None => Ret tt sample_page
    end
  /\ option_map l_href
       (List.find (covers 12 (45 - content_y sample_page
                              + scroll_y sample_page))
                  (links sample_page))
     = Some (lit "/next").
Proof.
  split; [|vm_compute; reflexivity].
  apply (click_on_page sample_world 1 12 45 sample_page).
  - vm_compute. reflexivity.
  - left. vm_compute. discriminate.
  - vm_compute. reflexivity.
Defined.

(** *** The exceptions that leave the event loop *)

Lemma ends_well_obind {A B} (o : outcome A) (k : A -> Browser -> outcome B) :
  ends_well o -> (forall a b, ends_well (k a b)) -> ends_well (obind o k).
Proof. destruct o as [a b|e b|]; cbn; auto. Qed.

Lemma draw_ends_well (b : Browser) : ends_well (draw b).
Proof. destruct (draw_cases b) as [-> | ->]; cbn; auto. Qed.

Lemma show_document_ends_well (w : World) (status : Z) (body : str)
    (b : Browser) :
  ends_well (show_document w status body b).
Proof.
  unfold show_document.
  match goal with
  | |- context [parse_html ?h] => destruct (parse_html_total h) as [root ->]
  end.
  cbn [lift obind]. destruct (layout_document w _ root) as [[blocks_ links_] ch].
  apply draw_ends_well.
Qed.

Lemma navigate_ends_well (w : World) (fuel : nat) :
  forall (url_ : str) (from_back from_forward : bool) (b : Browser),
    ends_well (navigate w fuel url_ from_back from_forward b).
Proof.
  induction fuel as [|fuel IH]; intros url_ fb ff b; [exact I|].
  rewrite navigate_unfold.
  pose proof (resolve_url_result (url b) url_) as Hr.
  destruct (resolve_url (url b) url_) as [target|e|]; cbn [ends_well]; auto.
  cbv zeta. pose proof (fetch_url_result w target) as Hf.
  destruct (fetch_url w target) as [[status body]|e|]; cbn [ends_well]; auto.
  destruct (is_redirect status); [apply IH|apply show_document_ends_well].
Qed.

Lemma handle_click_ends_well (w : World) (fuel : nat) (x y : Z) (b : Browser) :
  ends_well (handle_click w fuel x y b).
Proof.
  unfold handle_click, back, forward, refresh.
  repeat match goal with
         | |- context [if ?c then _ else _] => destruct c
         | |- context [match history b with _ => _ end] => destruct (history b)
         | |- context [match forward_history b with _ => _ end] =>
             destruct (forward_history b)
         | |- context [match hit_link ?l ?x ?y with _ => _ end] =>
             destruct (hit_link l x y)
         end;
    try exact I; apply navigate_ends_well.
Qed.

Lemma handle_mouse_move_ends_well (x y : Z) (b : Browser) :
  ends_well (handle_mouse_move x y b).
Proof.
  unfold handle_mouse_move.
  repeat match goal with
         | |- context [if ?c then _ else _] => destruct c
         end;
    try exact I; try apply draw_ends_well. cbn. auto.
Qed.

Lemma handle_key_ends_well (w : World) (fuel : nat) (key : Z) (b : Browser) :
  ends_well (handle_key w fuel key b).
Proof.
  unfold handle_key.
  repeat match goal with
         | |- context [if ?c then _ else _] => destruct c
         end;
    try exact I;
    (apply ends_well_obind; [|intros; exact I]);
    try apply draw_ends_well; apply navigate_ends_well.
Qed.

Lemma handle_resize_ends_well (w : World) (new_w new_h : Z) (b : Browser) :
  ends_well (handle_resize w new_w new_h b).
Proof.
  unfold handle_resize.
  match goal with
  | |- context [if ?c then _ else _] => destruct c; [|exact I]
  end.
  match goal with
  | |- context [parse_html ?h] => destruct (parse_html_total h) as [root ->]
  end.
  cbn [lift obind]. destruct (layout_document w _ root) as [[blocks_ links_] ch].
  apply draw_ends_well.
Qed.

Lemma event_loop_ends_well (w : World) (fuel : nat)
    (polls : list (option Event)) :
  forall b : Browser, ends_well (event_loop w fuel polls b).
Proof.
  induction polls as [|event polls IH]; intros b; [exact I|].
  cbn [event_loop]. apply ends_well_obind.
  - destruct event as [[|x y|x y|x y|key|new_w new_h|]|]; cbn [dispatch];
      try exact I; try (apply ends_well_obind; [|intros; exact I]).
    + apply handle_click_ends_well.
    + apply handle_mouse_move_ends_well.
    + apply handle_key_ends_well.
    + apply handle_resize_ends_well.
  - intros [] b'; [apply IH|exact I].
Qed.


(** *** Addresses without a scheme *)

(** X24: an address without a scheme is never taken as a host name.  In a
    browser that has no current URL it becomes a path below an empty host;
    on the pages [about:home] and [about:blank], where the text after the
    colon is read as a port, going to it raises [ValueError] and leaves
    the browser as it is. *)
Theorem schemeless_address (rel_url : str) :
  is_absolute rel_url = false ->
  resolve_url [] rel_url
  = Ok (lit "http://" ++ (if startswith rel_url (lit "/") then rel_url
                          else lit "/" ++ rel_url))
  /\ (forall (w : World) (fuel : nat) (b : Browser),
        url b = lit "about:home" \/ url b = lit "about:blank" ->
        navigate w (S fuel) rel_url false false b = Exc ValueError b).
Proof.
  intros Habs. split.
  - rewrite (resolve_url_http false
               {| u_scheme := lit "http"; u_host := Some [];
                  u_port := Some 80%Z; u_path := lit "/" |}
               [] rel_url [] 80); try reflexivity; try assumption.
  - intros w fuel b Hurl. rewrite navigate_unfold.
    assert (Hres : resolve_url (url b) rel_url = Raise ValueError).
    { unfold resolve_url. rewrite Habs.
      destruct Hurl as [-> | ->].
      - change (parse_url (lit "about:home")) with (@Raise ParsedUrl ValueError).
        reflexivity.
      - change (parse_url (lit "about:blank")) with (@Raise ParsedUrl ValueError).
        reflexivity. }
    now rewrite Hres.
Qed.

Lemma schemeless_address_witness :
  resolve_url [] (lit "example.com") = Ok (lit "http:///example.com")
  /\ navigate sample_world 1 (lit "example.com") false false
              (set_url (lit "about:home") (new_Browser false))
     = Exc ValueError (set_url (lit "about:home") (new_Browser false)).
Proof.
  destruct (schemeless_address (lit "example.com") eq_refl) as [H1 H2].
  split; [exact H1|]. apply H2. left. reflexivity.
Defined.

(** ** The pen moves down *)

Section Flow.

Variable w : World.
Variable CONTENT_W : Z.
Hypothesis Hm : sane_metrics w.

Lemma layout_text_loop_down (words : list str) (indent fs style fg : Z)
    (href : option str) :
  (0 <= fs)%Z ->
  forall st : TextState,
    (t_y st <= t_y (layout_text_loop w CONTENT_W words indent fs style fg
                                     href st))%Z.
Proof.
  intros Hfs. pose proof (Hm fs Hfs) as Hlh.
  induction words as [|word words IH]; intros st; [cbn; lia|].
  cbn [layout_text_loop].
  match goal with |- context [if ?c then _ else _] => destruct c end;
    (etransitivity; [|apply IH]); cbn [t_y]; lia.
Qed.

Lemma layout_text_down (text_ : str) (lay : Layout)
    (y indent fs style fg : Z) (href : option str) :
  (0 <= fs)%Z ->
  (y <= snd (layout_text w CONTENT_W text_ lay y indent fs style fg href))%Z.
Proof.
  intros Hfs. pose proof (Hm fs Hfs) as Hlh. unfold layout_text.
  destruct (negb (truthy text_)); [cbn; lia|].
  pose proof (layout_text_loop_down (split_ws text_) indent fs style fg href
                Hfs {| t_lay := lay; t_y := y; t_x := (MARGIN + indent)%Z;
                       t_line_words := [] |}) as H.
  cbn [t_y] in H. destruct (t_line_words _); cbn [snd]; lia.
Qed.

Lemma emit_word_down (indent fs : Z) (word : str) (style : Z)
    (href : option str) (fg : Z) (st : InlineState) :
  (0 <= fs)%Z ->
  (i_y st <= i_y (emit_word w CONTENT_W indent fs word style href fg st))%Z.
Proof.
  intros Hfs. pose proof (Hm fs Hfs) as Hlh. unfold emit_word.
  destruct (negb (truthy word)); [lia|]. cbn [i_y].
  destruct (_ && _); lia.
Qed.

Lemma emit_words_down (indent fs : Z) (words : list str) (style : Z)
    (href : option str) (fg : Z) :
  (0 <= fs)%Z ->
  forall st : InlineState,
    (i_y st <= i_y (emit_words w CONTENT_W indent fs words style href fg st))%Z.
Proof.
  intros Hfs. induction words as [|word words IH]; intros st; [cbn; lia|].
  cbn [emit_words]. etransitivity; [|apply IH]. now apply emit_word_down.
Qed.

Lemma process_down (indent fs : Z) (el : Element) :
  (0 <= fs)%Z ->
  forall (style : Z) (href : option str) (st : InlineState),
    (i_y st <= i_y (process w CONTENT_W indent fs el style href st))%Z.
Proof.
  intros Hfs. induction el as [t a cs tx IH] using Element_children_ind.
  intros style href st. cbn [process tag children text].
  match goal with
  | |- context [if truthy tx then ?e else st] =>
      assert (Hst : (i_y st <= i_y (if truthy tx then e else st))%Z)
        by (destruct (truthy tx); [now apply emit_words_down|lia]);
      revert Hst; generalize (if truthy tx then e else st)
  end.
  generalize (tag_style w t style).
  generalize (if str_eqb t (lit "a")
              then Some (get_href (mkElement t a cs tx)) else href).
  intros h s st' Hst. etransitivity; [exact Hst|]. clear Hst.
  revert st'. induction IH as [|c cs Hc _ IHcs]; intros st'; [lia|].
  etransitivity; [apply Hc|apply IHcs].
Qed.

Lemma layout_inline_down (elem : Element) (lay : Layout)
    (y indent fs style : Z) (href : option str) :
  (0 <= fs)%Z ->
  (y <= snd (layout_inline w CONTENT_W elem lay y indent fs style href))%Z.
Proof.
  intros Hfs. pose proof (Hm fs Hfs) as Hlh. unfold layout_inline. cbn [snd].
  pose proof (process_down indent fs elem Hfs style href
                {| i_lay := lay; i_x := (MARGIN + indent)%Z; i_y := y |}) as H.
  cbn [i_y] in H. lia.
Qed.

Lemma layout_rows_down (rows : list (list (str * str))) :
  forall (lay : Layout) (y indent col_width row_height fs style : Z),
    (0 <= row_height)%Z ->
    (y <= snd (layout_rows w rows lay y indent col_width row_height fs
                           style))%Z.
Proof.
  induction rows as [|row rows IH]; intros lay y indent cw rh fs style Hrh;
    [cbn; lia|].
  cbn [layout_rows]. etransitivity; [|apply IH; assumption]. lia.
Qed.

Lemma layout_table_down (table_elem : Element) (lay : Layout)
    (y indent fs style : Z) :
  (0 <= fs)%Z ->
  (y <= snd (layout_table w CONTENT_W table_elem lay y indent fs style))%Z.
Proof.
  intros Hfs. pose proof (Hm fs Hfs) as Hlh. unfold layout_table.
  destruct (table_rows table_elem) as [|row rows]; [cbn; lia|].
  match goal with
  | |- context [layout_rows w ?r lay ?a ?b ?c ?d ?e ?f] =>
      pose proof (layout_rows_down r lay a b c d e f) as H;
      destruct (layout_rows w r lay a b c d e f) as [lay' y']
  end.
  cbn [snd] in *. specialize (H ltac:(lia)). lia.
Qed.

Lemma layout_pre_lines_down (lines : list str) :
  forall (lay : Layout) (y indent : Z),
    (y <= snd (layout_pre_lines w CONTENT_W lines lay y indent))%Z.
Proof.
  induction lines as [|line lines IH]; intros lay y indent; [cbn; lia|].
  cbn [layout_pre_lines]. destruct (truthy line); [|apply IH].
  pose proof (layout_text_down line lay y indent 14 0 BLACK None ltac:(lia))
    as H.
  destruct (layout_text w CONTENT_W line lay y indent 14 0 BLACK None)
    as [lay' y'].
  cbn [snd] in H. etransitivity; [exact H|apply IH].
Qed.

Lemma font_size_nonneg (t : str) (fs : Z) :
  (0 <= fs)%Z ->
  (0 <= match assoc t FONT_SIZES with Some v => v | None => fs end)%Z.
Proof.
  intros Hfs. unfold FONT_SIZES. cbn [assoc].
  repeat match goal with
         | |- context [if ?c then _ else _] => destruct c; [lia|]
         end.
  exact Hfs.
Qed.

Lemma layout_element_down (elem : Element) :
  flows_down w CONTENT_W elem
  /\ Forall (flows_down w CONTENT_W) (children elem).
Proof.
  induction elem as [t a cs tx IH] using Element_children_ind.
  assert (Hcs : Forall (flows_down w CONTENT_W) cs).
  { eapply List.Forall_impl; [|exact IH]. intros c [H _]. exact H. }
  split; [|exact Hcs].
  intros lay y indent fs style href Hfs0.
  cbn [layout_element tag children text].
  pose proof (font_size_nonneg t fs Hfs0) as Hfs.
  revert Hfs.
  generalize (if str_eqb t (lit "a")
              then Some (get_href (mkElement t a cs tx)) else href).
  generalize (tag_style w t style).
  generalize (match assoc t FONT_SIZES with Some v => v | None => fs end).
  generalize (get_all_text (mkElement t a cs tx)).
  clear fs style href Hfs0. intros txt fs style href Hfs.
  pose proof (Hm fs Hfs) as Hlh.
  assert (H2 : (0 <= line_height_of w fs / 2)%Z) by (apply Z.div_pos; lia).
  assert (H4 : (0 <= line_height_of w fs / 4)%Z) by (apply Z.div_pos; lia).
  destruct (is_heading t).
  { match goal with
    | |- context [layout_text w CONTENT_W ?a ?b ?c ?d ?e ?f ?g ?h] =>
        pose proof (layout_text_down a b c d e f g h Hfs) as H;
        destruct (layout_text w CONTENT_W a b c d e f g h)
    end. cbn [snd] in *. lia. }
  destruct (str_eqb t (lit "p")).
  { match goal with
    | |- context [layout_inline w CONTENT_W ?a ?b ?c ?d ?e ?f ?g] =>
        pose proof (layout_inline_down a b c d e f g Hfs) as H;
        destruct (layout_inline w CONTENT_W a b c d e f g)
    end. cbn [snd] in *. lia. }
  destruct (str_eqb t (lit "br")); [cbn [snd]; lia|].
  destruct (str_eqb t (lit "hr")); [cbn [snd]; lia|].
  destruct (str_eqb t (lit "ul") || str_eqb t (lit "ol")).
  { match goal with
    | |- context [?F cs lay (y + 4)%Z 1%Z] =>
        assert (H : forall l yy n, (yy <= snd (F cs l yy n))%Z);
        [|specialize (H lay (y + 4)%Z 1%Z);
          destruct (F cs lay (y + 4)%Z 1%Z); cbn [snd] in *; lia]
    end.
    clear Hcs lay y.
    induction IH as [|c cs' [_ Hgc] _ IHcs]; intros l yy n; [cbn; lia|].
    cbn [snd]. destruct (str_eqb (tag c) (lit "li")); [|apply IHcs].
    match goal with
    | |- context [?G (children c) ?l0 ?y0] =>
        assert (H : forall l1 y1, (y1 <= snd (G (children c) l1 y1))%Z);
        [|specialize (H l0 y0); destruct (G (children c) l0 y0) as [lay1 y1]]
    end.
    { clear IHcs. induction Hgc as [|g gs Hg _ IHgs]; intros l1 y1;
        [cbn; lia|].
      cbn [snd].
      pose proof (Hg l1 y1 (indent + 40)%Z fs style None Hfs) as H.
      destruct (layout_element w CONTENT_W g l1 y1 (indent + 40) fs style None)
        as [lay2 y2].
      cbn [snd] in H. etransitivity; [exact H|apply IHgs]. }
    cbn [snd] in H.
    destruct (truthy (text c)).
    - match goal with
      | |- context [layout_text w CONTENT_W ?a ?b ?c ?d ?e ?f ?g ?h] =>
          pose proof (layout_text_down a b c d e f g h Hfs) as Ht;
          destruct (layout_text w CONTENT_W a b c d e f g h) as [lay2 y2]
      end.
      cbn [snd] in Ht. etransitivity; [|apply IHcs].
      destruct (_ =? _)%Z; lia.
    - etransitivity; [|apply IHcs]. destruct (_ =? _)%Z; lia. }
  destruct (str_eqb t (lit "blockquote")).
  { match goal with
    | |- context [layout_text w CONTENT_W ?a ?b ?c ?d ?e ?f ?g ?h] =>
        pose proof (layout_text_down a b c d e f g h Hfs) as H;
        destruct (layout_text w CONTENT_W a b c d e f g h)
    end. cbn [snd] in *. lia. }
  destruct (str_eqb t (lit "pre") || str_eqb t (lit "code")).
  { match goal with
    | |- context [layout_pre_lines w CONTENT_W ?a ?b ?c ?d] =>
        pose proof (layout_pre_lines_down a b c d) as H;
        destruct (layout_pre_lines w CONTENT_W a b c d)
    end. cbn [snd] in *. lia. }
  destruct (str_eqb t (lit "table")); [now apply layout_table_down|].
  match goal with
  | |- context [if truthy tx then ?e else (lay, y)] =>
      assert (H : (y <= snd (if truthy tx then e else (lay, y)))%Z)
        by (destruct (truthy tx); [now apply layout_text_down|cbn; lia]);
      destruct (if truthy tx then e else (lay, y)) as [lay0 y0]
  end.
  cbn [snd] in H. etransitivity; [exact H|]. clear H IH.
  revert lay0 y0. induction Hcs as [|c cs' Hc _ IHcs]; intros lay0 y0;
    [cbn; lia|].
  cbn [snd]. pose proof (Hc lay0 y0 indent fs style href Hfs) as H.
  destruct (layout_element w CONTENT_W c lay0 y0 indent fs style href)
    as [lay2 y2].
  cbn [snd] in H. etransitivity; [exact H|apply IHcs].
Qed.

Lemma layout_document_height (root : Element) :
  (40 <= snd (layout_document w CONTENT_W root))%Z.
Proof.
  unfold layout_document.
  match goal with
  | |- context [layout_element w CONTENT_W ?e ?l ?a ?b ?c ?d ?h] =>
      destruct (layout_element_down e) as [H _];
      specialize (H l a b c d h ltac:(lia));
      destruct (layout_element w CONTENT_W e l a b c d h) as [lay y]
  end.
  cbn [snd] in *.
  destruct (max_bottom_of_bounds (out_blocks lay) y) as [Hy _].
  unfold MARGIN in *. lia.
Qed.

End Flow.

(** ** The scrollbar arithmetic *)

Section Thumb.

Variable w : World.
Hypothesis Hm : sane_metrics w.

Lemma quiet_obind {A B} (o : outcome A) (k : A -> Browser -> outcome B) :
  quiet o -> (forall a b, thumb_defined b -> quiet (k a b)) ->
  quiet (obind o k).
Proof. destruct o as [a b|e b|]; cbn; auto. Qed.

Lemma quiet_ret {A} (o : outcome A) (a : bool) :
  quiet o -> quiet (obind o (fun _ b => Ret a b)).
Proof. intros H. apply quiet_obind; [exact H|auto]. Qed.

Lemma draw_quiet (b : Browser) : thumb_defined b -> quiet (draw b).
Proof.
  intros H. unfold draw, draw_scrollbar.
  destruct (max_scroll b <=? 0)%Z eqn:E1; [exact H|].
  destruct (content_height b =? 0)%Z eqn:E2; [|exact H].
  apply Z.leb_gt in E1. apply Z.eqb_eq in E2. specialize (H E2). lia.
Qed.

Lemma show_document_quiet (status : Z) (body : str) (b : Browser) :
  quiet (show_document w status body b).
Proof.
  unfold show_document.
  match goal with
  | |- context [parse_html ?h] => destruct (parse_html_total h) as [root ->]
  end.
  cbn [lift obind].
  pose proof (layout_document_height w (content_w (set_current_html
                (if negb (status =? 200)%Z then error_page status body
                 else body) b)) Hm root) as Hh.
  destruct (layout_document w _ root) as [[blocks_ links_] ch].
  apply draw_quiet. intros H0. cbn in H0, Hh. lia.
Qed.

Lemma navigate_quiet (fuel : nat) :
  forall (url_ : str) (from_back from_forward : bool) (b : Browser),
    thumb_defined b -> quiet (navigate w fuel url_ from_back from_forward b).
Proof.
  induction fuel as [|fuel IH]; intros url_ fb ff b H; [exact I|].
  rewrite navigate_unfold.
  pose proof (resolve_url_result (url b) url_) as Hr.
  destruct (resolve_url (url b) url_) as [target|e|]; cbn [quiet]; auto.
  cbv zeta.
  assert (H1 : thumb_defined (begin_navigation target fb ff b)).
  { unfold begin_navigation, record_history.
    destruct (truthy (url b)), ff, fb; exact H. }
  pose proof (fetch_url_result w target) as Hf.
  destruct (fetch_url w target) as [[status body]|e|]; cbn [quiet]; auto.
  destruct (is_redirect status); [now apply IH|apply show_document_quiet].
Qed.

Lemma handle_click_quiet (fuel : nat) (x y : Z) (b : Browser) :
  thumb_defined b -> quiet (handle_click w fuel x y b).
Proof.
  intros H. unfold handle_click, back, forward, refresh.
  repeat match goal with
         | |- context [if ?c then _ else _] => destruct c
         | |- context [match history b with _ => _ end] => destruct (history b)
         | |- context [match forward_history b with _ => _ end] =>
             destruct (forward_history b)
         | |- context [match hit_link ?l ?x ?y with _ => _ end] =>
             destruct (hit_link l x y)
         end;
    try exact H; apply navigate_quiet; exact H.
Qed.

Lemma handle_mouse_move_quiet (x y : Z) (b : Browser) :
  thumb_defined b -> quiet (handle_mouse_move x y b).
Proof.
  intros H. unfold handle_mouse_move.
  destruct (scrollbar_dragging b && (max_scroll b >? 0))%Z eqn:E;
    [|exact H].
  apply andb_true_iff in E. destruct E as [_ E]. apply Z.gtb_lt in E.
  destruct (content_height b =? 0)%Z eqn:E0.
  { apply Z.eqb_eq in E0. specialize (H E0). lia. }
  repeat match goal with
         | |- context [if ?c then _ else _] => destruct c
         end;
    try exact H. apply draw_quiet. exact H.
Qed.

Lemma handle_key_quiet (fuel : nat) (key : Z) (b : Browser) :
  thumb_defined b -> quiet (handle_key w fuel key b).
Proof.
  intros H. unfold handle_key.
  repeat match goal with
         | |- context [if ?c then _ else _] => destruct c
         end;
    try exact H; apply quiet_ret;
    try (apply draw_quiet; exact H); apply navigate_quiet; exact H.
Qed.

Lemma handle_resize_quiet (new_w new_h : Z) (b : Browser) :
  thumb_defined b -> quiet (handle_resize w new_w new_h b).
Proof.
  intros H. unfold handle_resize.
  match goal with
  | |- context [if ?c then _ else _] => destruct c; [|exact H]
  end.
  match goal with
  | |- context [parse_html ?h] => destruct (parse_html_total h) as [root ->]
  end.
  cbn [lift obind].
  match goal with
  | |- context [layout_document w ?cw root] =>
      pose proof (layout_document_height w cw Hm root) as Hh;
      destruct (layout_document w cw root) as [[blocks_ links_] ch]
  end.
  apply draw_quiet. cbn [snd] in Hh.
  match goal with
  | |- context [if ?c then _ else _] => destruct c
  end; intros H0; cbn in H0; lia.
Qed.

Lemma event_loop_quiet (fuel : nat) (polls : list (option Event)) :
  forall b : Browser,
    thumb_defined b -> quiet (event_loop w fuel polls b).
Proof.
  induction polls as [|event polls IH]; intros b H; [exact H|].
  cbn [event_loop]. apply quiet_obind.
  - destruct event as [[|x y|x y|x y|key|new_w new_h|]|]; cbn [dispatch];
      try exact H; try apply quiet_ret.
    + now apply handle_click_quiet.
    + now apply handle_mouse_move_quiet.
    + now apply handle_key_quiet.
    + now apply handle_resize_quiet.
  - intros [] b' H'; [now apply IH|exact H'].
Qed.

Lemma run_quiet (fuel : nat) (initial_url : str)
    (polls : list (option Event)) (kiosk : bool) :
  quiet (run w fuel initial_url polls (new_Browser kiosk)).
Proof.
  assert (H0 : thumb_defined (set_wid (window_create w) (new_Browser kiosk)))
    by (intros _; cbn; lia).
  unfold run. destruct (_ <? 0)%Z; [exact H0|].
  apply quiet_obind; [now apply navigate_quiet|].
  intros _ b H. now apply event_loop_quiet.
Qed.

End Thumb.


Lemma sample_world_sane_metrics : sane_metrics sample_world.
Proof.
  intros fs Hfs. unfold line_height_of. cbn.
  pose proof (Z.div_pos fs 4 Hfs ltac:(lia)). lia.
Qed.


(** ** The entry point *)

Lemma main_args_fold (args : list str) :
  forall acc : str * bool,
    is_absolute (fst acc) = true ->
    let r := fold_left
               (fun (acc : str * bool) (arg : str) =>
                  if str_eqb arg (lit "--kiosk") then (fst acc, true)
                  else if startswith arg (lit "http://")
                          || startswith arg (lit "https://")
                          || startswith arg (lit "file://")
                          || startswith arg (lit "about:")
                  then (arg, snd acc)
                  else acc)
               args acc in
    is_absolute (fst r) = true
    /\ fst r = List.last (filter (fun a => is_absolute a) args) (fst acc)
    /\ snd r = snd acc || existsb (fun a => str_eqb a (lit "--kiosk")) args.
Proof.
  induction args as [|arg args IH]; intros acc Hacc; cbn zeta.
  - cbn. now rewrite orb_false_r.
  - cbn [fold_left existsb]. destruct (str_eqb arg (lit "--kiosk")) eqn:Ek.
    + apply str_eqb_eq in Ek. subst arg.
      destruct (IH (fst acc, true) Hacc) as (H1 & H2 & H3).
      split; [exact H1|]. split; [exact H2|].
      rewrite H3. cbn [snd orb]. now rewrite orb_true_r.
    + fold (is_absolute arg).
      replace (filter (fun a => is_absolute a) (arg :: args))
        with (if is_absolute arg
              then arg :: filter (fun a => is_absolute a) args
              else filter (fun a => is_absolute a) args)
        by (cbn; now destruct (is_absolute arg)).
      destruct (is_absolute arg) eqn:Ea.
      * destruct (IH (arg, snd acc) Ea) as (H1 & H2 & H3).
        split; [exact H1|]. split; [|exact H3].
        rewrite H2. cbn [fst]. now rewrite last_cons_last.
      * destruct (IH acc Hacc) as (H1 & H2 & H3). auto.
Qed.

(** X26: [main] always starts the browser at a URL with a scheme: at the
    last argument that starts with [http://], [https://], [file://] or
    [about:], at [about:home] when there is none (an address without a
    scheme is ignored); so resolving the start URL gives it back, and
    kiosk mode is on exactly when [--kiosk] is among the arguments. *)
Theorem main_starts_at_absolute_url (args : list str) :
  fst (main_args args)
  = List.last (filter (fun a => is_absolute a) args) (lit "about:home")
  /\ snd (main_args args) = existsb (fun a => str_eqb a (lit "--kiosk")) args
  /\ is_absolute (fst (main_args args)) = true
  /\ (forall base_url : str,
        resolve_url base_url (fst (main_args args))
        = Ok (fst (main_args args))).
Proof.
  destruct (main_args_fold args (lit "about:home", false) eq_refl)
    as (H1 & H2 & H3).
  fold (main_args args) in H1, H2, H3. cbn [fst snd orb] in H2, H3.
  split; [exact H2|]. split; [exact H3|]. split; [exact H1|].
  intros base_url. now apply resolve_url_absolute.
Qed.
